(** * Paren: a shallow embedding of the language kernel (libparen)

    The kernel of the Paren interpreter is embedded as executable Rocq
    functions: the tokenizer, the reader, symbol interning, environments,
    the macro expander and compile pass, the evaluator and the builtins.

    Values are [std::shared_ptr<Node>] in the source, and several
    operations ([set], [++], [push-back!], [pop-back!]) mutate the pointee.
    The embedding therefore keeps every [Node] in a heap indexed by
    addresses and every [environment] in a frame store; a [snode] is an
    address, a [senvironment] is a frame identifier. Reference counting and
    deallocation are not observable by programs and are not modelled. *)

From Stdlib Require Import ZArith NArith Ascii String List Lia.
From Stdlib Require Import Floats.SpecFloat.
From stdpp Require Import gmap strings list pretty.

Local Open Scope string_scope.
Local Open Scope list_scope.
Local Open Scope Z_scope.

(** ** Host failures

    The source has no error channel of its own; what can go wrong is a C++
    exception that nobody catches ([std::out_of_range] from [at]), or
    undefined behaviour (unchecked [operator[]], [back] on an empty
    vector, a null dereference, integer division by zero). Both end the
    run. [OutOfFuel] is the embedding's bound on recursion depth and loop
    iterations, [Unmodelled] marks host facilities outside the kernel
    (threads, files, the C library's mathematics). *)

Inductive error : Type :=
| OutOfRange
| Undefined
| DivisionByZero
| Unmodelled
| OutOfFuel.

Inductive result (A : Type) : Type :=
| Ok (a : A)
| Crash (e : error).

Arguments Ok {A} a.
Arguments Crash {A} e.

Definition rbind {A B : Type} (r : result A) (k : A -> result B) : result B :=
  match r with
  | Ok a => k a
  | Crash e => Crash e
  end.

(** ** Machine integers *)

(** [size_t] is 64 bits wide; arithmetic on it wraps around. *)
Definition wrap64 (z : Z) : Z := z mod 2 ^ 64.

(** [int] is 32 bits wide, two's complement. Signed overflow is undefined
    in C++; the embedding gives it the wrap-around every supported target
    produces. *)
Definition wrap32 (z : Z) : Z := (z + 2 ^ 31) mod 2 ^ 32 - 2 ^ 31.

Definition INT_MIN : Z := - 2 ^ 31.
Definition INT_MAX : Z := 2 ^ 31 - 1.

(** The double-quote character. *)
Definition dquote : ascii := "034"%char.

(** ** Tokenizer *)

Module Tokenizer.

Record t : Type := mk {
  ret : list string;
  acc : string;
  unclosed : Z
}.

(** [s.at(pos)]: bounds-checked, throws [std::out_of_range]. *)
Definition at_ (s : string) (pos : Z) : result ascii :=
  match String.get (Z.to_nat pos) s with
  | Some c => Ok c
  | None => Crash OutOfRange
  end.

(** Add the accumulated string to the token list. *)
Definition emit (k : t) : t :=
  if (0 <? Z.of_nat (String.length (acc k))) then
    {| ret := ret k ++ [acc k]; acc := EmptyString; unclosed := unclosed k |}
  else k.

Definition push (c : ascii) (k : t) : t :=
  {| ret := ret k; acc := acc k +:+ String c EmptyString; unclosed := unclosed k |}.

Definition bump (d : Z) (k : t) : t :=
  {| ret := ret k; acc := acc k; unclosed := wrap32 (unclosed k + d) |}.

Definition is_space (c : ascii) : bool :=
  (c =? " ")%char || (c =? "009")%char || (c =? "013")%char || (c =? "010")%char.

(** The [do pos++ while (pos <= last && s.at(pos) != '\n')] loop of a
    comment; the result is the position the loop stops at. *)
Fixpoint skip_comment (fuel : nat) (s : string) (last pos : Z) : result Z :=
  match fuel with
  | O => Crash OutOfFuel
  | S fuel' =>
      let pos := wrap64 (pos + 1) in
      if pos <=? last then
        rbind (at_ s pos) (fun c =>
          if negb (c =? "010")%char then skip_comment fuel' s last pos
          else Ok pos)
      else Ok pos
  end.

(** The [while (pos <= last)] loop over the inside of a string literal. *)
Fixpoint scan_string (fuel : nat) (s : string) (last pos : Z) (k : t)
  : result (Z * t) :=
  match fuel with
  | O => Crash OutOfFuel
  | S fuel' =>
      if pos <=? last then
        rbind (at_ s pos) (fun c =>
          if (c =? dquote)%char then Ok (pos, bump (-1) k)
          else if (c =? "\")%char then
            rbind (at_ s (wrap64 (pos + 1))) (fun next =>
              let next :=
                if (next =? "r")%char then "013"%char
                else if (next =? "n")%char then "010"%char
                else if (next =? "t")%char then "009"%char
                else next in
              scan_string fuel' s last (wrap64 (pos + 2)) (push next k))
          else scan_string fuel' s last (wrap64 (pos + 1)) (push c k))
      else Ok (pos, k)
  end.

(** The body of the [for (size_t pos = 0; pos <= last; pos++)] loop. *)
Fixpoint loop (fuel : nat) (s : string) (last pos : Z) (k : t) : result t :=
  match fuel with
  | O => Crash OutOfFuel
  | S fuel' =>
      if pos <=? last then
        rbind (at_ s pos) (fun c =>
          if is_space c then loop fuel' s last (wrap64 (pos + 1)) (emit k)
          else if (c =? ";")%char
                  || ((pos <? last) && (c =? "#")%char
                      && match String.get (Z.to_nat (pos + 1)) s with
                         | Some c' => (c' =? "!")%char
                         | None => false
                         end) then
            rbind (skip_comment fuel' s last pos) (fun pos' =>
              loop fuel' s last (wrap64 (pos' + 1)) (emit k))
          else if (c =? dquote)%char then
            let k := push dquote (emit (bump 1 k)) in
            rbind (scan_string fuel' s last (wrap64 (pos + 1)) k)
              (fun '(pos', k') =>
                 loop fuel' s last (wrap64 (pos' + 1)) (emit k'))
          else if (c =? "(")%char then
            loop fuel' s last (wrap64 (pos + 1))
              (emit (push c (emit (bump 1 k))))
          else if (c =? ")")%char then
            loop fuel' s last (wrap64 (pos + 1))
              (emit (push c (emit (bump (-1) k))))
          else loop fuel' s last (wrap64 (pos + 1)) (push c k))
      else Ok (emit k)
  end.

(** [Tokenizer(s).tokenize()], returning the final tokenizer state: the
    token list and the [unclosed] counter. [last] is computed in [size_t]:
    it wraps around to [2^64 - 1] when [s] is empty. Every iteration of
    every loop advances [pos], so [length s + 2] steps are enough. *)
Definition run (s : string) : result t :=
  let last := wrap64 (Z.of_nat (String.length s) - 1) in
  loop (String.length s + 2) s last 0
    {| ret := []; acc := EmptyString; unclosed := 0 |}.

End Tokenizer.

Definition tokenize (s : string) : result (list string) :=
  rbind (Tokenizer.run s) (fun k => Ok (Tokenizer.ret k)).


(** ** Doubles

    A [double] is an IEEE-754 binary64 number, taken from the standard
    library's specification of floating-point arithmetic. *)

Definition double : Type := spec_float.

Definition prec : Z := 53.
Definition emax : Z := 1024.

Definition dadd : double -> double -> double := SFadd prec emax.
Definition dsub : double -> double -> double := SFsub prec emax.
Definition dmul : double -> double -> double := SFmul prec emax.
Definition ddiv : double -> double -> double := SFdiv prec emax.
Definition dlt : double -> double -> bool := SFltb.
Definition deq : double -> double -> bool := SFeqb.

(** Conversion [int -> double]; exact. *)
Definition double_of_int (z : Z) : double := binary_normalize prec emax z 0 false.

(** Conversion [(int)d]: truncation toward zero. A value outside the range
    of [int] is undefined in C++; the embedding returns what the x86-64
    conversion instruction returns, [INT_MIN]. *)
Definition int_of_double (d : double) : Z :=
  match d with
  | S754_zero _ => 0
  | S754_finite sg m e =>
      let a := if 0 <=? e then Z.pos m * 2 ^ e else Z.pos m / 2 ^ (- e) in
      let z := if sg then - a else a in
      if (INT_MIN <=? z) && (z <=? INT_MAX) then z else INT_MIN
  | _ => INT_MIN
  end.

(** The 64-bit pattern of a double, and back. *)
Definition bits_of_double (d : double) : Z :=
  let sign (sg : bool) := if sg then 2 ^ 63 else 0 in
  match d with
  | S754_zero sg => sign sg
  | S754_infinity sg => sign sg + 2047 * 2 ^ 52
  | S754_nan => 2047 * 2 ^ 52 + 2 ^ 51
  | S754_finite sg m e =>
      sign sg +
      (if Z.pos m <? 2 ^ 52 then Z.pos m
       else (e + 1075) * 2 ^ 52 + (Z.pos m - 2 ^ 52))
  end.

Definition double_of_bits (b : Z) : double :=
  let sg := Z.testbit b 63 in
  let e := (b / 2 ^ 52) mod 2 ^ 11 in
  let m := b mod 2 ^ 52 in
  if e =? 0 then
    (if m =? 0 then S754_zero sg else S754_finite sg (Z.to_pos m) (-1074))
  else if e =? 2047 then
    (if m =? 0 then S754_infinity sg else S754_nan)
  else S754_finite sg (Z.to_pos (m + 2 ^ 52)) (e - 1075).

(** ** The C library's [atoi] and [atof]

    Both skip leading white space and convert the longest prefix that is a
    number. [atoi] is [(int) strtol(s, NULL, 10)]: [strtol] saturates at the
    range of [long], the cast then keeps the low 32 bits. [atof] is
    [strtod]; of its input syntax the decimal forms are modelled (digits, a
    fraction, a decimal exponent), and the result is the correctly rounded
    double. *)

Definition isspace (c : ascii) : bool :=
  let n := nat_of_ascii c in ((n =? 32) || ((9 <=? n) && (n <=? 13)))%nat.

Definition isdigit (c : ascii) : bool :=
  let n := nat_of_ascii c in ((48 <=? n) && (n <=? 57))%nat.

Definition digit_value (c : ascii) : Z := Z.of_nat (nat_of_ascii c) - 48.

Fixpoint skip_spaces (s : string) : string :=
  match s with
  | String c r => if isspace c then skip_spaces r else s
  | EmptyString => s
  end.

(** Value and number of the leading digits of [s], and what follows. *)
Fixpoint read_digits (s : string) (acc count : Z) : Z * Z * string :=
  match s with
  | String c r =>
      if isdigit c then read_digits r (10 * acc + digit_value c) (count + 1)
      else (acc, count, s)
  | EmptyString => (acc, count, s)
  end.

Definition read_sign (s : string) : bool * string :=
  match s with
  | String c r =>
      if (c =? "-")%char then (true, r)
      else if (c =? "+")%char then (false, r)
      else (false, s)
  | EmptyString => (false, s)
  end.

Definition strtol (s : string) : Z :=
  let '(neg, s) := read_sign (skip_spaces s) in
  let '(v, _, _) := read_digits s 0 0 in
  if neg then Z.max (- 2 ^ 63) (- v) else Z.min (2 ^ 63 - 1) v.

Definition atoi (s : string) : Z := wrap32 (strtol s).

(** The double nearest to [m * 10^e], for [m >= 0]. For a negative
    exponent the quotient is computed with 64 extra bits and a sticky bit,
    so that the single rounding of [binary_normalize] is the correct one. *)
Definition double_of_decimal (neg : bool) (m e : Z) : double :=
  if m =? 0 then S754_zero neg
  else if 0 <=? e then
    binary_normalize prec emax ((if neg then - m else m) * 10 ^ e) 0 false
  else
    let d := 10 ^ (- e) in
    let k := Z.log2 d + 64 in
    let q := (m * 2 ^ k) / d in
    let sticky := if (m * 2 ^ k) mod d =? 0 then 0 else 1 in
    let m' := 2 * q + sticky in
    binary_normalize prec emax (if neg then - m' else m') (- (k + 1)) false.

Definition read_exponent (s : string) : Z :=
  match s with
  | String c r =>
      if (c =? "e")%char || (c =? "E")%char then
        let '(neg, r) := read_sign r in
        let '(v, count, _) := read_digits r 0 0 in
        if count =? 0 then 0 else if neg then - v else v
      else 0
  | EmptyString => 0
  end.

Definition atof (s : string) : double :=
  let '(neg, s) := read_sign (skip_spaces s) in
  let '(ip, icount, s) := read_digits s 0 0 in
  let '(m, fcount, s) :=
    match s with
    | String c r =>
        if (c =? ".")%char then read_digits r ip 0 else (ip, 0, s)
    | EmptyString => (ip, 0, s)
    end in
  if (icount + fcount =? 0) then S754_zero false
  else double_of_decimal neg m (read_exponent s - fcount).

(** ** Values *)

(** [snode] and [senvironment]: shared pointers, here an address in the
    heap and the index of a frame in the frame store. *)
Abbreviation snode := nat (only parsing).
Abbreviation senvironment := nat (only parsing).

(** The host functions behind builtins and special forms. A [builtin] in
    the source is a pointer to one of them. *)
Module Fn.

Inductive t : Type :=
| special_def | special_set | special_if | special_fn | special_begin
| special_while | special_quote | special_andand | special_oror
| special_thread
| builtin_eval | builtin_plus | builtin_minus | builtin_mul | builtin_div
| builtin_lt | builtin_caret | builtin_percent | builtin_sqrt
| builtin_plusplus | builtin_minusminus | builtin_floor | builtin_ceil
| builtin_ln | builtin_log10 | builtin_rand | builtin_eqeq | builtin_not
| builtin_strlen | builtin_char_at | builtin_chr | builtin_int
| builtin_double | builtin_string | builtin_read_string | builtin_type
| builtin_list | builtin_apply | builtin_fold | builtin_map | builtin_filter
| builtin_push_backd | builtin_pop_backd | builtin_nth | builtin_length
| builtin_pr | builtin_prn | builtin_exit | builtin_system | builtin_cons
| builtin_read_line | builtin_slurp | builtin_spit | builtin_join
| builtin_import.

Definition all : list t :=
  [ special_def; special_set; special_if; special_fn; special_begin;
    special_while; special_quote; special_andand; special_oror;
    special_thread;
    builtin_eval; builtin_plus; builtin_minus; builtin_mul; builtin_div;
    builtin_lt; builtin_caret; builtin_percent; builtin_sqrt;
    builtin_plusplus; builtin_minusminus; builtin_floor; builtin_ceil;
    builtin_ln; builtin_log10; builtin_rand; builtin_eqeq; builtin_not;
    builtin_strlen; builtin_char_at; builtin_chr; builtin_int;
    builtin_double; builtin_string; builtin_read_string; builtin_type;
    builtin_list; builtin_apply; builtin_fold; builtin_map; builtin_filter;
    builtin_push_backd; builtin_pop_backd; builtin_nth; builtin_length;
    builtin_pr; builtin_prn; builtin_exit; builtin_system; builtin_cons;
    builtin_read_line; builtin_slurp; builtin_spit; builtin_join;
    builtin_import ].

Definition index (f : t) : Z :=
  match f with
  | special_def => 0 | special_set => 1 | special_if => 2 | special_fn => 3
  | special_begin => 4 | special_while => 5 | special_quote => 6
  | special_andand => 7 | special_oror => 8 | special_thread => 9
  | builtin_eval => 10 | builtin_plus => 11 | builtin_minus => 12
  | builtin_mul => 13 | builtin_div => 14 | builtin_lt => 15
  | builtin_caret => 16 | builtin_percent => 17 | builtin_sqrt => 18
  | builtin_plusplus => 19 | builtin_minusminus => 20 | builtin_floor => 21
  | builtin_ceil => 22 | builtin_ln => 23 | builtin_log10 => 24
  | builtin_rand => 25 | builtin_eqeq => 26 | builtin_not => 27
  | builtin_strlen => 28 | builtin_char_at => 29 | builtin_chr => 30
  | builtin_int => 31 | builtin_double => 32 | builtin_string => 33
  | builtin_read_string => 34 | builtin_type => 35 | builtin_list => 36
  | builtin_apply => 37 | builtin_fold => 38 | builtin_map => 39
  | builtin_filter => 40 | builtin_push_backd => 41
  | builtin_pop_backd => 42 | builtin_nth => 43 | builtin_length => 44
  | builtin_pr => 45 | builtin_prn => 46 | builtin_exit => 47
  | builtin_system => 48 | builtin_cons => 49 | builtin_read_line => 50
  | builtin_slurp => 51 | builtin_spit => 52 | builtin_join => 53
  | builtin_import => 54
  end.

(** Where the functions sit in memory is the linker's choice; the
    embedding lays them out 16 bytes apart from a fixed base. Only a read
    of a builtin's pointer through another member of the union can tell. *)
Definition base : Z := 0x401000.

Definition address (f : t) : Z := base + 16 * index f.

Definition at_address (a : Z) : option t :=
  if (base <=? a) && ((a - base) mod 16 =? 0) then
    nth_error all (Z.to_nat ((a - base) / 16))
  else None.

End Fn.

Definition builtin : Type := Fn.t.

Inductive node_type : Type :=
| T_NIL | T_INT | T_DOUBLE | T_BOOL | T_STRING | T_SYMBOL | T_LIST
| T_SPECIAL | T_BUILTIN | T_FN | T_THREAD.

#[global] Instance node_type_eq_dec : EqDecision node_type.
Proof. solve_decision. Defined.

(** [struct Node]. The anonymous union of [v_int], [code], [v_double],
    [v_bool], [p_thread] and [v_builtin] is the field [u], its eight bytes
    as a number (little-endian, as on the supported targets): each member
    is a view of these bytes. The union's default member initializer is
    [p_thread = nullptr], all bytes zero. Bytes a constructor leaves
    unwritten (the upper bytes after [v_int(a)] or [v_bool(a)]) are taken
    to be zero. *)
Record Node : Type := mkNode {
  type : node_type;
  u : Z;
  v_string : string;
  v_list : list snode;
  outer_env : option senvironment
}.

Definition v_int (n : Node) : Z := wrap32 (u n).
Definition code (n : Node) : N := Z.to_N (u n).
Definition v_double (n : Node) : double := double_of_bits (u n).
Definition v_bool (n : Node) : bool := negb (u n mod 2 ^ 8 =? 0).
Definition v_builtin (n : Node) : option builtin := Fn.at_address (u n).

Definition with_type (t : node_type) (n : Node) : Node :=
  mkNode t (u n) (v_string n) (v_list n) (outer_env n).
Definition with_u (x : Z) (n : Node) : Node :=
  mkNode (type n) x (v_string n) (v_list n) (outer_env n).
Definition with_v_list (l : list snode) (n : Node) : Node :=
  mkNode (type n) (u n) (v_string n) l (outer_env n).
Definition with_outer_env (e : option senvironment) (n : Node) : Node :=
  mkNode (type n) (u n) (v_string n) (v_list n) e.

(** Assignment to a member of the union overwrites that member's bytes. *)
Definition set_v_int (z : Z) (n : Node) : Node :=
  with_u (u n / 2 ^ 32 * 2 ^ 32 + z mod 2 ^ 32) n.
Definition set_v_double (d : double) (n : Node) : Node :=
  with_u (bits_of_double d) n.

(** The constructors of [Node]. *)
Definition Node_nil : Node := mkNode T_NIL 0 EmptyString [] None.
Definition Node_int (a : Z) : Node :=
  mkNode T_INT (a mod 2 ^ 32) EmptyString [] None.
Definition Node_double (a : double) : Node :=
  mkNode T_DOUBLE (bits_of_double a) EmptyString [] None.
Definition Node_bool (a : bool) : Node :=
  mkNode T_BOOL (if a then 1 else 0) EmptyString [] None.
Definition Node_string (a : string) : Node := mkNode T_STRING 0 a [] None.
Definition Node_list (a : list snode) : Node :=
  mkNode T_LIST 0 EmptyString a None.
Definition Node_builtin (a : builtin) : Node :=
  mkNode T_BUILTIN (Fn.address a) EmptyString [] None.

(** ** Program state *)

(** [struct environment]: the bindings of one frame and the link to the
    enclosing frame. *)
Record environment : Type := mkEnvironment {
  env : gmap N snode;
  outer : option senvironment
}.

(** The process state: the heap of nodes, the frame store, the globals
    [global_env], [symcode], [symname] and [macros], and what has been
    written to standard output. *)
Record state : Type := mkState {
  heap : list Node;
  envs : list environment;
  global_env : option senvironment;
  symcode : gmap string N;
  symname : list string;
  macros : gmap string (list snode);
  stdout : string
}.

(** The global constants [node_true], [node_false], [node_0], [node_1] and
    [nil] are created during static initialization, in this order; they
    occupy the first five heap cells. *)
Definition node_true : snode := 0%nat.
Definition node_false : snode := 1%nat.
Definition node_0 : snode := 2%nat.
Definition node_1 : snode := 3%nat.
Definition node_nil : snode := 4%nat.

Definition start : state :=
  {| heap := [Node_bool true; Node_bool false; Node_int 0; Node_int 1;
              Node_nil];
     envs := [];
     global_env := None;
     symcode := ∅;
     symname := [];
     macros := ∅;
     stdout := EmptyString |}.

Definition with_heap (h : list Node) (s : state) : state :=
  mkState h (envs s) (global_env s) (symcode s) (symname s) (macros s)
    (stdout s).
Definition with_envs (e : list environment) (s : state) : state :=
  mkState (heap s) e (global_env s) (symcode s) (symname s) (macros s)
    (stdout s).
Definition with_macros (m : gmap string (list snode)) (s : state) : state :=
  mkState (heap s) (envs s) (global_env s) (symcode s) (symname s) m
    (stdout s).
Definition with_stdout (o : string) (s : state) : state :=
  mkState (heap s) (envs s) (global_env s) (symcode s) (symname s)
    (macros s) o.

(** ** The monad of kernel computations: state and host failure *)

Definition M (A : Type) : Type := state -> result (A * state).

Definition ret {A : Type} (a : A) : M A := fun s => Ok (a, s).

Definition bind {A B : Type} (m : M A) (k : A -> M B) : M B :=
  fun s =>
    match m s with
    | Ok (a, s') => k a s'
    | Crash e => Crash e
    end.

Definition crash {A : Type} (e : error) : M A := fun _ => Crash e.

Notation "x <- c ;; k" := (bind c (fun x => k))
  (at level 100, c at next level, right associativity).
Notation "c ;;; k" := (bind c (fun _ => k))
  (at level 100, right associativity).

Definition gets {A : Type} (f : state -> A) : M A := fun s => Ok (f s, s).
Definition modify (f : state -> state) : M unit := fun s => Ok (tt, f s).

Definition lift {A : Type} (r : result A) : M A :=
  fun s => match r with Ok a => Ok (a, s) | Crash e => Crash e end.

(** [std::make_shared<Node>(n)]: a fresh cell. *)
Definition make_shared (n : Node) : M snode :=
  fun s => Ok (length (heap s), with_heap (heap s ++ [n]) s).

(** [*a]: the node a pointer refers to. Every pointer the kernel holds
    refers to a live cell. *)
Definition deref (a : snode) : M Node :=
  fun s => match heap s !! a with
           | Some n => Ok (n, s)
           | None => Crash Undefined
           end.

(** [*a = n]: overwrite the pointee. *)
Definition assign (a : snode) (n : Node) : M unit :=
  modify (fun s => with_heap (<[a := n]> (heap s)) s).

(** [v[i]] on a vector: unchecked, undefined out of range. *)
Definition index {A : Type} (v : list A) (i : nat) : M A :=
  match v !! i with
  | Some x => ret x
  | None => crash Undefined
  end.

(** [v.at(i)]: checked, throws [std::out_of_range]. *)
Definition at_ {A : Type} (v : list A) (i : nat) : M A :=
  match v !! i with
  | Some x => ret x
  | None => crash OutOfRange
  end.

Definition make_special (a : builtin) : M snode :=
  make_shared (with_u (Fn.address a) (with_type T_SPECIAL Node_nil)).

(** ** Symbol interning *)

(** [ToCode]: the code of a name, interning it when it is new. *)
Definition ToCode (name : string) : M N :=
  fun s =>
    match symcode s !! name with
    | Some r => Ok (r, s)
    | None =>
        let r := N.of_nat (size (symcode s)) in
        Ok (r, mkState (heap s) (envs s) (global_env s)
                 (<[name := r]> (symcode s)) (symname s ++ [name])
                 (macros s) (stdout s))
    end.

(** ** Environments *)

(** [std::make_shared<environment>(environment(outer))]: a fresh, empty
    frame. *)
Definition new_environment (o : option senvironment) : M senvironment :=
  fun s => Ok (length (envs s),
               with_envs (envs s ++ [mkEnvironment ∅ o]) s).

(** [environment::get(code)]. The recursion follows the [outer] links;
    a frame is always younger than the frame it is linked to, so the
    number of frames bounds the length of any chain. *)
Fixpoint get_from (fuel : nat) (fs : list environment) (e : senvironment)
  (c : N) : snode :=
  match fuel with
  | O => node_nil
  | S fuel' =>
      match fs !! e with
      | Some f =>
          match env f !! c with
          | Some v => v
          | None =>
              match outer f with
              | Some o => get_from fuel' fs o c
              | None => node_nil
              end
          end
      | None => node_nil
      end
  end.

Definition get (s : state) (e : senvironment) (c : N) : snode :=
  get_from (length (envs s)) (envs s) e c.

(** [env[code] = v] on the bindings of frame [e]. *)
Definition bind_in (e : senvironment) (c : N) (v : snode) : M unit :=
  fun s =>
    match envs s !! e with
    | Some f =>
        Ok (tt, with_envs (<[e := mkEnvironment (<[c := v]> (env f))
                                    (outer f)]> (envs s)) s)
    | None => Crash Undefined
    end.

(** [environment::set(k, v)]: write into this frame, return the value. *)
Definition set (e : senvironment) (k v : snode) : M snode :=
  kn <- deref k ;;
  bind_in e (code kn) v ;;;
  ret v.

(** ** Monadic iteration over vectors *)

Fixpoint mapM {A B : Type} (f : A -> M B) (l : list A) : M (list B) :=
  match l with
  | [] => ret []
  | x :: r => y <- f x ;; ys <- mapM f r ;; ret (y :: ys)
  end.

Fixpoint concat_mapM {A B : Type} (f : A -> M (list B)) (l : list A)
  : M (list B) :=
  match l with
  | [] => ret []
  | x :: r => y <- f x ;; ys <- concat_mapM f r ;; ret (y ++ ys)%list
  end.

Fixpoint iterM {A : Type} (f : A -> M unit) (l : list A) : M unit :=
  match l with
  | [] => ret tt
  | x :: r => f x ;;; iterM f r
  end.

(** ** Reader *)

Module Parser.

(** [tok[0] < 0]: [char] is signed. *)
Definition negative_first (tok : string) : bool :=
  match tok with
  | String c _ => (128 <=? nat_of_ascii c)%nat
  | EmptyString => false
  end.

(** [tok.at(i)] on a string. *)
Definition char_at (tok : string) (i : nat) : M ascii :=
  match String.get i tok with
  | Some c => ret c
  | None => crash OutOfRange
  end.

Fixpoint contains (c : ascii) (tok : string) : bool :=
  match tok with
  | String c' r => (c =? c')%char || contains c r
  | EmptyString => false
  end.

Definition is_number (tok : string) (c0 : ascii) : M bool :=
  if isdigit c0 then ret true
  else if (c0 =? "-")%char && (2 <=? String.length tok)%nat then
    c1 <- char_at tok 1 ;; ret (isdigit c1)
  else ret false.

(** [Parser::parse]; the result is the vector read and the position the
    loop stopped at. Every step moves [pos] forward. *)
Fixpoint parse (fuel : nat) (tokens : list string) (pos : nat)
  (acc : list snode) : M (list snode * nat) :=
  match fuel with
  | O => crash OutOfFuel
  | S fuel' =>
      match tokens !! pos with
      | None => ret (acc, pos)
      | Some tok =>
          if negative_first tok then ret (acc, pos)
          else
            c0 <- char_at tok 0 ;;
            if (c0 =? dquote)%char then
              n <- make_shared (Node_string (substring 1 (String.length tok - 1) tok)) ;;
              parse fuel' tokens (S pos) (acc ++ [n])
            else if String.eqb tok "(" then
              r <- parse fuel' tokens (S pos) [] ;;
              n <- make_shared (Node_list (fst r)) ;;
              parse fuel' tokens (S (snd r)) (acc ++ [n])
            else if String.eqb tok ")" then ret (acc, pos)
            else
              num <- is_number tok c0 ;;
              if num then
                n <- make_shared
                       (if contains "." tok || contains "e" tok
                        then Node_double (atof tok)
                        else Node_int (atoi tok)) ;;
                parse fuel' tokens (S pos) (acc ++ [n])
              else
                c <- ToCode tok ;;
                n <- make_shared
                       (mkNode T_SYMBOL (Z.of_N c) tok [] None) ;;
                parse fuel' tokens (S pos) (acc ++ [n])
      end
  end.

End Parser.

Definition parse (s : string) : M (list snode) :=
  tokens <- lift (tokenize s) ;;
  r <- Parser.parse (length tokens + 2) tokens 0 [] ;;
  ret (fst r).

(** ** Macro expander and compile pass *)

Definition ellipsis : string := "...".

(** One step of the loop of [apply_macro] over the elements of a list
    body: the element named [...] is replaced by the elements of the list
    bound to it, any other element by its own substitution. *)
Definition apply_macro_element (recur : snode -> M snode)
  (vars : gmap string snode) (e : snode) : M (list snode) :=
  en <- deref e ;;
  if String.eqb (v_string en) ellipsis then
    match vars !! v_string en with
    | Some vargs => vn <- deref vargs ;; ret (v_list vn)
    | None => crash Undefined
    end
  else x <- recur e ;; ret [x].

(** [apply_macro]: substitute the macro variables in a macro body. *)
Fixpoint apply_macro (fuel : nat) (body : snode) (vars : gmap string snode)
  : M snode :=
  match fuel with
  | O => crash OutOfFuel
  | S fuel' =>
      b <- deref body ;;
      if decide (type b = T_LIST) then
        r <- concat_mapM
               (apply_macro_element (fun e => apply_macro fuel' e vars) vars)
               (v_list b) ;;
        make_shared (Node_list r)
      else
        match vars !! v_string b with
        | Some v => ret v
        | None => ret body
        end
  end.

(** The loop of [macroexpand] that binds the macro's parameters to the
    argument forms of the call [nList]. *)
Fixpoint bind_macrovars (argsyms : list snode) (i : nat)
  (nList : list snode) (macrovars : gmap string snode)
  : M (gmap string snode) :=
  match argsyms with
  | [] => ret macrovars
  | a :: rest =>
      an <- deref a ;;
      let argsym := v_string an in
      if String.eqb argsym ellipsis then
        n2 <- make_shared (Node_list (drop (S i) nList)) ;;
        ret (<[argsym := n2]> macrovars)
      else
        x <- at_ nList (S i) ;;
        bind_macrovars rest (S i) nList (<[argsym := x]> macrovars)
  end.

Definition macroexpand (fuel : nat) (n : snode) : M snode :=
  nd <- deref n ;;
  let nList := v_list nd in
  h <- index nList 0 ;;
  hn <- deref h ;;
  table <- gets macros ;;
  match table !! v_string hn with
  | Some macro =>
      m0 <- index macro 0 ;;
      m0n <- deref m0 ;;
      macrovars <- bind_macrovars (v_list m0n) 0 nList ∅ ;;
      m1 <- index macro 1 ;;
      apply_macro fuel m1 macrovars
  | None => ret n
  end.

Definition is_symbol (name : string) (n : Node) : bool :=
  bool_decide (type n = T_SYMBOL) && String.eqb (v_string n) name.

(** The [defmacro] branch of [compile]: (defmacro add (a b) (+ a b))
    records the parameter list and the body under the macro's name. *)
Definition define_macro (n : snode) : M snode :=
  nd <- deref n ;;
  a2 <- index (v_list nd) 2 ;;
  a3 <- index (v_list nd) 3 ;;
  a1 <- index (v_list nd) 1 ;;
  n1 <- deref a1 ;;
  modify (fun s =>
    with_macros (<[v_string n1 := [a2; a3]]> (macros s)) s) ;;;
  ret node_nil.

Fixpoint compile (fuel : nat) (n : snode) : M snode :=
  match fuel with
  | O => crash OutOfFuel
  | S fuel' =>
      nd <- deref n ;;
      if decide (type nd = T_LIST) then
        match v_list nd with
        | [] => ret n
        | h :: _ =>
            func <- compile fuel' h ;;
            fd <- deref func ;;
            if is_symbol "defmacro" fd then define_macro n
            else if is_symbol "quote" fd then ret n
            else
              table <- gets macros ;;
              match table !! v_string fd with
              | Some _ =>
                  expanded <- macroexpand fuel' n ;;
                  compile fuel' expanded
              | None =>
                  nd <- deref n ;;
                  r <- mapM (compile fuel') (v_list nd) ;;
                  make_shared (Node_list r)
              end
        end
      else ret n
  end.

Definition compile_all (fuel : nat) (lst : list snode) : M (list snode) :=
  mapM (compile fuel) lst.

(** ** Conversions and printing *)

Definition to_int (n : Node) : Z :=
  match type n with
  | T_INT => v_int n
  | T_DOUBLE => int_of_double (v_double n)
  | T_BOOL => Z.b2z (v_bool n)
  | T_STRING => atoi (v_string n)
  | _ => 0
  end.

Definition to_double (n : Node) : double :=
  match type n with
  | T_INT => double_of_int (v_int n)
  | T_DOUBLE => v_double n
  | T_BOOL => double_of_int (Z.b2z (v_bool n))
  | T_STRING => atof (v_string n)
  | _ => S754_zero false
  end.

Definition type_str (n : Node) : string :=
  match type n with
  | T_NIL => "nil"
  | T_INT => "int"
  | T_DOUBLE => "double"
  | T_BOOL => "bool"
  | T_STRING => "std::string"
  | T_SYMBOL => "symbol"
  | T_LIST => "list"
  | T_BUILTIN => "builtin"
  | T_SPECIAL => "special"
  | T_FN => "fn"
  | T_THREAD => "std::thread"
  end.

Definition hex_digit (d : Z) : ascii :=
  ascii_of_nat (Z.to_nat (if d <? 10 then 48 + d else 87 + d)).

Fixpoint hex_digits (k : nat) (z : Z) (acc : string) : string :=
  match k with
  | O => acc
  | S k' =>
      let acc := String (hex_digit (z mod 16)) acc in
      if z / 16 =? 0 then acc else hex_digits k' (z / 16) acc
  end.

(** [%p] as the C library of the supported targets prints it. *)
Definition format_pointer (p : Z) : string :=
  if p =? 0 then "(nil)" else "0x" +:+ hex_digits 16 p EmptyString.

Fixpoint join_with (sep : string) (l : list string) : string :=
  match l with
  | [] => EmptyString
  | [x] => x
  | x :: r => x +:+ sep +:+ join_with sep r
  end.

Fixpoint mapR {A B : Type} (f : A -> result B) (l : list A)
  : result (list B) :=
  match l with
  | [] => Ok []
  | x :: r => rbind (f x) (fun y => rbind (mapR f r) (fun ys => Ok (y :: ys)))
  end.

(** [Node::to_string]. The recursion follows the elements of a list; the
    [%.16g] rendering of a double is left to the C library. *)
Fixpoint to_string (fuel : nat) (h : list Node) (n : Node) : result string :=
  match fuel with
  | O => Crash OutOfFuel
  | S fuel' =>
      match type n with
      | T_NIL => Ok EmptyString
      | T_INT => Ok (pretty (v_int n))
      | T_BUILTIN | T_SPECIAL =>
          Ok ("#<builtin:" +:+ format_pointer (u n) +:+ ">")
      | T_DOUBLE => Crash Unmodelled
      | T_BOOL => Ok (if v_bool n then "true" else "false")
      | T_STRING | T_SYMBOL => Ok (v_string n)
      | T_FN | T_LIST =>
          rbind (mapR (fun a =>
                         match h !! a with
                         | Some e => to_string fuel' h e
                         | None => Crash Undefined
                         end) (v_list n))
            (fun parts => Ok ("(" +:+ join_with " " parts +:+ ")"))
      | T_THREAD => Ok EmptyString
      end
  end.

Definition str_with_type (fuel : nat) (h : list Node) (n : Node)
  : result string :=
  rbind (to_string fuel h n) (fun s => Ok (s +:+ " : " +:+ type_str n)).

(** [floor] and [ceil] of the C library. *)
Definition dfloor (d : double) : double :=
  match d with
  | S754_finite sg m e =>
      if 0 <=? e then d
      else
        let z := (if sg then - Z.pos m else Z.pos m) / 2 ^ (- e) in
        if z =? 0 then S754_zero sg else double_of_int z
  | _ => d
  end.

Definition dceil (d : double) : double := SFopp (dfloor (SFopp d)).

(** ** Evaluator and builtins

    [eval], [apply] and the host functions call each other. They are
    written here against the two entry points [eval] and [apply], which
    the definitions after this section close into a recursion on the
    remaining depth; [gas] bounds the iterations of the loops whose length
    the interpreted program controls. *)

Section Kernel.

Variable gas : nat.
Variable eval : snode -> senvironment -> M snode.
Variable apply : snode -> list snode -> senvironment -> M snode.

(** [raw_args[i]], where [raw_args] is a reference to the vector of the
    form [n] being evaluated. *)
Definition raw_arg (n : snode) (i : nat) : M snode :=
  nd <- deref n ;; index (v_list nd) i.

Definition raw_size (n : snode) : M nat :=
  nd <- deref n ;; ret (length (v_list nd)).

(** [std::make_shared<Node>] of the pointee of [p]: a fresh copy. *)
Definition clone (p : snode) : M snode :=
  pn <- deref p ;; make_shared pn.

Definition printf (text : string) : M unit :=
  modify (fun s => with_stdout (stdout s +:+ text) s).

Definition string_of (a : snode) : M string :=
  an <- deref a ;;
  h <- gets heap ;;
  lift (to_string gas h an).

(** (def SYMBOL VALUE) ; set in the current environment *)
Definition special_def (n : snode) (env : senvironment) : M snode :=
  a2 <- raw_arg n 2 ;;
  v <- eval a2 env ;;
  value <- clone v ;;
  a1 <- raw_arg n 1 ;;
  set env a1 value.

(** (if CONDITION THEN_EXPR {ELSE_EXPR}) *)
Definition special_if (n : snode) (env : senvironment) : M snode :=
  cond <- raw_arg n 1 ;;
  c <- eval cond env ;;
  cn <- deref c ;;
  if v_bool cn then
    a2 <- raw_arg n 2 ;; eval a2 env
  else
    size <- raw_size n ;;
    if (size <? 4)%nat then ret node_nil
    else a3 <- raw_arg n 3 ;; eval a3 env.

(** (set SYMBOL-OR-PLACE VALUE) *)
Definition special_set (n : snode) (env : senvironment) : M snode :=
  a1 <- raw_arg n 1 ;;
  var <- eval a1 env ;;
  a2 <- raw_arg n 2 ;;
  v <- eval a2 env ;;
  value <- clone v ;;
  a1 <- raw_arg n 1 ;;
  a1n <- deref a1 ;;
  if bool_decide (type a1n = T_SYMBOL) && bool_decide (var = node_nil) then
    set env a1 value
  else
    vn <- deref value ;;
    assign var vn ;;;
    ret var.

(** (fn (ARGUMENT ..) BODY) => lexical closure *)
Definition special_fn (n : snode) (env : senvironment) : M snode :=
  nd <- deref n ;;
  n2 <- make_shared (Node_list (v_list nd)) ;;
  outer_env <- new_environment (Some env) ;;
  n2n <- deref n2 ;;
  assign n2 (with_outer_env (Some outer_env) (with_type T_FN n2n)) ;;;
  ret n2.

(** (begin X ..) *)
Definition special_begin (n : snode) (env : senvironment) : M snode :=
  size <- raw_size n ;;
  let last := (size - 1)%nat in
  if (last <=? 0)%nat then ret node_nil
  else
    iterM (fun i => a <- raw_arg n i ;; eval a env ;;; ret tt)
          (seq 1 (last - 1)) ;;;
    a <- raw_arg n last ;;
    eval a env.

(** (while CONDITION EXPR ..) *)
Fixpoint while_loop (k : nat) (n : snode) (len : nat) (env : senvironment)
  : M snode :=
  match k with
  | O => crash OutOfFuel
  | S k' =>
      cond <- raw_arg n 1 ;;
      c <- eval cond env ;;
      cn <- deref c ;;
      if v_bool cn then
        iterM (fun i => a <- raw_arg n i ;; eval a env ;;; ret tt)
              (seq 2 (len - 2)) ;;;
        while_loop k' n len env
      else ret node_nil
  end.

Definition special_while (n : snode) (env : senvironment) : M snode :=
  len <- raw_size n ;;
  while_loop gas n len env.

(** (quote X) *)
Definition special_quote (n : snode) (env : senvironment) : M snode :=
  raw_arg n 1.

(** (&& X ..) short-circuit *)
Fixpoint andand_loop (l : list snode) (env : senvironment) : M snode :=
  match l with
  | [] => ret node_true
  | a :: r =>
      c <- eval a env ;;
      cn <- deref c ;;
      if negb (v_bool cn) then ret node_false else andand_loop r env
  end.

Definition special_andand (n : snode) (env : senvironment) : M snode :=
  nd <- deref n ;; andand_loop (tail (v_list nd)) env.

(** (|| X ..) short-circuit *)
Fixpoint oror_loop (l : list snode) (env : senvironment) : M snode :=
  match l with
  | [] => ret node_false
  | a :: r =>
      c <- eval a env ;;
      cn <- deref c ;;
      if v_bool cn then ret node_true else oror_loop r env
  end.

Definition special_oror (n : snode) (env : senvironment) : M snode :=
  nd <- deref n ;; oror_loop (tail (v_list nd)) env.

(** Integer division and remainder of C++: truncation toward zero; a zero
    divisor and [INT_MIN / -1] are undefined (a trap on the supported
    targets). *)
Definition int_div (a b : Z) : result Z :=
  if (b =? 0) || ((a =? INT_MIN) && (b =? -1)) then Crash DivisionByZero
  else Ok (Z.quot a b).

Definition int_rem (a b : Z) : result Z :=
  if (b =? 0) || ((a =? INT_MIN) && (b =? -1)) then Crash DivisionByZero
  else Ok (Z.rem a b).

(** The two accumulation loops shared by the arithmetic builtins. *)
Fixpoint fold_int (op : Z -> Z -> result Z) (sum : Z) (l : list snode)
  : M Z :=
  match l with
  | [] => ret sum
  | a :: r =>
      an <- deref a ;;
      sum' <- lift (op sum (to_int an)) ;;
      fold_int op sum' r
  end.

Fixpoint fold_double (op : double -> double -> double) (sum : double)
  (l : list snode) : M double :=
  match l with
  | [] => ret sum
  | a :: r =>
      an <- deref a ;;
      fold_double op (op sum (to_double an)) r
  end.

(** The common shape of [builtin_plus], [builtin_minus], [builtin_mul]
    and [builtin_div]: the identity for no operand; otherwise the mode is
    chosen by the type of the first operand, whose [v_int] or [v_double]
    member seeds the accumulation. *)
Definition arith (identity : snode) (iop : Z -> Z -> result Z)
  (dop : double -> double -> double) (args : list snode) : M snode :=
  match args with
  | [] => ret identity
  | first :: rest =>
      fn <- deref first ;;
      if decide (type fn = T_INT) then
        sum <- fold_int iop (v_int fn) rest ;;
        make_shared (Node_int sum)
      else
        sum <- fold_double dop (v_double fn) rest ;;
        make_shared (Node_double sum)
  end.

(** (+ X ..) *)
Definition builtin_plus (args : list snode) (env : senvironment) : M snode :=
  arith node_0 (fun a b => Ok (wrap32 (a + b))) dadd args.

(** (- X ..) *)
Definition builtin_minus (args : list snode) (env : senvironment) : M snode :=
  arith node_0 (fun a b => Ok (wrap32 (a - b))) dsub args.

(** ( * X ..) *)
Definition builtin_mul (args : list snode) (env : senvironment) : M snode :=
  arith node_1 (fun a b => Ok (wrap32 (a * b))) dmul args.

(** (/ X ..) *)
Definition builtin_div (args : list snode) (env : senvironment) : M snode :=
  arith node_1 int_div ddiv args.

(** (< X Y) *)
Definition builtin_lt (args : list snode) (env : senvironment) : M snode :=
  a0 <- index args 0 ;;
  x <- deref a0 ;;
  a1 <- index args 1 ;;
  y <- deref a1 ;;
  if decide (type x = T_INT) then
    make_shared (Node_bool (v_int x <? to_int y))
  else make_shared (Node_bool (dlt (v_double x) (to_double y))).

(** (% DIVIDEND DIVISOR) *)
Definition builtin_percent (args : list snode) (env : senvironment)
  : M snode :=
  a0 <- index args 0 ;;
  x <- deref a0 ;;
  a1 <- index args 1 ;;
  y <- deref a1 ;;
  r <- lift (int_rem (to_int x) (to_int y)) ;;
  make_shared (Node_int r).

(** (sqrt X) *)
Definition builtin_sqrt (args : list snode) (env : senvironment) : M snode :=
  a0 <- index args 0 ;;
  x <- deref a0 ;;
  make_shared (Node_double (SFsqrt prec emax (to_double x))).

(** (++ X) and (-- X): in place *)
Definition step_in_place (d : Z) (args : list snode) : M snode :=
  match args with
  | [] => make_shared (Node_int 0)
  | first :: _ =>
      fn <- deref first ;;
      assign first
        (if decide (type fn = T_INT) then set_v_int (wrap32 (v_int fn + d)) fn
         else set_v_double (dadd (v_double fn) (double_of_int d)) fn) ;;;
      ret first
  end.

Definition builtin_plusplus (args : list snode) (env : senvironment)
  : M snode := step_in_place 1 args.

Definition builtin_minusminus (args : list snode) (env : senvironment)
  : M snode := step_in_place (-1) args.

(** (floor X), (ceil X) *)
Definition builtin_floor (args : list snode) (env : senvironment) : M snode :=
  a0 <- index args 0 ;;
  x <- deref a0 ;;
  make_shared (Node_double (dfloor (to_double x))).

Definition builtin_ceil (args : list snode) (env : senvironment) : M snode :=
  a0 <- index args 0 ;;
  x <- deref a0 ;;
  make_shared (Node_double (dceil (to_double x))).

(** (== X ..) short-circuit *)
Fixpoint all_equal {A : Type} (conv : Node -> A) (neq : A -> A -> bool)
  (firstv : A) (l : list snode) : M snode :=
  match l with
  | [] => ret node_true
  | a :: r =>
      an <- deref a ;;
      if neq (conv an) firstv then ret node_false
      else all_equal conv neq firstv r
  end.

Definition builtin_eqeq (args : list snode) (env : senvironment) : M snode :=
  first <- index args 0 ;;
  fn <- deref first ;;
  if decide (type fn = T_INT) then
    all_equal to_int (fun a b => negb (a =? b)) (v_int fn) (tail args)
  else
    all_equal to_double (fun a b => negb (deq a b)) (v_double fn)
      (tail args).

(** (! X) *)
Definition builtin_not (args : list snode) (env : senvironment) : M snode :=
  a0 <- index args 0 ;;
  x <- deref a0 ;;
  make_shared (Node_bool (negb (v_bool x))).

(** (strlen X) *)
Definition builtin_strlen (args : list snode) (env : senvironment)
  : M snode :=
  a0 <- index args 0 ;;
  x <- deref a0 ;;
  make_shared (Node_int (wrap32 (Z.of_nat (String.length (v_string x))))).

(** (string X ..) *)
Definition builtin_string (args : list snode) (env : senvironment)
  : M snode :=
  if (length args <=? 1)%nat then make_shared (Node_string EmptyString)
  else
    parts <- mapM string_of args ;;
    make_shared (Node_string (join_with EmptyString parts)).

(** [(int) c] for a [char]: [char] is signed. *)
Definition int_of_char (c : ascii) : Z :=
  let n := Z.of_nat (nat_of_ascii c) in if n <? 128 then n else n - 256.

(** (char-at X I): the byte as an [int]. [v_string[i]] is unchecked; at
    [i = size] it is the terminating zero. *)
Definition builtin_char_at (args : list snode) (env : senvironment)
  : M snode :=
  a1 <- index args 1 ;;
  y <- deref a1 ;;
  let i := to_int y in
  if i <? 0 then crash Undefined
  else
    a0 <- index args 0 ;;
    x <- deref a0 ;;
    match String.get (Z.to_nat i) (v_string x) with
    | Some c => make_shared (Node_int (int_of_char c))
    | None =>
        if i =? Z.of_nat (String.length (v_string x))
        then make_shared (Node_int 0)
        else crash Undefined
    end.

(** (chr X): built from a C string, so code 0 gives the empty string. *)
Definition builtin_chr (args : list snode) (env : senvironment) : M snode :=
  a0 <- index args 0 ;;
  x <- deref a0 ;;
  let c := (to_int x) mod 256 in
  make_shared (Node_string
    (if c =? 0 then EmptyString
     else String (ascii_of_nat (Z.to_nat c)) EmptyString)).

(** (double X), (int X) *)
Definition builtin_double (args : list snode) (env : senvironment)
  : M snode :=
  a0 <- index args 0 ;;
  x <- deref a0 ;;
  make_shared (Node_double (to_double x)).

Definition builtin_int (args : list snode) (env : senvironment) : M snode :=
  a0 <- index args 0 ;;
  x <- deref a0 ;;
  make_shared (Node_int (to_int x)).

(** (read-string X) *)
Definition builtin_read_string (args : list snode) (env : senvironment)
  : M snode :=
  a0 <- index args 0 ;;
  text <- string_of a0 ;;
  forms <- parse text ;;
  index forms 0.

(** (type X) *)
Definition builtin_type (args : list snode) (env : senvironment) : M snode :=
  a0 <- index args 0 ;;
  x <- deref a0 ;;
  make_shared (Node_string (type_str x)).

(** (eval X) *)
Definition builtin_eval (args : list snode) (env : senvironment) : M snode :=
  a0 <- index args 0 ;;
  eval a0 env.

(** (list X ..) *)
Definition builtin_list (args : list snode) (env : senvironment) : M snode :=
  make_shared (Node_list args).

(** (apply FUNC LIST) *)
Definition builtin_apply (args : list snode) (env : senvironment)
  : M snode :=
  func <- index args 0 ;;
  a1 <- index args 1 ;;
  ln <- deref a1 ;;
  apply func (v_list ln) env.

(** (fold FUNC LIST) *)
Fixpoint fold_loop (k : nat) (f lst : snode) (i : nat) (acc : snode)
  (env : senvironment) : M snode :=
  match k with
  | O => crash OutOfFuel
  | S k' =>
      ln <- deref lst ;;
      if (i <? length (v_list ln))%nat then
        x <- at_ (v_list ln) i ;;
        acc' <- apply f [acc; x] env ;;
        fold_loop k' f lst (S i) acc' env
      else ret acc
  end.

Definition builtin_fold (args : list snode) (env : senvironment) : M snode :=
  f <- index args 0 ;;
  lst <- index args 1 ;;
  ln <- deref lst ;;
  acc <- index (v_list ln) 0 ;;
  fold_loop gas f lst 1 acc env.

(** (map FUNC LIST) *)
Definition builtin_map (args : list snode) (env : senvironment) : M snode :=
  f <- index args 0 ;;
  lst <- index args 1 ;;
  ln <- deref lst ;;
  let len := length (v_list ln) in
  acc <- mapM (fun i =>
                 ln <- deref lst ;;
                 x <- index (v_list ln) i ;;
                 apply f [x] env)
              (seq 0 len) ;;
  make_shared (Node_list acc).

(** (filter FUNC LIST) *)
Fixpoint filter_loop (k : nat) (f lst : snode) (i : nat) (acc : list snode)
  (env : senvironment) : M (list snode) :=
  match k with
  | O => crash OutOfFuel
  | S k' =>
      ln <- deref lst ;;
      if (i <? length (v_list ln))%nat then
        item <- at_ (v_list ln) i ;;
        r <- apply f [item] env ;;
        rn <- deref r ;;
        filter_loop k' f lst (S i)
          (if v_bool rn then (acc ++ [item])%list else acc) env
      else ret acc
  end.

Definition builtin_filter (args : list snode) (env : senvironment)
  : M snode :=
  f <- index args 0 ;;
  lst <- index args 1 ;;
  acc <- filter_loop gas f lst 0 [] env ;;
  make_shared (Node_list acc).

(** (push-back! LIST ITEM) ; destructive *)
Definition builtin_push_backd (args : list snode) (env : senvironment)
  : M snode :=
  a0 <- index args 0 ;;
  a1 <- index args 1 ;;
  item <- clone a1 ;;
  ln <- deref a0 ;;
  assign a0 (with_v_list (v_list ln ++ [item])%list ln) ;;;
  ret a0.

(** (pop-back! LIST) ; destructive. [back] and [pop_back] on an empty
    vector are undefined. *)
Definition builtin_pop_backd (args : list snode) (env : senvironment)
  : M snode :=
  a0 <- index args 0 ;;
  ln <- deref a0 ;;
  match last (v_list ln) with
  | Some n =>
      assign a0 (with_v_list (removelast (v_list ln)) ln) ;;;
      ret n
  | None => crash Undefined
  end.

(** (nth INDEX LIST) *)
Definition builtin_nth (args : list snode) (env : senvironment) : M snode :=
  a0 <- index args 0 ;;
  x <- deref a0 ;;
  let i := to_int x in
  if i <? 0 then crash Undefined
  else
    a1 <- index args 1 ;;
    ln <- deref a1 ;;
    index (v_list ln) (Z.to_nat i).

(** (length LIST) *)
Definition builtin_length (args : list snode) (env : senvironment)
  : M snode :=
  a0 <- index args 0 ;;
  ln <- deref a0 ;;
  make_shared (Node_int (wrap32 (Z.of_nat (length (v_list ln))))).

(** (pr X ..), (prn X ..) *)
Definition builtin_pr (args : list snode) (env : senvironment) : M snode :=
  iterM (fun '(i, a) =>
           (if (0 <? i)%nat then printf " " else ret tt) ;;;
           text <- string_of a ;;
           printf text)
        (imap pair args) ;;;
  ret node_nil.

Definition newline : string := String "010"%char EmptyString.

Definition builtin_prn (args : list snode) (env : senvironment) : M snode :=
  builtin_pr args env ;;;
  printf newline ;;;
  ret node_nil.

(** (cons X LST): a new list where x is the first element and lst is the
    rest *)
Definition builtin_cons (args : list snode) (env : senvironment) : M snode :=
  x <- index args 0 ;;
  lst <- index args 1 ;;
  ln <- deref lst ;;
  make_shared (Node_list (x :: v_list ln)).

(** A builtin node invokes the function its [v_builtin] points to. The
    functions that reach outside the kernel (the C library's [pow], [log],
    [log10] and [rand], [exit], [system], the files and standard input,
    threads) are not modelled; the special forms take a reference to the
    vector of a form and are never stored in a builtin node, except
    [special_thread], which [init] registers as a builtin. *)
Definition call_builtin (f : builtin) (args : list snode)
  (env : senvironment) : M snode :=
  match f with
  | Fn.builtin_eval => builtin_eval args env
  | Fn.builtin_plus => builtin_plus args env
  | Fn.builtin_minus => builtin_minus args env
  | Fn.builtin_mul => builtin_mul args env
  | Fn.builtin_div => builtin_div args env
  | Fn.builtin_lt => builtin_lt args env
  | Fn.builtin_percent => builtin_percent args env
  | Fn.builtin_sqrt => builtin_sqrt args env
  | Fn.builtin_plusplus => builtin_plusplus args env
  | Fn.builtin_minusminus => builtin_minusminus args env
  | Fn.builtin_floor => builtin_floor args env
  | Fn.builtin_ceil => builtin_ceil args env
  | Fn.builtin_eqeq => builtin_eqeq args env
  | Fn.builtin_not => builtin_not args env
  | Fn.builtin_strlen => builtin_strlen args env
  | Fn.builtin_char_at => builtin_char_at args env
  | Fn.builtin_chr => builtin_chr args env
  | Fn.builtin_int => builtin_int args env
  | Fn.builtin_double => builtin_double args env
  | Fn.builtin_string => builtin_string args env
  | Fn.builtin_read_string => builtin_read_string args env
  | Fn.builtin_type => builtin_type args env
  | Fn.builtin_list => builtin_list args env
  | Fn.builtin_apply => builtin_apply args env
  | Fn.builtin_fold => builtin_fold args env
  | Fn.builtin_map => builtin_map args env
  | Fn.builtin_filter => builtin_filter args env
  | Fn.builtin_push_backd => builtin_push_backd args env
  | Fn.builtin_pop_backd => builtin_pop_backd args env
  | Fn.builtin_nth => builtin_nth args env
  | Fn.builtin_length => builtin_length args env
  | Fn.builtin_pr => builtin_pr args env
  | Fn.builtin_prn => builtin_prn args env
  | Fn.builtin_cons => builtin_cons args env
  | Fn.builtin_caret | Fn.builtin_ln | Fn.builtin_log10 | Fn.builtin_rand
  | Fn.builtin_exit | Fn.builtin_system | Fn.builtin_read_line
  | Fn.builtin_slurp | Fn.builtin_spit | Fn.builtin_join
  | Fn.builtin_import | Fn.special_thread => crash Unmodelled
  | Fn.special_def | Fn.special_set | Fn.special_if | Fn.special_fn
  | Fn.special_begin | Fn.special_while | Fn.special_quote
  | Fn.special_andand | Fn.special_oror => crash Undefined
  end.

(** A special node invokes its function on the vector of the form. *)
Definition call_special (f : builtin) (n : snode) (env : senvironment)
  : M snode :=
  match f with
  | Fn.special_def => special_def n env
  | Fn.special_set => special_set n env
  | Fn.special_if => special_if n env
  | Fn.special_fn => special_fn n env
  | Fn.special_begin => special_begin n env
  | Fn.special_while => special_while n env
  | Fn.special_quote => special_quote n env
  | Fn.special_andand => special_andand n env
  | Fn.special_oror => special_oror n env
  | Fn.special_thread => crash Unmodelled
  | _ => nd <- deref n ;; call_builtin f (v_list nd) env
  end.

(** The body of [eval]. *)
Definition eval_body (n : snode) (env : senvironment) : M snode :=
  nd <- deref n ;;
  match type nd with
  | T_SYMBOL => s <- gets id ;; ret (get s env (code nd))
  | T_LIST =>
      match v_list nd with
      | [] => ret node_nil
      | h :: _ =>
          func <- eval h env ;;
          fd <- deref func ;;
          match type fd with
          | T_SPECIAL =>
              match v_builtin fd with
              | Some f => call_special f n env
              | None => crash Undefined
              end
          | T_BUILTIN | T_FN =>
              let env2 := outer_env fd in
              nd <- deref n ;;
              args <- mapM (fun a => eval a env) (tail (v_list nd)) ;;
              senv2 <- new_environment env2 ;;
              apply func args senv2
          | _ => ret node_nil
          end
      end
  | _ => ret n
  end.

(** The two loops of [apply] on a user function: "assign arguments" binds
    the parameters in the local frame, "body" evaluates the body forms
    there. *)
Definition bind_parameters (arg_syms args : list snode)
  (local_env : senvironment) : M unit :=
  iterM (fun '(i, k) =>
           kn <- deref k ;;
           a <- index args i ;;
           bind_in local_env (code kn) a)
        (imap pair arg_syms).

Definition run_body (func : snode) (local_env : senvironment) : M snode :=
  size <- raw_size func ;;
  let last := (size - 1)%nat in
  if (last <? 2)%nat then ret node_nil
  else
    iterM (fun i =>
             fd <- deref func ;;
             b <- at_ (v_list fd) i ;;
             eval b local_env ;;;
             ret tt)
          (seq 2 (last - 2)) ;;;
    b <- raw_arg func last ;;
    eval b local_env.

(** The body of [apply]. *)
Definition apply_body (func : snode) (args : list snode)
  (env : senvironment) : M snode :=
  fd <- deref func ;;
  if decide (type fd = T_BUILTIN) then
    match v_builtin fd with
    | Some f => call_builtin f args env
    | None => crash Undefined
    end
  else if decide (type fd = T_FN) then
    p <- index (v_list fd) 1 ;;
    pn <- deref p ;;
    local_env <- new_environment (outer_env fd) ;;
    bind_parameters (v_list pn) args local_env ;;;
    run_body func local_env
  else ret node_nil.

End Kernel.

(** [eval] and [apply]: the recursion is on the remaining depth. *)
Fixpoint eval (fuel : nat) (n : snode) (env : senvironment) {struct fuel}
  : M snode :=
  match fuel with
  | O => crash OutOfFuel
  | S k => eval_body k (eval k) (apply k) n env
  end
with apply (fuel : nat) (func : snode) (args : list snode)
  (env : senvironment) {struct fuel} : M snode :=
  match fuel with
  | O => crash OutOfFuel
  | S k => apply_body k (eval k) (apply k) func args env
  end.

(** ** Top level *)

Definition eval_all (fuel : nat) (lst : list snode) : M snode :=
  match lst with
  | [] => ret node_nil
  | _ =>
      g <- gets global_env ;;
      match g with
      | None => crash Undefined
      | Some genv =>
          iterM (fun a => eval fuel a genv ;;; ret tt) (removelast lst) ;;;
          match last lst with
          | Some a => eval fuel a genv
          | None => ret node_nil
          end
      end
  end.

Definition eval_string (fuel : nat) (s : string) : M snode :=
  vec <- parse s ;;
  compiled <- compile_all fuel vec ;;
  eval_all fuel compiled.

(** [eval_print]: evaluate and print the value with its type. *)
Definition eval_print (fuel : nat) (s : string) : M unit :=
  r <- eval_string fuel s ;;
  rn <- deref r ;;
  h <- gets heap ;;
  text <- lift (str_with_type fuel h rn) ;;
  printf (text +:+ newline).

(** [global_env->env[ToCode(name)] = value]. *)
Definition define (name : string) (value : M snode) : M unit :=
  v <- value ;;
  c <- ToCode name ;;
  g <- gets global_env ;;
  match g with
  | Some genv => bind_in genv c v
  | None => crash Undefined
  end.

(** The bindings [init] installs, in order. *)
Definition predefined : list (string * M snode) :=
  [ ("true", make_shared (Node_bool true));
    ("false", make_shared (Node_bool false));
    ("E", make_shared (Node_double (atof "2.71828182845904523536")));
    ("PI", make_shared (Node_double (atof "3.14159265358979323846")));
    ("def", make_special Fn.special_def);
    ("set", make_special Fn.special_set);
    ("if", make_special Fn.special_if);
    ("fn", make_special Fn.special_fn);
    ("begin", make_special Fn.special_begin);
    ("while", make_special Fn.special_while);
    ("quote", make_special Fn.special_quote);
    ("&&", make_special Fn.special_andand);
    ("||", make_special Fn.special_oror);
    ("std::thread", make_shared (Node_builtin Fn.special_thread));
    ("eval", make_shared (Node_builtin Fn.builtin_eval));
    ("+", make_shared (Node_builtin Fn.builtin_plus));
    ("-", make_shared (Node_builtin Fn.builtin_minus));
    ("*", make_shared (Node_builtin Fn.builtin_mul));
    ("/", make_shared (Node_builtin Fn.builtin_div));
    ("<", make_shared (Node_builtin Fn.builtin_lt));
    ("^", make_shared (Node_builtin Fn.builtin_caret));
    ("%", make_shared (Node_builtin Fn.builtin_percent));
    ("sqrt", make_shared (Node_builtin Fn.builtin_sqrt));
    ("++", make_shared (Node_builtin Fn.builtin_plusplus));
    ("--", make_shared (Node_builtin Fn.builtin_minusminus));
    ("floor", make_shared (Node_builtin Fn.builtin_floor));
    ("ceil", make_shared (Node_builtin Fn.builtin_ceil));
    ("ln", make_shared (Node_builtin Fn.builtin_ln));
    ("log10", make_shared (Node_builtin Fn.builtin_log10));
    ("rand", make_shared (Node_builtin Fn.builtin_rand));
    ("==", make_shared (Node_builtin Fn.builtin_eqeq));
    ("<", make_shared (Node_builtin Fn.builtin_lt));
    ("!", make_shared (Node_builtin Fn.builtin_not));
    ("strlen", make_shared (Node_builtin Fn.builtin_strlen));
    ("char-at", make_shared (Node_builtin Fn.builtin_char_at));
    ("chr", make_shared (Node_builtin Fn.builtin_chr));
    ("int", make_shared (Node_builtin Fn.builtin_int));
    ("double", make_shared (Node_builtin Fn.builtin_double));
    ("std::string", make_shared (Node_builtin Fn.builtin_string));
    ("string", make_shared (Node_builtin Fn.builtin_string));
    ("read-std::string", make_shared (Node_builtin Fn.builtin_read_string));
    ("type", make_shared (Node_builtin Fn.builtin_type));
    ("list", make_shared (Node_builtin Fn.builtin_list));
    ("apply", make_shared (Node_builtin Fn.builtin_apply));
    ("fold", make_shared (Node_builtin Fn.builtin_fold));
    ("std::map", make_shared (Node_builtin Fn.builtin_map));
    ("filter", make_shared (Node_builtin Fn.builtin_filter));
    ("push-back!", make_shared (Node_builtin Fn.builtin_push_backd));
    ("pop-back!", make_shared (Node_builtin Fn.builtin_pop_backd));
    ("nth", make_shared (Node_builtin Fn.builtin_nth));
    ("length", make_shared (Node_builtin Fn.builtin_length));
    ("pr", make_shared (Node_builtin Fn.builtin_pr));
    ("prn", make_shared (Node_builtin Fn.builtin_prn));
    ("exit", make_shared (Node_builtin Fn.builtin_exit));
    ("system", make_shared (Node_builtin Fn.builtin_system));
    ("cons", make_shared (Node_builtin Fn.builtin_cons));
    ("read-line", make_shared (Node_builtin Fn.builtin_read_line));
    ("slurp", make_shared (Node_builtin Fn.builtin_slurp));
    ("spit", make_shared (Node_builtin Fn.builtin_spit));
    ("join", make_shared (Node_builtin Fn.builtin_join));
    ("import", make_shared (Node_builtin Fn.builtin_import)) ].

(** [init]. The prelude [library.paren] is read from the working
    directory; [library] is its text, or [None] when the file cannot be
    read. *)
Definition init (fuel : nat) (library : option string) : M unit :=
  genv <- new_environment None ;;
  modify (fun s => mkState (heap s) (envs s) (Some genv) (symcode s)
                     (symname s) (macros s) (stdout s)) ;;;
  iterM (fun '(name, value) => define name value) predefined ;;;
  match library with
  | Some text => eval_string fuel text ;;; ret tt
  | None => printf ("Error loading library.paren" +:+ newline)
  end.

(** [libparen::get(name)]: the global binding of a name. *)
Definition get_global (name : string) : M snode :=
  c <- ToCode name ;;
  g <- gets global_env ;;
  match g with
  | Some genv => s <- gets id ;; ret (get s genv c)
  | None => crash Undefined
  end.

(** The output of a run, for the examples below. *)
Definition output_of {A : Type} (m : M A) (s : state) : result string :=
  match m s with
  | Ok (_, s') => Ok (stdout s')
  | Crash e => Crash e
  end.

Definition kernel : result state :=
  match init 100 None start with
  | Ok (_, s) => Ok (with_stdout EmptyString s)
  | Crash e => Crash e
  end.

Definition repl_line (text : string) : result string :=
  rbind kernel (output_of (eval_print 100 text)).

(** ** Notions used to state the properties *)

(** [symname[code]]: the name a code stands for. *)
Definition name_of (s : state) (c : N) : option string :=
  symname s !! N.to_nat c.

(** Intern a sequence of names, in order. *)
Fixpoint intern_all (names : list string) (s : state) : state :=
  match names with
  | [] => s
  | n :: r =>
      match ToCode n s with
      | Ok (_, s') => intern_all r s'
      | Crash _ => s
      end
  end.

(** The distinct names of a sequence, in the order of their first
    occurrence. *)
Definition remember (seen : list string) (n : string) : list string :=
  if decide (n ∈ seen) then seen else (seen ++ [n])%list.

Definition distinct_names (names : list string) : list string :=
  foldl remember [] names.

(** The two symbol tables describe the same bijection between names and
    the codes [0 .. size - 1]. *)
Definition sym_wf (s : state) : Prop :=
  size (symcode s) = length (symname s)
  /\ forall n c, symcode s !! n = Some c <-> symname s !! N.to_nat c = Some n.

(** Frames are linked to older frames only. *)
Definition envs_wf (fs : list environment) : Prop :=
  forall e f o, fs !! e = Some f -> outer f = Some o -> (o < e)%nat.

(** [in_chain fs e e']: frame [e'] is [e] or one of the frames reached
    from [e] through the [outer] links. *)
Inductive in_chain (fs : list environment) : senvironment -> senvironment -> Prop :=
| in_chain_here e : in_chain fs e e
| in_chain_outer e f o e' :
    fs !! e = Some f -> outer f = Some o -> in_chain fs o e' ->
    in_chain fs e e'.

(** A symbol with no binding in any frame of the chain of [e]. *)
Definition unbound (fs : list environment) (e : senvironment) (c : N) : Prop :=
  forall e' f, in_chain fs e e' -> fs !! e' = Some f -> env f !! c = None.

(** The state a computation ends in, and its value. *)
Definition returns {A : Type} (m : M A) (s : state) (a : A) (s' : state)
  : Prop := m s = Ok (a, s').

(** Run a host function on freshly allocated operands in the initial
    process state, and read the node it returns. *)
Definition on_operands (f : list snode -> senvironment -> M snode)
  (operands : list Node) : result Node :=
  let s := with_heap (heap start ++ operands) start in
  let args := seq (length (heap start)) (length operands) in
  match f args 0%nat s with
  | Ok (a, s') =>
      match heap s' !! a with
      | Some n => Ok n
      | None => Crash Undefined
      end
  | Crash e => Crash e
  end.

(** What the specification says of arithmetic whose first operand is not
    an [int]: every operand, the first included, is coerced to double. *)
Definition all_coerced_to_double (dop : double -> double -> double)
  (operands : list Node) : option Node :=
  match operands with
  | [] => None
  | first :: rest =>
      Some (Node_double (foldl (fun sum n => dop sum (to_double n))
                               (to_double first) rest))
  end.

(** What the arithmetic builtins compute from the nodes of their
    operands. *)
Fixpoint int_sum (op : Z -> Z -> result Z) (sum : Z) (rest : list Node)
  : result Z :=
  match rest with
  | [] => Ok sum
  | n :: r => rbind (op sum (to_int n)) (fun sum' => int_sum op sum' r)
  end.

Definition double_sum (op : double -> double -> double) (sum : double)
  (rest : list Node) : double :=
  foldl (fun sum n => op sum (to_double n)) sum rest.

(** The process state after [init] when the prelude cannot be read. *)
Definition kernel_state : state :=
  match kernel with
  | Ok s => s
  | Crash _ => start
  end.

(** The shared constants [node_0] and [node_1] hold what static
    initialization put there. *)
Definition constants_intact (s : state) : Prop :=
  heap s !! node_0 = Some (Node_int 0) /\ heap s !! node_1 = Some (Node_int 1).

(** The node a program evaluates to in the kernel without prelude. *)
Definition value_of (text : string) : result Node :=
  rbind kernel (fun s =>
    match eval_string 100 text s with
    | Ok (a, s') =>
        match heap s' !! a with
        | Some n => Ok n
        | None => Crash Undefined
        end
    | Crash e => Crash e
    end).

(** A small process state for the examples: the special forms [def] and
    [set] bound in the global frame 0, a local frame 1 linked to it, and
    the forms [(def x 5)] at address 12 and [(set x 5)] at address 13. *)
Definition sample_state : state :=
  {| heap := heap start ++
       [ with_u (Fn.address Fn.special_def) (with_type T_SPECIAL Node_nil);
         with_u (Fn.address Fn.special_set) (with_type T_SPECIAL Node_nil);
         mkNode T_SYMBOL 0 "def" [] None;
         mkNode T_SYMBOL 1 "set" [] None;
         mkNode T_SYMBOL 2 "x" [] None;
         Node_int 5;
         Node_int 7;
         Node_list [7; 9; 10]%nat;
         Node_list [8; 9; 10]%nat ];
     envs := [ mkEnvironment {[ 0%N := 5%nat; 1%N := 6%nat ]} None;
               mkEnvironment ∅ (Some 0%nat) ];
     global_env := Some 0%nat;
     symcode := {[ "def" := 0%N; "set" := 1%N; "x" := 2%N ]};
     symname := ["def"; "set"; "x"];
     macros := ∅;
     stdout := EmptyString |}.

(** ** Forms as trees

    The compile pass reads the forms the reader produced and builds new
    ones; it never writes into an existing node. What it computes
    therefore depends only on the tree a form denotes: the node at an
    address together with, recursively, the trees of its elements. The
    functions below are the compile pass on such trees; structural
    equality of two forms in the heap is equality of the trees they
    denote. *)

#[local] Unset Elimination Schemes.
Inductive tree : Type :=
| Tree (root : Node) (kids : list tree).
#[local] Set Elimination Schemes.

Definition t_root (t : tree) : Node := match t with Tree r _ => r end.
Definition t_kids (t : tree) : list tree := match t with Tree _ k => k end.

(** The node at the root of a tree, without its vector. *)
Definition label (n : Node) : Node := with_v_list [] n.

Definition tree_list (kids : list tree) : tree := Tree (Node_list []) kids.

(** [denotes h a t]: in heap [h], address [a] holds the finite tree [t]. *)
Fixpoint denotes (h : list Node) (a : snode) (t : tree) {struct t} : Prop :=
  match t with
  | Tree root kids =>
      exists nd, h !! a = Some nd /\ label nd = root
        /\ (fix all (l : list snode) (ks : list tree) {struct ks} : Prop :=
              match l, ks with
              | [], [] => True
              | a' :: l', k :: ks' => denotes h a' k /\ all l' ks'
              | _, _ => False
              end) (v_list nd) kids
  end.

Fixpoint mapO {A B : Type} (f : A -> option B) (l : list A)
  : option (list B) :=
  match l with
  | [] => Some []
  | x :: r =>
      match f x, mapO f r with
      | Some y, Some ys => Some (y :: ys)
      | _, _ => None
      end
  end.

(** Read the tree at an address, down to a given depth. *)
Fixpoint view (depth : nat) (h : list Node) (a : snode) : option tree :=
  match depth with
  | O => None
  | S d =>
      match h !! a with
      | Some nd =>
          match mapO (view d h) (v_list nd) with
          | Some kids => Some (Tree (label nd) kids)
          | None => None
          end
      | None => None
      end
  end.

(** The macro table and a set of macro variables, as trees. *)
Definition table_denotes (h : list Node) (table : gmap string (list snode))
  (T : gmap string (list tree)) : Prop :=
  forall name, option_Forall2 (Forall2 (denotes h)) (table !! name) (T !! name).

Definition vars_denote (h : list Node) (vars : gmap string snode)
  (W : gmap string tree) : Prop :=
  forall name, option_Forall2 (denotes h) (vars !! name) (W !! name).

Definition view_table (depth : nat) (h : list Node)
  (table : gmap string (list snode)) : gmap string (list tree) :=
  omap (mapO (view depth h)) table.

Fixpoint concat_mapR {A B : Type} (f : A -> result (list B)) (l : list A)
  : result (list B) :=
  match l with
  | [] => Ok []
  | x :: r =>
      rbind (f x) (fun y => rbind (concat_mapR f r) (fun ys => Ok (y ++ ys)))
  end.

(** [apply_macro] on trees. *)
Definition apply_macro_element_t (recur : tree -> result tree)
  (W : gmap string tree) (e : tree) : result (list tree) :=
  if String.eqb (v_string (t_root e)) ellipsis then
    match W !! v_string (t_root e) with
    | Some vargs => Ok (t_kids vargs)
    | None => Crash Undefined
    end
  else rbind (recur e) (fun x => Ok [x]).

Fixpoint apply_macro_t (fuel : nat) (body : tree) (W : gmap string tree)
  : result tree :=
  match fuel with
  | O => Crash OutOfFuel
  | S fuel' =>
      if decide (type (t_root body) = T_LIST) then
        rbind (concat_mapR
                 (apply_macro_element_t (fun e => apply_macro_t fuel' e W) W)
                 (t_kids body))
          (fun r => Ok (tree_list r))
      else
        match W !! v_string (t_root body) with
        | Some v => Ok v
        | None => Ok body
        end
  end.

Fixpoint bind_macrovars_t (argsyms : list tree) (i : nat)
  (kids : list tree) (W : gmap string tree) : result (gmap string tree) :=
  match argsyms with
  | [] => Ok W
  | a :: rest =>
      let argsym := v_string (t_root a) in
      if String.eqb argsym ellipsis then
        Ok (<[argsym := tree_list (drop (S i) kids)]> W)
      else
        match kids !! S i with
        | Some x => bind_macrovars_t rest (S i) kids (<[argsym := x]> W)
        | None => Crash OutOfRange
        end
  end.

(** [macroexpand] on trees. *)
Definition macroexpand_t (fuel : nat) (t : tree)
  (T : gmap string (list tree)) : result tree :=
  match t_kids t !! 0%nat with
  | None => Crash Undefined
  | Some h =>
      match T !! v_string (t_root h) with
      | Some macro =>
          match macro !! 0%nat with
          | None => Crash Undefined
          | Some m0 =>
              rbind (bind_macrovars_t (t_kids m0) 0 (t_kids t) ∅)
                (fun W =>
                   match macro !! 1%nat with
                   | None => Crash Undefined
                   | Some m1 => apply_macro_t fuel m1 W
                   end)
          end
      | None => Ok t
      end
  end.

Fixpoint mapT {A B S : Type} (f : A -> S -> result (B * S)) (l : list A)
  (st : S) : result (list B * S) :=
  match l with
  | [] => Ok ([], st)
  | x :: r =>
      rbind (f x st) (fun y =>
        rbind (mapT f r (snd y)) (fun ys =>
          Ok (fst y :: fst ys, snd ys)))
  end.

(** The [defmacro] branch of [compile] on trees. *)
Definition define_macro_t (nilt : tree) (t : tree)
  (T : gmap string (list tree)) : result (tree * gmap string (list tree)) :=
  match t_kids t !! 2%nat with
  | None => Crash Undefined
  | Some a2 =>
      match t_kids t !! 3%nat with
      | None => Crash Undefined
      | Some a3 =>
          match t_kids t !! 1%nat with
          | None => Crash Undefined
          | Some a1 => Ok (nilt, <[v_string (t_root a1) := [a2; a3]]> T)
          end
      end
  end.

(** [compile] on trees; [nilt] is the tree of the constant [nil], the
    state is the macro table. *)
Fixpoint compile_t (fuel : nat) (nilt : tree) (t : tree)
  (T : gmap string (list tree)) : result (tree * gmap string (list tree)) :=
  match fuel with
  | O => Crash OutOfFuel
  | S fuel' =>
      if decide (type (t_root t) = T_LIST) then
        match t_kids t with
        | [] => Ok (t, T)
        | h :: _ =>
            rbind (compile_t fuel' nilt h T) (fun r =>
              let func := fst r in
              let T1 := snd r in
              if is_symbol "defmacro" (t_root func) then
                define_macro_t nilt t T1
              else if is_symbol "quote" (t_root func) then Ok (t, T1)
              else
                match T1 !! v_string (t_root func) with
                | Some _ =>
                    rbind (macroexpand_t fuel' t T1) (fun expanded =>
                      compile_t fuel' nilt expanded T1)
                | None =>
                    rbind (mapT (compile_t fuel' nilt) (t_kids t) T1)
                      (fun rs => Ok (tree_list (fst rs), snd rs))
                end)
        end
      else Ok (t, T)
  end.

(** The symbol [defmacro] occurs nowhere in a tree, or in a macro
    table. *)
Fixpoint defmacro_free (t : tree) : bool :=
  match t with
  | Tree root kids =>
      negb (is_symbol "defmacro" root) && forallb defmacro_free kids
  end.

Definition vars_defmacro_free (W : gmap string tree) : Prop :=
  forall name t, W !! name = Some t -> defmacro_free t = true.

Definition table_defmacro_free (T : gmap string (list tree)) : Prop :=
  forall name macro, T !! name = Some macro ->
    forallb defmacro_free macro = true.

(** Read one form from [text], compile it, and compile the result again;
    the two compiled forms as trees and as printed. *)
Definition compile_twice (fuel : nat) (text : string)
  : M (tree * tree * (string * string)) :=
  forms <- parse text ;;
  f <- index forms 0 ;;
  f1 <- compile fuel f ;;
  h1 <- gets heap ;;
  f2 <- compile fuel f1 ;;
  h2 <- gets heap ;;
  match view fuel h1 f1, view fuel h2 f2, h1 !! f1, h2 !! f2 with
  | Some t1, Some t2, Some n1, Some n2 =>
      p1 <- lift (to_string fuel h1 n1) ;;
      p2 <- lift (to_string fuel h2 n2) ;;
      ret (t1, t2, (p1, p2))
  | _, _, _, _ => crash Undefined
  end.

(** [refines R m r s]: run from state [s], the computation [m] on the heap
    does what the computation [r] on trees does: both fail in the same
    way, or both return, [m] only adding cells to the heap, with results
    related by [R] in the final state. *)
Definition refines {A B : Type} (R : state -> A -> B -> Prop) (m : M A)
  (r : result B) (s : state) : Prop :=
  match r with
  | Ok b =>
      exists a s', m s = Ok (a, s') /\ heap s `prefix_of` heap s' /\ R s' a b
  | Crash e => m s = Crash e
  end.

(** The relations between heap results and tree results. *)
Definition same_tree (table : gmap string (list snode)) (s : state)
  (a : snode) (t : tree) : Prop :=
  denotes (heap s) a t /\ macros s = table.

Definition same_trees (table : gmap string (list snode)) (s : state)
  (l : list snode) (ts : list tree) : Prop :=
  Forall2 (denotes (heap s)) l ts /\ macros s = table.

Definition same_vars (table : gmap string (list snode)) (s : state)
  (V : gmap string snode) (W : gmap string tree) : Prop :=
  vars_denote (heap s) V W /\ macros s = table.

Definition same_compiled (s : state) (a : snode)
  (r : tree * gmap string (list tree)) : Prop :=
  denotes (heap s) a (fst r) /\ table_denotes (heap s) (macros s) (snd r).

Definition same_compiled_list (s : state) (l : list snode)
  (r : list tree * gmap string (list tree)) : Prop :=
  Forall2 (denotes (heap s)) l (fst r)
  /\ table_denotes (heap s) (macros s) (snd r).

(** The two compilations of [compile_twice], run in the kernel without
    prelude. *)
Definition compiled_twice (text : string)
  : result (tree * tree * (string * string)) :=
  rbind kernel (fun s =>
    match compile_twice 20 text s with
    | Ok (r, _) => Ok r
    | Crash e => Crash e
    end).

(** A state in which the macro [unless] is defined, and the form
    [(unless (quote a) 42)] read in that state. *)
Definition macro_state : state * snode :=
  match (eval_string 20 "(defmacro unless (c body) (if c nil body))" ;;;
         forms <- parse "(unless (quote a) 42)" ;;
         index forms 0) kernel_state with
  | Ok (f, s) => (s, f)
  | Crash _ => (start, 0%nat)
  end.

(** ** Notions used to state the further properties *)

(** The state [s'] comes from [s] by additions only: cells are appended to
    the heap and names to the symbol table; the frames, the global frame
    and the output are the same. *)
Definition only_adds (s s' : state) : Prop :=
  heap s `prefix_of` heap s'
  /\ symname s `prefix_of` symname s'
  /\ envs s' = envs s
  /\ global_env s' = global_env s
  /\ stdout s' = stdout s.

(** A computation that only adds, whenever it returns. *)
Definition adds {A : Type} (m : M A) : Prop :=
  forall s a s', m s = Ok (a, s') -> only_adds s s'.



(** The bindings the "assign arguments" loop of [apply] makes: parameter
    by parameter, the code of the symbol is bound to the argument at the
    same position. *)
Definition bind_all (syms : list Node) (args : list snode)
  (m : gmap N snode) : gmap N snode :=
  foldl (fun m '(sn, a) => <[code sn := a]> m) m (zip syms args).

(** The cells whose rendering the source itself determines: [nil], an
    [int], a [bool] cell, a string, a symbol, and a list or function of
    such cells. The rendering of a double is left to [%.16g] of the C
    library and that of a builtin to [%p]. *)
Fixpoint plain_node (fuel : nat) (h : list Node) (n : Node) : bool :=
  match fuel with
  | O => false
  | S fuel' =>
      match type n with
      | T_NIL | T_INT | T_STRING | T_SYMBOL => true
      | T_BOOL => u n mod 2 ^ 8 <? 2
      | T_LIST | T_FN =>
          forallb (fun a =>
                     match h !! a with
                     | Some e => plain_node fuel' h e
                     | None => false
                     end) (v_list n)
      | _ => false
      end
  end.

(** [t] is the rendering [to_string] gives the cell [a] in state [s], a
    cell of the kinds above. *)
Definition renders (gas : nat) (s : state) (a : snode) (t : string) : Prop :=
  exists an, heap s !! a = Some an /\ plain_node gas (heap s) an = true
             /\ to_string gas (heap s) an = Ok t.



(** [forms_run ev env func fd forms s s']: the body forms [forms] of the
    function [func], evaluated in order in frame [env] from state [s], end
    in state [s']; the function cell holds [fd] after each of them. *)
Fixpoint forms_run (ev : snode -> senvironment -> M snode)
  (env : senvironment) (func : snode) (fd : Node) (forms : list snode)
  (s s' : state) : Prop :=
  match forms with
  | [] => s' = s
  | b :: rest =>
      exists x s1,
        ev b env s = Ok (x, s1) /\ heap s1 !! func = Some fd
        /\ forms_run ev env func fd rest s1 s'
  end.



(** The frames are well-formed: every outer link points to an older
    frame, and the frame a function cell has captured and the global frame
    exist. *)
Definition frames_ok (s : state) : Prop :=
  envs_wf (envs s)
  /\ (forall a nd o, heap s !! a = Some nd -> outer_env nd = Some o ->
        (o < length (envs s))%nat)
  /\ (forall g, global_env s = Some g -> (g < length (envs s))%nat).

(** [keeps E m F]: when [m] runs in a state with well-formed frames in
    which the frames [E] exist, and returns [a], the frames are well-formed
    afterwards, none has been removed, and the frames [F a] exist. *)
Definition keeps {A : Type} (E : list senvironment) (m : M A)
  (F : A -> list senvironment) : Prop :=
  forall s a s',
    frames_ok s -> Forall (fun e => (e < length (envs s))%nat) E ->
    m s = Ok (a, s') ->
    frames_ok s' /\ (length (envs s) <= length (envs s'))%nat
    /\ Forall (fun e => (e < length (envs s'))%nat) (F a).

(** A character of the rendering of an [int]: a digit or the sign. *)
Definition number_char (c : ascii) : bool := isdigit c || (c =? "-")%char.

(** A text of such characters only. *)
Fixpoint number_chars (t : string) : bool :=
  match t with
  | EmptyString => true
  | String c r => number_char c && number_chars r
  end.

(** The computation promises no frame. *)
Abbreviation no_frames := (fun _ => @nil senvironment) (only parsing).

(** * Properties *)

(** ** Sample runs *)

Example atof_samples :
  bits_of_double (atof "2.5") = 0x4004000000000000
  /\ bits_of_double (atof "0.1") = 0x3FB999999999999A
  /\ bits_of_double (atof "-1e3") = 0xC08F400000000000
  /\ double_of_bits (bits_of_double (atof "3.14159")) = atof "3.14159"
  /\ atoi "  -42abc" = -42 /\ atoi "x" = 0 /\ atoi "4294967297" = 1.
Proof. vm_compute. repeat split; reflexivity. Qed.

Example tokenize_sample :
  tokenize ("(def x " +:+ String dquote "a b" +:+ String dquote ") ; note"
            +:+ newline +:+ "(pr x)")
  = Ok ["("; "def"; "x"; String dquote "a b"; ")"; "("; "pr"; "x"; ")"].
Proof. vm_compute. reflexivity. Qed.

Example fn_address_round_trip (f : builtin) :
  Fn.at_address (Fn.address f) = Some f.
Proof. destruct f; reflexivity. Qed.

(** The end-to-end scenarios of the specification that stay inside the
    modelled kernel. *)
Example scenario_sum : repl_line "(+ 1 2 3)" = Ok ("6 : int" +:+ newline).
Proof. vm_compute. reflexivity. Qed.

Example scenario_set :
  repl_line "(def x 10) (set x (+ x 1)) x" = Ok ("11 : int" +:+ newline).
Proof. vm_compute. reflexivity. Qed.

Example scenario_fib :
  repl_line "(def f (fn (n) (if (< n 2) n (+ (f (- n 1)) (f (- n 2)))))) (f 10)"
  = Ok ("55 : int" +:+ newline).
Proof. vm_compute. reflexivity. Qed.

Example scenario_macro :
  repl_line "(defmacro unless (c body) (if c nil body)) (unless false 42)"
  = Ok ("42 : int" +:+ newline).
Proof. vm_compute. reflexivity. Qed.

Example scenario_push_back :
  repl_line "(def xs (list 1 2 3)) (push-back! xs 4) (length xs)"
  = Ok ("4 : int" +:+ newline).
Proof. vm_compute. reflexivity. Qed.

(** ** Tokenizer *)

(** C2. The tokenizer is not total. On the empty buffer [last] wraps
    around to the largest [size_t], the loop is entered and [s.at(0)]
    throws; inside a string literal a backslash that is the last character
    of the buffer makes [s.at(pos + 1)] throw. A buffer that ends in an
    opening quote, or inside an unterminated literal, is tokenized. *)
Theorem tokenize_throws_on_empty_and_trailing_backslash :
  tokenize EmptyString = Crash OutOfRange
  /\ tokenize (String dquote "abc\") = Crash OutOfRange
  /\ tokenize (String dquote EmptyString) = Ok [String dquote EmptyString]
  /\ tokenize ("(pr " +:+ String dquote "abc")
     = Ok ["("; "pr"; String dquote "abc"].
Proof. vm_compute. repeat split; reflexivity. Qed.

(** *** Where the tokenizer does return

    The two failures above are the only ones: on a buffer that is not
    empty and whose last character is not a backslash every [s.at] is in
    range, and the steps allotted to the loops are never used up. *)

Lemma wrap64_small (z : Z) : 0 <= z < 2 ^ 64 -> wrap64 z = z.
Proof. intros H. unfold wrap64. apply Z.mod_small. exact H. Qed.

Lemma string_get_lt (s : string) (i : nat) :
  (i < String.length s)%nat -> exists c, String.get i s = Some c.
Proof.
  revert i. induction s as [| a s IH]; intros i Hi; simpl in Hi; [lia |].
  destruct i as [| i]; simpl; [eauto |]. apply IH. lia.
Qed.

Section TokenizerReturns.

Variable s : string.
Variable last : Z.
Hypothesis last_eq : last = Z.of_nat (String.length s) - 1.
Hypothesis not_empty : 0 <= last.
Hypothesis size : last < 2 ^ 63.
Hypothesis escapes :
  forall i, String.get i s = Some "\"%char -> (S i < String.length s)%nat.

Lemma at_in_range (p : Z) :
  0 <= p <= last ->
  exists c, Tokenizer.at_ s p = Ok c /\ String.get (Z.to_nat p) s = Some c.
Proof.
  intros Hp. destruct (string_get_lt s (Z.to_nat p)) as [c Hc]; [lia |].
  exists c. unfold Tokenizer.at_. rewrite Hc. split; reflexivity.
Qed.

Lemma skip_comment_returns (fuel : nat) :
  forall pos, 0 <= pos <= last -> last - pos + 1 <= Z.of_nat fuel ->
    exists pos', Tokenizer.skip_comment fuel s last pos = Ok pos'
                 /\ pos < pos' <= last + 1.
Proof.
  induction fuel as [| fuel IH]; intros pos Hpos Hfuel; [lia |].
  cbn [Tokenizer.skip_comment]. rewrite wrap64_small by lia.
  destruct (Z.leb_spec (pos + 1) last) as [Hle | Hgt].
  - destruct (at_in_range (pos + 1)) as (c & Hc & _); [lia |].
    rewrite Hc. cbn [rbind].
    destruct (negb (c =? "010")%char).
    + destruct (IH (pos + 1)) as (p' & Hp' & Hb); [lia | lia |].
      exists p'. split; [exact Hp' | lia].
    + exists (pos + 1). split; [reflexivity | lia].
  - exists (pos + 1). split; [reflexivity | lia].
Qed.

Lemma scan_string_returns (fuel : nat) :
  forall pos k, 0 <= pos <= last + 1 -> last - pos + 2 <= Z.of_nat fuel ->
    exists pos' k', Tokenizer.scan_string fuel s last pos k = Ok (pos', k')
                    /\ pos <= pos' <= last + 1.
Proof.
  induction fuel as [| fuel IH]; intros pos k Hpos Hfuel; [lia |].
  cbn [Tokenizer.scan_string].
  destruct (Z.leb_spec pos last) as [Hle | Hgt].
  - destruct (at_in_range pos) as (c & Hc & Hget); [lia |].
    rewrite Hc. cbn [rbind].
    destruct (c =? dquote)%char.
    { exists pos, (Tokenizer.bump (-1) k). split; [reflexivity | lia]. }
    destruct (c =? "\")%char eqn:Hbs.
    + apply Ascii.eqb_eq in Hbs. subst c. apply escapes in Hget.
      destruct (at_in_range (pos + 1)) as (c' & Hc' & _); [lia |].
      rewrite !wrap64_small by lia. rewrite Hc'. cbn [rbind].
      match goal with
      | |- context [Tokenizer.scan_string fuel s last (pos + 2) ?k0] =>
          destruct (IH (pos + 2) k0) as (p' & k' & Hr & Hb); [lia | lia |]
      end.
      exists p', k'. split; [exact Hr | lia].
    + rewrite wrap64_small by lia.
      destruct (IH (pos + 1) (Tokenizer.push c k)) as (p' & k' & Hr & Hb);
        [lia | lia |].
      exists p', k'. split; [exact Hr | lia].
  - exists pos, k. split; [reflexivity | lia].
Qed.

Lemma loop_returns (fuel : nat) :
  forall pos k, 0 <= pos <= last + 2 -> last - pos + 3 <= Z.of_nat fuel ->
    exists k', Tokenizer.loop fuel s last pos k = Ok k'.
Proof.
  induction fuel as [| fuel IH]; intros pos k Hpos Hfuel; [lia |].
  cbn [Tokenizer.loop].
  destruct (Z.leb_spec pos last) as [Hle | Hgt]; [| eexists; reflexivity].
  destruct (at_in_range pos) as (c & Hc & _); [lia |].
  rewrite Hc. cbn [rbind].
  destruct (Tokenizer.is_space c).
  { rewrite wrap64_small by lia. apply IH; lia. }
  match goal with |- context [if ?b then _ else _] => destruct b end.
  { destruct (skip_comment_returns fuel pos) as (p' & Hp' & Hb); [lia | lia |].
    rewrite Hp'. cbn [rbind]. rewrite wrap64_small by lia. apply IH; lia. }
  destruct (c =? dquote)%char.
  { rewrite wrap64_small by lia.
    match goal with
    | |- context [Tokenizer.scan_string fuel s last (pos + 1) ?k0] =>
        destruct (scan_string_returns fuel (pos + 1) k0)
          as (p' & k' & Hr & Hb); [lia | lia |]
    end.
    rewrite Hr. cbn [rbind]. rewrite wrap64_small by lia. apply IH; lia. }
  destruct (c =? "(")%char.
  { rewrite wrap64_small by lia. apply IH; lia. }
  destruct (c =? ")")%char; rewrite wrap64_small by lia; apply IH; lia.
Qed.

End TokenizerReturns.

(** X1. The tokenizer returns a token sequence on every buffer (shorter
    than [2^63] characters) that is not empty and in which no backslash is
    the last character, unterminated string literals and unbalanced
    parentheses included. *)
Theorem tokenize_returns (s : string) :
  s <> EmptyString ->
  Z.of_nat (String.length s) <= 2 ^ 63 ->
  (forall i, String.get i s = Some "\"%char -> (S i < String.length s)%nat) ->
  exists tokens, tokenize s = Ok tokens.
Proof.
  intros Hne Hsize Hesc.
  assert (Hpos : 0 < Z.of_nat (String.length s)).
  { destruct s; [congruence | simpl; lia]. }
  unfold tokenize, Tokenizer.run.
  rewrite wrap64_small by lia.
  destruct (loop_returns s (Z.of_nat (String.length s) - 1) eq_refl
              ltac:(lia) ltac:(lia) Hesc (String.length s + 2) 0
              {| Tokenizer.ret := []; Tokenizer.acc := EmptyString;
                 Tokenizer.unclosed := 0 |}) as [k Hk]; [lia | lia |].
  rewrite Hk. eexists. reflexivity.
Qed.

Lemma tokenize_returns_witness :
  let s := "(pr " +:+ String dquote "a\nb" in
  s <> EmptyString
  /\ Z.of_nat (String.length s) <= 2 ^ 63
  /\ (forall i, String.get i s = Some "\"%char -> (S i < String.length s)%nat)
  /\ exists tokens, tokenize s = Ok tokens.
Proof.
  intros s.
  assert (H1 : s <> EmptyString) by discriminate.
  assert (H2 : Z.of_nat (String.length s) <= 2 ^ 63)
    by (vm_compute; discriminate).
  assert (H3 : forall i, String.get i s = Some "\"%char ->
                         (S i < String.length s)%nat).
  { intros i H.
    do 9 (destruct i as [| i]; [try discriminate H; simpl; lia |]).
    destruct i; discriminate H. }
  split; [exact H1 |]. split; [exact H2 |]. split; [exact H3 |].
  exact (tokenize_returns s H1 H2 H3).
Defined.

(** ** Kernel initialization *)

(** C1. [init] does not bind the symbol [map]: it registers the mapping
    builtin under the name [std::map]. Without a prelude the lookup of
    [map] yields [nil], the form of the specification's scenario evaluates
    to [nil], and the same form with [std::map] gives the list (1 4 9). *)
Theorem init_binds_std_map_not_map :
  ("map" ∉ (fst <$> predefined))
  /\ (fst <$> predefined) !! 45%nat = Some "std::map"
  /\ rbind (rbind kernel (get_global "map")) (fun r => Ok (fst r))
     = Ok node_nil
  /\ repl_line "(map (fn (x) (* x x)) (list 1 2 3))"
     = Ok (" : nil" +:+ newline)
  /\ repl_line "(std::map (fn (x) (* x x)) (list 1 2 3))"
     = Ok ("(1 4 9) : list" +:+ newline).
Proof.
  split; [| vm_compute; repeat split; reflexivity].
  vm_compute. intros H.
  repeat (apply elem_of_cons in H as [H | H]; [discriminate H |]).
  by apply elem_of_nil in H.
Qed.

(** ** Arithmetic *)

(** With no operand, [+] and [-] return the constant [node_0] and [*]
    and [/] the constant [node_1], leaving the state as it is; as long as
    these shared constants hold what static initialization put there (as
    they do after [init]), the values returned are the ints 0, 0, 1
    and 1. *)
Lemma arithmetic_identities (s : state) (env : senvironment) :
  constants_intact s ->
  (exists nd, builtin_plus [] env s = Ok (node_0, s)
              /\ heap s !! node_0 = Some nd /\ type nd = T_INT /\ v_int nd = 0)
  /\ (exists nd, builtin_minus [] env s = Ok (node_0, s)
              /\ heap s !! node_0 = Some nd /\ type nd = T_INT /\ v_int nd = 0)
  /\ (exists nd, builtin_mul [] env s = Ok (node_1, s)
              /\ heap s !! node_1 = Some nd /\ type nd = T_INT /\ v_int nd = 1)
  /\ (exists nd, builtin_div [] env s = Ok (node_1, s)
              /\ heap s !! node_1 = Some nd /\ type nd = T_INT /\ v_int nd = 1).
Proof.
  intros [H0 H1].
  split; [| split; [| split]].
  - exists (Node_int 0). repeat split; try reflexivity; exact H0.
  - exists (Node_int 0). repeat split; try reflexivity; exact H0.
  - exists (Node_int 1). repeat split; try reflexivity; exact H1.
  - exists (Node_int 1). repeat split; try reflexivity; exact H1.
Qed.

Lemma arithmetic_identities_witness :
  constants_intact kernel_state
  /\ (exists nd, builtin_plus [] 0%nat kernel_state = Ok (node_0, kernel_state)
                 /\ heap kernel_state !! node_0 = Some nd
                 /\ type nd = T_INT /\ v_int nd = 0).
Proof.
  assert (H : constants_intact kernel_state)
    by (split; vm_compute; reflexivity).
  split; [exact H |].
  exact (proj1 (arithmetic_identities kernel_state 0%nat H)).
Defined.

(** C4. With no operand, [+] and [-] return the shared constant [node_0]
    and [*] and [/] the shared constant [node_1], in every state and
    without changing it. In the kernel as [init] leaves it the four forms
    evaluate to the ints 0, 0, 1 and 1. The constants are cells like any
    other, though: [++], [--] and [set] change the cell they are given in
    place, so once a program has applied one of them to the result of
    [(+)], the forms [(+)] and [(-)] evaluate to whatever that cell holds
    now, and likewise for the forms of [*] and [/]. *)
Theorem zero_operands_return_a_shared_constant :
  (forall s env,
      builtin_plus [] env s = Ok (node_0, s)
      /\ builtin_minus [] env s = Ok (node_0, s)
      /\ builtin_mul [] env s = Ok (node_1, s)
      /\ builtin_div [] env s = Ok (node_1, s))
  /\ (repl_line "(+)" = Ok ("0 : int" +:+ newline)
      /\ repl_line "(-)" = Ok ("0 : int" +:+ newline)
      /\ repl_line "(*)" = Ok ("1 : int" +:+ newline)
      /\ repl_line "(/)" = Ok ("1 : int" +:+ newline))
  /\ (repl_line "(++ (+)) (+)" = Ok ("1 : int" +:+ newline)
      /\ repl_line "(++ (+)) (-)" = Ok ("1 : int" +:+ newline)
      /\ repl_line "(-- (*)) (*)" = Ok ("0 : int" +:+ newline)
      /\ repl_line "(-- (*)) (/)" = Ok ("0 : int" +:+ newline))
  /\ (repl_line "(def sum (fn (l) (apply + l))) (++ (sum (list))) (sum (list))"
        = Ok ("1 : int" +:+ newline)
      /\ repl_line "(def xs (list (+) 5)) (set (nth 0 xs) 7) (+)"
           = Ok ("7 : int" +:+ newline)).
Proof.
  split; [intros s env; repeat split |].
  vm_compute. repeat split; reflexivity.
Qed.

(** ** Lists *)

(** C10. [pop-back!] on a list whose elements are [l ++ [x]] returns [x]
    and leaves the list node, in place, with the elements [l]: no other
    cell and no binding changes, so every binding that refers to the list
    sees it shortened. *)
Theorem pop_back_removes_last (s : state) (env : senvironment)
  (L : snode) (rest : list snode) (ln : Node) (l : list snode) (x : snode) :
  heap s !! L = Some ln ->
  v_list ln = (l ++ [x])%list ->
  let s' := with_heap (<[L := with_v_list l ln]> (heap s)) s in
  builtin_pop_backd (L :: rest) env s = Ok (x, s')
  /\ heap s' !! L = Some (with_v_list l ln)
  /\ (forall a, a <> L -> heap s' !! a = heap s !! a)
  /\ envs s' = envs s
  /\ (forall e c, get s e c = L ->
        get s' e c = L
        /\ exists nd, heap s' !! get s' e c = Some nd /\ v_list nd = l).
Proof.
  intros HL Hl s'.
  assert (Hlt : (L < length (heap s))%nat) by (eapply lookup_lt_Some; eauto).
  assert (HL' : heap s' !! L = Some (with_v_list l ln))
    by (apply list_lookup_insert_eq; exact Hlt).
  split.
  { unfold builtin_pop_backd, bind, index, deref, ret.
    simpl. rewrite HL, Hl, last_snoc, removelast_last. reflexivity. }
  split; [exact HL' |].
  split; [intros a Ha; apply list_lookup_insert_ne; congruence |].
  split; [reflexivity |].
  intros e c Hg. split; [exact Hg |].
  exists (with_v_list l ln). split; [| reflexivity].
  change (get s' e c) with (get s e c). rewrite Hg. exact HL'.
Qed.

Lemma pop_back_removes_last_witness :
  let s := with_heap (heap start ++ [Node_list [2; 3; 2]%nat]) start in
  heap s !! 5%nat = Some (Node_list [2; 3; 2]%nat)
  /\ v_list (Node_list [2; 3; 2]%nat) = ([2; 3] ++ [2])%nat%list
  /\ builtin_pop_backd [5%nat] 0%nat s
     = Ok (2%nat,
           with_heap (<[5%nat := with_v_list [2; 3]%nat (Node_list [2; 3; 2]%nat)]>
                        (heap s)) s).
Proof.
  intros s.
  split; [reflexivity |]. split; [reflexivity |].
  exact (proj1 (pop_back_removes_last s 0%nat 5%nat [] (Node_list [2; 3; 2]%nat)
                  [2; 3]%nat 2%nat eq_refl eq_refl)).
Defined.

(** ** Environments *)

Lemma get_from_S (fuel : nat) (fs : list environment) (e : senvironment)
  (c : N) :
  get_from (S fuel) fs e c =
    match fs !! e with
    | Some f =>
        match env f !! c with
        | Some v => v
        | None =>
            match outer f with
            | Some o => get_from fuel fs o c
            | None => node_nil
            end
        end
    | None => node_nil
    end.
Proof. reflexivity. Qed.

Lemma get_from_fuel (fs : list environment) (c : N) :
  envs_wf fs ->
  forall fuel fuel' e, (e < fuel)%nat -> (e < fuel')%nat ->
    get_from fuel fs e c = get_from fuel' fs e c.
Proof.
  intros Hwf fuel.
  induction fuel as [| fuel IH]; intros fuel' e H1 H2; [lia |].
  destruct fuel' as [| fuel']; [lia |].
  rewrite !get_from_S. destruct (fs !! e) as [f |] eqn:Hf; [| reflexivity].
  destruct (env f !! c); [reflexivity |].
  destruct (outer f) as [o |] eqn:Ho; [| reflexivity].
  pose proof (Hwf e f o Hf Ho). apply IH; lia.
Qed.

Lemma get_unfold (s : state) (e : senvironment) (c : N) :
  envs_wf (envs s) ->
  get s e c =
    match envs s !! e with
    | Some f =>
        match env f !! c with
        | Some v => v
        | None =>
            match outer f with
            | Some o => get s o c
            | None => node_nil
            end
        end
    | None => node_nil
    end.
Proof.
  intros Hwf. unfold get.
  destruct (envs s !! e) as [f |] eqn:Hf.
  - pose proof (lookup_lt_Some _ _ _ Hf) as Hlt.
    destruct (length (envs s)) as [| len] eqn:Hlen; [lia |].
    rewrite get_from_S, Hf.
    destruct (env f !! c); [reflexivity |].
    destruct (outer f) as [o |] eqn:Ho; [| reflexivity].
    pose proof (Hwf e f o Hf Ho).
    apply get_from_fuel; [exact Hwf | lia | lia].
  - destruct (length (envs s)); [reflexivity |].
    rewrite get_from_S, Hf. reflexivity.
Qed.

Lemma get_unbound (s : state) (c : N) :
  envs_wf (envs s) ->
  forall e, unbound (envs s) e c -> get s e c = node_nil.
Proof.
  intros Hwf e.
  induction e as [e IH] using lt_wf_ind. intros Hun.
  rewrite get_unfold by exact Hwf.
  destruct (envs s !! e) as [f |] eqn:Hf; [| reflexivity].
  rewrite (Hun e f (in_chain_here _ e) Hf).
  destruct (outer f) as [o |] eqn:Ho; [| reflexivity].
  apply IH; [exact (Hwf e f o Hf Ho) |].
  intros e' f' Hc Hf'. apply (Hun e' f'); [| exact Hf'].
  eapply in_chain_outer; eauto.
Qed.

Lemma eval_symbol (k : nat) (s : state) (n : snode) (nd : Node)
  (e : senvironment) :
  heap s !! n = Some nd -> type nd = T_SYMBOL ->
  eval (S k) n e s = Ok (get s e (code nd), s).
Proof.
  intros Hn Ht. simpl. unfold eval_body, bind, deref.
  rewrite Hn, Ht. reflexivity.
Qed.

(** Lookup returns the binding of the current frame if there is one,
    otherwise what the outer frame returns, and the object [nil] when the
    chain ends; a symbol evaluates to what lookup returns, so a symbol
    bound in no frame of the chain evaluates to that object, in an
    unchanged state. *)
Lemma lookup_walks_the_chain (s : state) (e : senvironment) (c : N) :
  envs_wf (envs s) ->
  (forall f v, envs s !! e = Some f -> env f !! c = Some v -> get s e c = v)
  /\ (forall f o, envs s !! e = Some f -> env f !! c = None ->
        outer f = Some o -> get s e c = get s o c)
  /\ (forall f, envs s !! e = Some f -> env f !! c = None ->
        outer f = None -> get s e c = node_nil)
  /\ (unbound (envs s) e c -> get s e c = node_nil)
  /\ (forall k n nd, heap s !! n = Some nd -> type nd = T_SYMBOL ->
        code nd = c ->
        eval (S k) n e s = Ok (get s e c, s)
        /\ (unbound (envs s) e c -> eval (S k) n e s = Ok (node_nil, s))).
Proof.
  intros Hwf.
  split; [| split; [| split; [| split]]].
  - intros f v Hf Hv. rewrite get_unfold, Hf, Hv by exact Hwf. reflexivity.
  - intros f o Hf Hv Ho. rewrite get_unfold, Hf, Hv, Ho by exact Hwf.
    reflexivity.
  - intros f Hf Hv Ho. rewrite get_unfold, Hf, Hv, Ho by exact Hwf.
    reflexivity.
  - apply get_unbound. exact Hwf.
  - intros k n nd Hn Ht Hc. subst c.
    split; [apply eval_symbol; assumption |].
    intros Hun. rewrite (eval_symbol k s n nd e Hn Ht).
    rewrite (get_unbound s (code nd) Hwf e Hun). reflexivity.
Qed.

Lemma kernel_envs_wf : envs_wf (envs kernel_state).
Proof.
  intros e f o Hf Ho.
  destruct e as [| e]; vm_compute in Hf.
  - injection Hf as <-. discriminate Ho.
  - destruct e; discriminate Hf.
Qed.

(** The frame store is changed by two operations only, and both keep the
    links pointing to older frames: a new frame is appended, linked to a
    frame that exists already, and a binding is written into a frame
    without touching its link. *)
Lemma new_environment_wf (o : option senvironment) (s : state) :
  envs_wf (envs s) ->
  (forall o', o = Some o' -> (o' < length (envs s))%nat) ->
  exists e s', new_environment o s = Ok (e, s')
               /\ e = length (envs s) /\ envs_wf (envs s').
Proof.
  intros Hwf Ho. eexists _, _. split; [reflexivity |]. split; [reflexivity |].
  intros e f o' Hf Hout. simpl in Hf.
  destruct (decide (e < length (envs s))%nat) as [Hlt | Hge].
  - rewrite lookup_app_l in Hf by exact Hlt. exact (Hwf e f o' Hf Hout).
  - rewrite lookup_app_r in Hf by lia.
    destruct (e - length (envs s))%nat as [| d] eqn:Hd; [| destruct d; discriminate Hf].
    injection Hf as <-. simpl in Hout. specialize (Ho o' Hout). lia.
Qed.

Lemma bind_in_wf (e : senvironment) (c : N) (v : snode) (s s' : state) :
  envs_wf (envs s) -> bind_in e c v s = Ok (tt, s') -> envs_wf (envs s').
Proof.
  intros Hwf Hb. unfold bind_in in Hb.
  destruct (envs s !! e) as [fr |] eqn:Hfr; [| discriminate Hb].
  injection Hb as <-. intros e' f o Hf Hout. simpl in Hf.
  destruct (decide (e = e')) as [<- | Hne].
  - rewrite list_lookup_insert_eq in Hf by (apply lookup_lt_Some in Hfr; exact Hfr).
    injection Hf as <-. simpl in Hout. exact (Hwf e fr o Hfr Hout).
  - rewrite list_lookup_insert_ne in Hf by exact Hne. exact (Hwf e' f o Hf Hout).
Qed.

Lemma kernel_unbound : unbound (envs kernel_state) 0%nat 1000%N.
Proof.
  intros e' f Hc Hf.
  inversion Hc as [| ? f0 o ? Hf0 Ho _]; subst.
  - vm_compute in Hf. injection Hf as <-. vm_compute. reflexivity.
  - vm_compute in Hf0. injection Hf0 as <-. discriminate Ho.
Qed.

Lemma lookup_walks_the_chain_witness :
  envs_wf (envs kernel_state)
  /\ unbound (envs kernel_state) 0%nat 1000%N
  /\ get kernel_state 0%nat 1000%N = node_nil.
Proof.
  split; [exact kernel_envs_wf |]. split; [exact kernel_unbound |].
  exact (proj1 (proj2 (proj2 (proj2
    (lookup_walks_the_chain kernel_state 0%nat 1000%N kernel_envs_wf))))
    kernel_unbound).
Defined.

(** C5. A symbol bound in no frame of the chain evaluates to the shared
    object [nil], in every state and without changing it, and in the
    kernel as [init] leaves it that object holds nil. The object is a cell
    like any other, though: [set] overwrites in place the cell its first
    operand evaluates to, and a form such as [(begin)] or a one-armed [if]
    whose condition is false evaluates to the object [nil] itself. After
    [(set (begin) 5)] the object holds the int 5, and every symbol that is
    bound nowhere evaluates to 5. *)
Theorem unbound_symbol_yields_the_shared_nil_object :
  (forall s e c,
      envs_wf (envs s) -> unbound (envs s) e c -> get s e c = node_nil)
  /\ (forall k s n nd e,
        envs_wf (envs s) -> heap s !! n = Some nd -> type nd = T_SYMBOL ->
        unbound (envs s) e (code nd) ->
        eval (S k) n e s = Ok (node_nil, s))
  /\ heap kernel_state !! node_nil = Some Node_nil
  /\ (repl_line "y" = Ok (" : nil" +:+ newline)
      /\ repl_line "(def f (fn () y)) (f)" = Ok (" : nil" +:+ newline))
  /\ (repl_line "(set (begin) 5) y" = Ok ("5 : int" +:+ newline)
      /\ repl_line "(set (if false 1) 5) y" = Ok ("5 : int" +:+ newline)
      /\ repl_line "(set (begin) 5) (def f (fn () y)) (+ (f) 1)"
         = Ok ("6 : int" +:+ newline)).
Proof.
  split; [intros s e c Hwf Hun; exact (get_unbound s c Hwf e Hun) |].
  split.
  { intros k s n nd e Hwf Hn Ht Hun.
    rewrite (eval_symbol k s n nd e Hn Ht).
    rewrite (get_unbound s (code nd) Hwf e Hun). reflexivity. }
  vm_compute. repeat split; reflexivity.
Qed.

(** ** Symbol interning *)

Lemma ToCode_known (s : state) (n : string) (c : N) :
  symcode s !! n = Some c -> ToCode n s = Ok (c, s).
Proof. intros H. unfold ToCode. rewrite H. reflexivity. Qed.

Lemma sym_wf_elem (s : state) (n : string) :
  sym_wf s -> n ∈ symname s <-> is_Some (symcode s !! n).
Proof.
  intros [_ Hwf]. split.
  - intros Hin. apply list_elem_of_lookup in Hin as [i Hi].
    exists (N.of_nat i). apply Hwf. rewrite Nat2N.id. exact Hi.
  - intros [c Hc]. apply Hwf in Hc. eapply list_elem_of_lookup_2; eauto.
Qed.

Lemma sym_wf_code_lt (s : state) (n : string) (c : N) :
  sym_wf s -> symcode s !! n = Some c -> (N.to_nat c < length (symname s))%nat.
Proof.
  intros [_ Hwf] Hc. apply Hwf in Hc. eapply lookup_lt_Some; eauto.
Qed.

Lemma ToCode_spec (s : state) (n : string) :
  sym_wf s ->
  exists c s',
    ToCode n s = Ok (c, s')
    /\ sym_wf s'
    /\ symcode s' !! n = Some c
    /\ symname s' = remember (symname s) n
    /\ (forall m d, symcode s !! m = Some d -> symcode s' !! m = Some d)
    /\ (symcode s !! n = None -> c = N.of_nat (length (symname s))).
Proof.
  intros Hwf. unfold ToCode, remember.
  destruct (symcode s !! n) as [c |] eqn:Hc.
  - exists c, s.
    split; [reflexivity |]. split; [exact Hwf |]. split; [exact Hc |].
    split; [| split; [tauto | discriminate]].
    rewrite decide_True; [reflexivity |].
    apply sym_wf_elem; [exact Hwf | eauto].
  - pose proof Hwf as [Hsize Hbij].
    eexists _, _. split; [reflexivity |]. simpl.
    assert (Hnotin : n ∉ symname s).
    { intros Hin. apply sym_wf_elem in Hin as [c Hc']; [| exact Hwf].
      congruence. }
    split; [| split; [| split; [| split]]].
    + split; simpl.
      * rewrite map_size_insert_None, length_app by exact Hc.
        simpl. lia.
      * intros m d. rewrite Hsize. split.
        -- intros Hm. destruct (decide (n = m)) as [-> | Hne].
           ++ rewrite lookup_insert_eq in Hm. injection Hm as <-.
              rewrite Nat2N.id. apply list_lookup_middle. reflexivity.
           ++ rewrite lookup_insert_ne in Hm by exact Hne.
              pose proof (sym_wf_code_lt s m d Hwf Hm).
              rewrite lookup_app_l by lia. apply Hbij. exact Hm.
        -- intros Hm.
           destruct (decide (N.to_nat d < length (symname s))%nat) as [Hlt | Hge].
           ++ rewrite lookup_app_l in Hm by lia. apply Hbij in Hm.
              rewrite lookup_insert_ne by congruence. exact Hm.
           ++ rewrite lookup_app_r in Hm by lia.
              destruct (N.to_nat d - length (symname s))%nat eqn:Hd;
                [| destruct n0; discriminate Hm].
              injection Hm as <-.
              replace d with (N.of_nat (length (symname s))) by lia.
              apply lookup_insert_eq.
    + rewrite Hsize. apply lookup_insert_eq.
    + rewrite decide_False by exact Hnotin. reflexivity.
    + intros m d Hm. rewrite lookup_insert_ne by congruence. exact Hm.
    + intros _. rewrite Hsize. reflexivity.
Qed.

Lemma intern_all_spec (names : list string) :
  forall s, sym_wf s ->
    sym_wf (intern_all names s)
    /\ symname (intern_all names s) = foldl remember (symname s) names.
Proof.
  induction names as [| n names IH]; intros s Hwf; [split; [exact Hwf | reflexivity] |].
  destruct (ToCode_spec s n Hwf) as (c & s' & Hrun & Hwf' & _ & Hname & _).
  simpl. rewrite Hrun. destruct (IH s' Hwf') as [H1 H2].
  split; [exact H1 |]. rewrite H2, Hname. reflexivity.
Qed.

Lemma foldl_remember_app (names : list string) (n : string)
  (seen : list string) :
  foldl remember seen (names ++ [n]) = remember (foldl remember seen names) n.
Proof. rewrite foldl_app. reflexivity. Qed.

(** C6. Interning is a round trip. In the tables reached by interning any
    sequence of names from the empty tables, [ToCode] of a name returns a
    code, every later call returns the same code and changes nothing,
    [symname] at that code is the name, the codes of the names known
    before are kept, and codes are dense: [symname] lists the distinct
    names in the order of their first interning, and the name at position
    [k] (the [k+1]-th distinct name) has code [k]. *)
Theorem interning_round_trip (s0 : state) (names : list string)
  (name : string) :
  symcode s0 = ∅ -> symname s0 = [] ->
  let s := intern_all names s0 in
  exists c s',
    ToCode name s = Ok (c, s')
    /\ ToCode name s' = Ok (c, s')
    /\ name_of s' c = Some name
    /\ (forall m d, symcode s !! m = Some d -> symcode s' !! m = Some d)
    /\ symname s' = distinct_names (names ++ [name])
    /\ (forall k m, distinct_names (names ++ [name]) !! k = Some m
                    <-> symcode s' !! m = Some (N.of_nat k)).
Proof.
  intros Hc0 Hn0 s.
  assert (Hwf0 : sym_wf s0).
  { split; [rewrite Hc0, Hn0; reflexivity |].
    intros n c. rewrite Hc0, Hn0, lookup_empty. split; intros H; discriminate H. }
  destruct (intern_all_spec names s0 Hwf0) as [Hwf Hnames].
  fold s in Hwf, Hnames.
  destruct (ToCode_spec s name Hwf) as (c & s' & Hrun & Hwf' & Hc & Hname & Hmono & _).
  exists c, s'.
  assert (Hdist : symname s' = distinct_names (names ++ [name])).
  { unfold distinct_names. rewrite foldl_remember_app.
    rewrite Hname, Hnames, Hn0. reflexivity. }
  split; [exact Hrun |].
  split; [apply ToCode_known; exact Hc |].
  split; [unfold name_of; apply Hwf'; exact Hc |].
  split; [exact Hmono |].
  split; [exact Hdist |].
  intros k m. rewrite <- Hdist. destruct Hwf' as [_ Hbij].
  rewrite Hbij, Nat2N.id. reflexivity.
Qed.

Lemma interning_round_trip_witness :
  symcode start = ∅ /\ symname start = []
  /\ exists c s',
       ToCode "fn" (intern_all ["def"; "fn"; "def"; "x"] start) = Ok (c, s')
       /\ ToCode "fn" s' = Ok (c, s')
       /\ name_of s' c = Some "fn"
       /\ (forall m d,
             symcode (intern_all ["def"; "fn"; "def"; "x"] start) !! m = Some d ->
             symcode s' !! m = Some d)
       /\ symname s' = distinct_names (["def"; "fn"; "def"; "x"] ++ ["fn"])
       /\ (forall k m,
             distinct_names (["def"; "fn"; "def"; "x"] ++ ["fn"]) !! k = Some m
             <-> symcode s' !! m = Some (N.of_nat k)).
Proof.
  split; [reflexivity |]. split; [reflexivity |].
  exact (interning_round_trip start ["def"; "fn"; "def"; "x"] "fn"
           eq_refl eq_refl).
Defined.

Example interning_codes :
  symname (intern_all ["def"; "fn"; "def"; "x"; "fn"] start) = ["def"; "fn"; "x"]
  /\ distinct_names ["def"; "fn"; "def"; "x"; "fn"] = ["def"; "fn"; "x"]
  /\ symcode (intern_all ["def"; "fn"; "def"; "x"; "fn"] start) !! "x" = Some 2%N.
Proof. vm_compute. repeat split; reflexivity. Qed.

(** ** Arithmetic on operands *)

Lemma fold_int_spec (op : Z -> Z -> result Z) (s : state) :
  forall (rest : list snode) (nodes : list Node) (sum : Z),
    Forall2 (fun a n => heap s !! a = Some n) rest nodes ->
    fold_int op sum rest s =
      match int_sum op sum nodes with
      | Ok z => Ok (z, s)
      | Crash e => Crash e
      end.
Proof.
  intros rest nodes sum H. revert sum.
  induction H as [| a n rest nodes Ha _ IH]; intros sum; [reflexivity |].
  simpl. unfold bind, deref, lift. rewrite Ha.
  destruct (op sum (to_int n)) as [z | e]; simpl; [apply IH | reflexivity].
Qed.

Lemma fold_double_spec (op : double -> double -> double) (s : state) :
  forall (rest : list snode) (nodes : list Node) (sum : double),
    Forall2 (fun a n => heap s !! a = Some n) rest nodes ->
    fold_double op sum rest s = Ok (double_sum op sum nodes, s).
Proof.
  intros rest nodes sum H. revert sum.
  induction H as [| a n rest nodes Ha _ IH]; intros sum; [reflexivity |].
  simpl. unfold bind, deref. rewrite Ha. apply IH.
Qed.

(** What the four arithmetic builtins do with at least one operand: in
    int mode the [to_int] coercions of the later operands are folded into
    the first operand's [v_int]; otherwise the [to_double] coercions of
    the later operands are folded into the first operand's [v_double]
    member, whatever the type of the first operand. The result is a fresh
    node. *)
Lemma arith_computes (identity : snode) (iop : Z -> Z -> result Z)
  (dop : double -> double -> double) (s : state) (first : snode)
  (rest : list snode) (fnode : Node) (nodes : list Node) :
  heap s !! first = Some fnode ->
  Forall2 (fun a n => heap s !! a = Some n) rest nodes ->
  arith identity iop dop (first :: rest) s =
    if decide (type fnode = T_INT) then
      match int_sum iop (v_int fnode) nodes with
      | Ok z => Ok (length (heap s), with_heap (heap s ++ [Node_int z]) s)
      | Crash e => Crash e
      end
    else
      Ok (length (heap s),
          with_heap (heap s ++ [Node_double
                                  (double_sum dop (v_double fnode) nodes)]) s).
Proof.
  intros Hf Hrest. unfold arith, bind, deref. rewrite Hf.
  destruct (decide (type fnode = T_INT)).
  - rewrite (fold_int_spec iop s rest nodes _ Hrest).
    destruct (int_sum iop (v_int fnode) nodes); reflexivity.
  - rewrite (fold_double_spec dop s rest nodes _ Hrest). reflexivity.
Qed.

(** When the first operand is a double its [v_double] member is its
    [to_double] coercion, and the double mode computes what the
    specification says. *)
Lemma arith_double_first (dop : double -> double -> double) (fnode : Node)
  (nodes : list Node) :
  type fnode = T_DOUBLE ->
  all_coerced_to_double dop (fnode :: nodes)
  = Some (Node_double (double_sum dop (v_double fnode) nodes)).
Proof.
  intros Ht. unfold all_coerced_to_double, double_sum, to_double at 2.
  rewrite Ht. reflexivity.
Qed.

(** C3. The first operand is not coerced in double mode: the builtins
    read its [v_double] member as it is. For a string first operand that
    member is the zero the union was initialized with, so [(+ "2.5" 1)]
    is 1 and not 3.5, [(- "2.5" 1)] is -1 and [( * "2.5" 2)] is 0; the
    coercion of every operand would give 3.5, 1.5 and 5. With an int or a
    double in front the results are the specified ones. *)
Theorem arithmetic_first_operand_is_not_coerced :
  on_operands builtin_plus [Node_string "2.5"; Node_int 1]
    = Ok (Node_double (atof "1"))
  /\ all_coerced_to_double dadd [Node_string "2.5"; Node_int 1]
    = Some (Node_double (atof "3.5"))
  /\ on_operands builtin_minus [Node_string "2.5"; Node_int 1]
    = Ok (Node_double (atof "-1"))
  /\ all_coerced_to_double dsub [Node_string "2.5"; Node_int 1]
    = Some (Node_double (atof "1.5"))
  /\ on_operands builtin_mul [Node_string "2.5"; Node_int 2]
    = Ok (Node_double (atof "0"))
  /\ all_coerced_to_double dmul [Node_string "2.5"; Node_int 2]
    = Some (Node_double (atof "5"))
  /\ value_of ("(+ " +:+ String dquote "2.5" +:+ String dquote " 1)")
    = Ok (Node_double (atof "1"))
  /\ value_of "(+ 1.5 2)" = Ok (Node_double (atof "3.5"))
  /\ value_of ("(+ 1.5 " +:+ String dquote "2" +:+ String dquote ")")
    = Ok (Node_double (atof "3.5"))
  /\ value_of "(/ 7 2.9)" = Ok (Node_int 3).
Proof. vm_compute. repeat split; reflexivity. Qed.

(** ** Special forms *)

Lemma eval_special_form (k : nat) (n : snode) (env : senvironment)
  (s : state) (nd dn : Node) (h d : snode) (rest : list snode) (f : builtin) :
  heap s !! n = Some nd -> type nd = T_LIST -> v_list nd = h :: rest ->
  eval k h env s = Ok (d, s) ->
  heap s !! d = Some dn -> type dn = T_SPECIAL -> v_builtin dn = Some f ->
  eval (S k) n env s = call_special k (eval k) (apply k) f n env s.
Proof.
  intros Hn Ht Hl Hh Hd Hdt Hf.
  simpl. unfold eval_body, bind, deref.
  rewrite Hn, Ht, Hl, Hh, Hd, Hdt, Hf. reflexivity.
Qed.

Lemma lookup_snoc_old {A : Type} (l : list A) (x y : A) (i : nat) :
  l !! i = Some y -> (l ++ [x]) !! i = Some y.
Proof. intros H. apply lookup_app_l_Some. exact H. Qed.

(** Stepping through a computation. *)

Lemma bind_ok {A B : Type} (m : M A) (f : A -> M B) (s s' : state) (a : A) :
  m s = Ok (a, s') -> bind m f s = f a s'.
Proof. intros H. unfold bind. rewrite H. reflexivity. Qed.

Lemma bind_crash {A B : Type} (m : M A) (f : A -> M B) (s : state)
  (e : error) :
  m s = Crash e -> bind m f s = Crash e.
Proof. intros H. unfold bind. rewrite H. reflexivity. Qed.

Lemma deref_ok (s : state) (a : snode) (n : Node) :
  heap s !! a = Some n -> deref a s = Ok (n, s).
Proof. intros H. unfold deref. rewrite H. reflexivity. Qed.

Lemma index_ok {A : Type} (v : list A) (i : nat) (x : A) (s : state) :
  v !! i = Some x -> index v i s = Ok (x, s).
Proof. intros H. unfold index. rewrite H. reflexivity. Qed.

Lemma at_ok {A : Type} (v : list A) (i : nat) (x : A) (s : state) :
  v !! i = Some x -> at_ v i s = Ok (x, s).
Proof. intros H. unfold at_. rewrite H. reflexivity. Qed.

Lemma raw_arg_ok (s : state) (n : snode) (nd : Node) (i : nat) (x : snode) :
  heap s !! n = Some nd -> v_list nd !! i = Some x ->
  raw_arg n i s = Ok (x, s).
Proof.
  intros Hn Hx. unfold raw_arg.
  rewrite (bind_ok _ _ _ _ _ (deref_ok _ _ _ Hn)). apply index_ok. exact Hx.
Qed.

Lemma clone_ok (s : state) (p : snode) (pn : Node) :
  heap s !! p = Some pn ->
  clone p s = Ok (length (heap s), with_heap (heap s ++ [pn]) s).
Proof.
  intros Hp. unfold clone.
  rewrite (bind_ok _ _ _ _ _ (deref_ok _ _ _ Hp)). reflexivity.
Qed.

Lemma bind_in_ok (s : state) (e : senvironment) (c : N) (v : snode)
  (fr : environment) :
  envs s !! e = Some fr ->
  bind_in e c v s =
    Ok (tt, with_envs (<[e := mkEnvironment (<[c := v]> (env fr))
                               (outer fr)]> (envs s)) s).
Proof. intros H. unfold bind_in. rewrite H. reflexivity. Qed.

Lemma set_ok (s : state) (e : senvironment) (k v : snode) (kn : Node)
  (fr : environment) :
  heap s !! k = Some kn -> envs s !! e = Some fr ->
  set e k v s =
    Ok (v, with_envs (<[e := mkEnvironment (<[code kn := v]> (env fr))
                              (outer fr)]> (envs s)) s).
Proof.
  intros Hk He. unfold set.
  rewrite (bind_ok _ _ _ _ _ (deref_ok _ _ _ Hk)).
  rewrite (bind_ok _ _ _ _ _ (bind_in_ok _ _ _ _ _ He)). reflexivity.
Qed.

Lemma special_def_runs (k : nat) (n : snode) (e : senvironment)
  (s s1 : state) (nd symn vn : Node) (sym vexp v : snode)
  (fr : environment) :
  heap s !! n = Some nd -> v_list nd !! 2%nat = Some vexp ->
  v_list nd !! 1%nat = Some sym ->
  eval k vexp e s = Ok (v, s1) ->
  heap s1 !! v = Some vn ->
  heap s1 !! n = Some nd ->
  heap s1 !! sym = Some symn ->
  envs s1 !! e = Some fr ->
  special_def (eval k) n e s =
    Ok (length (heap s1),
        with_envs (<[e := mkEnvironment
                            (<[code symn := length (heap s1)]> (env fr))
                            (outer fr)]> (envs s1))
          (with_heap (heap s1 ++ [vn]) s1)).
Proof.
  intros Hn H2 H1 Hv Hvn Hn1 Hsym Hfr.
  unfold special_def.
  rewrite (bind_ok _ _ _ _ _ (raw_arg_ok _ _ _ _ _ Hn H2)).
  rewrite (bind_ok _ _ _ _ _ Hv).
  rewrite (bind_ok _ _ _ _ _ (clone_ok _ _ _ Hvn)).
  set (s2 := with_heap (heap s1 ++ [vn]) s1).
  assert (Hn2 : heap s2 !! n = Some nd) by (apply lookup_snoc_old, Hn1).
  assert (Hsym2 : heap s2 !! sym = Some symn) by (apply lookup_snoc_old, Hsym).
  rewrite (bind_ok _ _ _ _ _ (raw_arg_ok _ _ _ _ _ Hn2 H1)).
  apply (set_ok s2 e sym _ symn fr Hsym2 Hfr).
Qed.

Lemma get_from_agree (fs fs' : list environment) (c : N) (b : nat) :
  envs_wf fs ->
  (forall e, (e <= b)%nat -> fs' !! e = fs !! e) ->
  forall fuel e, (e <= b)%nat -> get_from fuel fs' e c = get_from fuel fs e c.
Proof.
  intros Hwf Hagree fuel.
  induction fuel as [| fuel IH]; intros e He; [reflexivity |].
  rewrite !get_from_S, (Hagree e He).
  destruct (fs !! e) as [f |] eqn:Hf; [| reflexivity].
  destruct (env f !! c); [reflexivity |].
  destruct (outer f) as [o |] eqn:Ho; [| reflexivity].
  pose proof (Hwf e f o Hf Ho). apply IH. lia.
Qed.

(** The frames older than a frame that is rebound see the same
    bindings. *)
Lemma get_older_frame (s : state) (e o : senvironment) (c : N)
  (f : environment) :
  envs_wf (envs s) -> (o < e)%nat ->
  get (with_envs (<[e := f]> (envs s)) s) o c = get s o c.
Proof.
  intros Hwf Hlt. unfold get. simpl. rewrite length_insert.
  apply (get_from_agree (envs s) _ c o Hwf); [| lia].
  intros e' He'. apply list_lookup_insert_ne. lia.
Qed.

(** A user function runs in a frame of its own: [apply] creates the frame
    (its identifier is new, so it is none of the frames that existed
    before the call), links it to the closure's frame, binds the
    parameters in it and evaluates the body forms there. *)
Lemma apply_fn_fresh_frame (k : nat) (func : snode) (args : list snode)
  (e0 : senvironment) (s : state) (fd pn : Node) (p : snode) :
  heap s !! func = Some fd -> type fd = T_FN ->
  v_list fd !! 1%nat = Some p -> heap s !! p = Some pn ->
  let local_env := length (envs s) in
  apply (S k) func args e0 s =
    (bind_parameters (v_list pn) args local_env ;;;
     run_body (eval k) func local_env)
      (with_envs (envs s ++ [mkEnvironment ∅ (outer_env fd)]) s).
Proof.
  intros Hf Ht Hp Hpn local_env. simpl. unfold apply_body.
  rewrite (bind_ok _ _ _ _ _ (deref_ok _ _ _ Hf)).
  rewrite Ht. simpl.
  rewrite (bind_ok _ _ _ _ _ (index_ok _ _ _ _ Hp)).
  rewrite (bind_ok _ _ _ _ _ (deref_ok _ _ _ Hpn)).
  reflexivity.
Qed.

Lemma with_envs_same (s : state) (e : senvironment) (fr : environment) :
  envs s !! e = Some fr ->
  with_envs (<[e := mkEnvironment (env fr) (outer fr)]> (envs s)) s = s.
Proof.
  intros H. destruct fr as [b o]. simpl.
  rewrite list_insert_id by exact H. destruct s; reflexivity.
Qed.

Lemma bind_parameters_from (args : list snode) (local : senvironment) :
  forall syms symnodes off s fr,
    Forall2 (fun k kn => heap s !! k = Some kn) syms symnodes ->
    (off + length syms <= length args)%nat ->
    envs s !! local = Some fr ->
    iterM (fun '(i, k) =>
             kn <- deref k ;;
             a <- index args i ;;
             bind_in local (code kn) a)
          (imap (fun i k => ((off + i)%nat, k)) syms) s
    = Ok (tt, with_envs
                (<[local := mkEnvironment
                              (bind_all symnodes (drop off args) (env fr))
                              (outer fr)]> (envs s)) s).
Proof.
  induction syms as [| k syms IH]; intros symnodes off s fr Hsyms Hlen Hfr.
  - apply Forall2_nil_inv_l in Hsyms. subst symnodes. simpl.
    unfold bind_all. simpl. rewrite with_envs_same by exact Hfr. reflexivity.
  - apply Forall2_cons_inv_l in Hsyms as (kn & rest & Hk & Hrest & ->).
    simpl in Hlen.
    destruct (lookup_lt_is_Some_2 args off) as [a Ha]; [lia |].
    set (fr1 := mkEnvironment (<[code kn := a]> (env fr)) (outer fr)).
    set (s1 := with_envs (<[local := fr1]> (envs s)) s).
    assert (Hstep : (kn0 <- deref k ;;
                     a0 <- index args off ;;
                     bind_in local (code kn0) a0) s = Ok (tt, s1)).
    { rewrite (bind_ok _ _ _ _ _ (deref_ok _ _ _ Hk)).
      rewrite (bind_ok _ _ _ _ _ (index_ok _ _ _ _ Ha)).
      apply bind_in_ok. exact Hfr. }
    assert (Hlt : (local < length (envs s))%nat)
      by (eapply lookup_lt_Some; eauto).
    assert (Hfr1 : envs s1 !! local = Some fr1)
      by (apply list_lookup_insert_eq; exact Hlt).
    cbn [imap iterM]. rewrite Nat.add_0_r.
    rewrite (bind_ok _ _ _ _ _ Hstep).
    unfold compose.
    rewrite (imap_ext _ (fun i k0 => ((S off + i)%nat, k0)))
      by (intros i x _; simpl; f_equal; lia).
    rewrite (IH rest (S off) s1 fr1 Hrest ltac:(lia) Hfr1).
    f_equal. f_equal. unfold s1. simpl.
    rewrite list_insert_insert_eq.
    rewrite (drop_S args a off Ha). unfold bind_all. simpl. reflexivity.
Qed.

Lemma apply_closure (k : nat) (func : snode)
  (args : list snode) (e0 : senvironment) (s : state) (fd pn : Node)
  (p : snode) (symnodes : list Node) :
  heap s !! func = Some fd -> type fd = T_FN ->
  v_list fd !! 1%nat = Some p -> heap s !! p = Some pn ->
  Forall2 (fun sym sn => heap s !! sym = Some sn) (v_list pn) symnodes ->
  (length (v_list pn) <= length args)%nat ->
  apply (S k) func args e0 s =
    run_body (eval k) func (length (envs s))
      (with_envs (envs s ++ [mkEnvironment (bind_all symnodes args ∅)
                                (outer_env fd)]) s).
Proof.
  intros Hf Ht Hp Hpn Hsyms Hlen.
  rewrite (apply_fn_fresh_frame k func args e0 s fd pn p Hf Ht Hp Hpn).
  set (s0 := with_envs (envs s ++ [mkEnvironment ∅ (outer_env fd)]) s).
  assert (Hfr : envs s0 !! length (envs s)
                = Some (mkEnvironment ∅ (outer_env fd)))
    by (apply list_lookup_middle; reflexivity).
  unfold bind_parameters.
  rewrite (bind_ok _ _ _ _ _
             (bind_parameters_from args (length (envs s)) (v_list pn)
                symnodes 0 s0 (mkEnvironment ∅ (outer_env fd)) Hsyms
                ltac:(simpl; lia) Hfr)).
  unfold s0, with_envs. simpl.
  rewrite insert_app_r_alt by lia. rewrite Nat.sub_diag. reflexivity.
Qed.

(** Evaluating [(def SYM V)] in a frame [e] evaluates [V], copies the
    value into a fresh cell and binds [SYM] to it in frame [e] only.
    Relative to the state in which the evaluation of [V] ended, frame [e]
    differs in the binding of [SYM] alone, every other frame is the same
    frame, no existing cell changes, and lookup from any older frame
    returns what it returned before. *)
Lemma def_in_frame (k : nat) (n : snode)
  (e : senvironment) (s s1 : state) (nd dn symn vn : Node)
  (h d sym vexp v : snode) (rest : list snode) (fr : environment) :
  heap s !! n = Some nd -> type nd = T_LIST ->
  v_list nd = h :: sym :: vexp :: rest ->
  eval k h e s = Ok (d, s) ->
  heap s !! d = Some dn -> type dn = T_SPECIAL ->
  v_builtin dn = Some Fn.special_def ->
  eval k vexp e s = Ok (v, s1) ->
  heap s1 !! v = Some vn ->
  heap s1 !! n = Some nd ->
  heap s1 !! sym = Some symn ->
  envs s1 !! e = Some fr ->
  envs_wf (envs s1) ->
  exists value s',
    eval (S k) n e s = Ok (value, s')
    /\ heap s' = heap s1 ++ [vn] /\ value = length (heap s1)
    /\ (exists fr',
          envs s' !! e = Some fr'
          /\ env fr' !! code symn = Some value
          /\ outer fr' = outer fr
          /\ forall c, c <> code symn -> env fr' !! c = env fr !! c)
    /\ (forall e', e' <> e -> envs s' !! e' = envs s1 !! e')
    /\ (forall a x, heap s1 !! a = Some x -> heap s' !! a = Some x)
    /\ (forall o c, (o < e)%nat -> get s' o c = get s1 o c).
Proof.
  intros Hn Ht Hl Hh Hd Hdt Hf Hv Hvn Hn1 Hsym Hfr Hwf.
  assert (He : (e < length (envs s1))%nat) by (eapply lookup_lt_Some; eauto).
  eexists _, _. split.
  { rewrite (eval_special_form k n e s nd dn h d _ _ Hn Ht Hl Hh Hd Hdt Hf).
    apply (special_def_runs k n e s s1 nd symn vn sym vexp v fr);
      try assumption; rewrite Hl; reflexivity. }
  simpl. split; [reflexivity |]. split; [reflexivity |].
  split.
  { eexists. split; [apply list_lookup_insert_eq; exact He |]. simpl.
    split; [apply lookup_insert_eq |]. split; [reflexivity |].
    intros c Hc. apply lookup_insert_ne. congruence. }
  split; [intros e' He'; apply list_lookup_insert_ne; congruence |].
  split; [intros a x Ha; apply lookup_snoc_old; exact Ha |].
  intros o c Ho.
  apply (get_older_frame (with_heap (heap s1 ++ [vn]) s1) e o c _ Hwf Ho).
Qed.

Lemma sample_envs_wf : envs_wf (envs sample_state).
Proof.
  intros e f o Hf Ho.
  destruct e as [| [| e]]; vm_compute in Hf; try discriminate Hf;
    injection Hf as <-; [discriminate Ho | injection Ho as <-; lia].
Qed.

Lemma def_in_frame_witness :
  eval 1 7%nat 1%nat sample_state = Ok (5%nat, sample_state)
  /\ exists value s',
       eval 2 12%nat 1%nat sample_state = Ok (value, s')
       /\ heap s' = heap sample_state ++ [Node_int 5]
       /\ envs s' !! 0%nat = envs sample_state !! 0%nat
       /\ get s' 0%nat 2%N = get sample_state 0%nat 2%N.
Proof.
  split; [reflexivity |].
  destruct (def_in_frame 1 12%nat 1%nat sample_state
              sample_state (Node_list [7; 9; 10]%nat)
              (with_u (Fn.address Fn.special_def) (with_type T_SPECIAL Node_nil))
              (mkNode T_SYMBOL 2 "x" [] None) (Node_int 5)
              7%nat 5%nat 9%nat 10%nat 10%nat []
              (mkEnvironment ∅ (Some 0%nat))
              eq_refl eq_refl eq_refl eq_refl eq_refl eq_refl eq_refl eq_refl
              eq_refl eq_refl eq_refl eq_refl sample_envs_wf)
    as (value & s' & Hrun & Hheap & _ & _ & Hframes & _ & Hget).
  exists value, s'.
  split; [exact Hrun |]. split; [exact Hheap |].
  split; [apply Hframes; discriminate | apply Hget; lia].
Defined.

Example def_in_function_body_is_local :
  repl_line "(def x 10) ((fn () (def x 5) x)) x" = Ok ("10 : int" +:+ newline)
  /\ repl_line "(def x 10) ((fn () (def x 5) x))" = Ok ("5 : int" +:+ newline).
Proof. vm_compute. split; reflexivity. Qed.

Lemma forms_run_app (ev : snode -> senvironment -> M snode)
  (env : senvironment) (func : snode) (fd : Node) (l1 l2 : list snode) :
  forall s s1 s2,
    forms_run ev env func fd l1 s s1 -> forms_run ev env func fd l2 s1 s2 ->
    forms_run ev env func fd (l1 ++ l2) s s2.
Proof.
  induction l1 as [| b l1 IH]; intros s s1 s2 H1 H2.
  - simpl in H1. subst s1. exact H2.
  - destruct H1 as (x & sa & Hb & Hf & Hrest).
    exists x, sa. split; [exact Hb |]. split; [exact Hf |].
    exact (IH sa s1 s2 Hrest H2).
Qed.

(** The "body" loop of [apply] over the forms before the last one. *)
Lemma body_loop_runs (ev : snode -> senvironment -> M snode)
  (env : senvironment) (func : snode) (fd : Node) :
  forall (forms : list snode) (before after : list snode) (s s' : state),
    v_list fd = before ++ forms ++ after ->
    heap s !! func = Some fd ->
    forms_run ev env func fd forms s s' ->
    iterM (fun i =>
             fd <- deref func ;;
             b <- at_ (v_list fd) i ;;
             ev b env ;;;
             ret tt)
          (seq (length before) (length forms)) s
    = Ok (tt, s').
Proof.
  induction forms as [| b forms IH]; intros before after s s' Hl Hf Hrun.
  - simpl in Hrun. subst s'. reflexivity.
  - destruct Hrun as (x & s1 & Hb & Hf1 & Hrest).
    cbn [length seq iterM].
    assert (Hat : v_list fd !! length before = Some b).
    { rewrite Hl. apply list_lookup_middle. reflexivity. }
    assert (Hstep : (fd0 <- deref func ;;
                     b0 <- at_ (v_list fd0) (length before) ;;
                     ev b0 env ;;; ret tt) s = Ok (tt, s1)).
    { rewrite (bind_ok _ _ _ _ _ (deref_ok s func fd Hf)).
      rewrite (bind_ok _ _ _ _ _ (at_ok (v_list fd) _ b s Hat)).
      rewrite (bind_ok _ _ _ _ _ Hb). reflexivity. }
    rewrite (bind_ok _ _ _ _ _ Hstep).
    replace (S (length before)) with (length (before ++ [b]))
      by (rewrite length_app; simpl; lia).
    apply (IH (before ++ [b]) after s1 s'); [| exact Hf1 | exact Hrest].
    rewrite Hl, <- app_assoc. reflexivity.
Qed.

(** A body of forms [l] followed by a last form [b]: [l] is evaluated,
    and the result is what [b] evaluates to. *)
Lemma run_body_forms (ev : snode -> senvironment -> M snode)
  (env : senvironment) (func f0 p : snode) (fd : Node) (l : list snode)
  (b : snode) (s sa : state) :
  heap s !! func = Some fd -> v_list fd = f0 :: p :: l ++ [b] ->
  forms_run ev env func fd l s sa -> heap sa !! func = Some fd ->
  run_body ev func env s = ev b env sa.
Proof.
  intros Hf Hl Hrun Hfa. unfold run_body, raw_size.
  rewrite (bind_ok _ _ _ _ _
             (bind_ok _ _ _ _ _ (deref_ok s func fd Hf))).
  unfold ret at 1.
  assert (Hlen : length (v_list fd) = (3 + length l)%nat).
  { rewrite Hl. simpl. rewrite length_app. simpl. lia. }
  rewrite Hlen.
  replace (3 + length l - 1)%nat with (2 + length l)%nat by lia.
  destruct (Nat.ltb_spec (2 + length l) 2) as [Hlt | _]; [lia |].
  replace (2 + length l - 2)%nat with (length l) by lia.
  rewrite (bind_ok _ _ _ _ _
             (body_loop_runs ev env func fd l [f0; p] [b] s sa Hl Hf Hrun)).
  assert (Hat : v_list fd !! (2 + length l)%nat = Some b).
  { rewrite Hl. change (f0 :: p :: l ++ [b]) with ([f0; p] ++ (l ++ [b])).
    rewrite lookup_app_r by (simpl; lia).
    change (length [f0; p]) with 2%nat.
    replace (2 + length l - 2)%nat with (length l) by lia.
    apply list_lookup_middle. reflexivity. }
  rewrite (bind_ok _ _ _ _ _ (raw_arg_ok _ _ _ _ _ Hfa Hat)).
  reflexivity.
Qed.

Lemma forms_run_keeps (ev : snode -> senvironment -> M snode)
  (env : senvironment) (func : snode) (fd : Node) (forms : list snode) :
  forall s s', heap s !! func = Some fd ->
    forms_run ev env func fd forms s s' -> heap s' !! func = Some fd.
Proof.
  induction forms as [| b forms IH]; intros s s' Hf Hrun.
  - simpl in Hrun. subst s'. exact Hf.
  - destruct Hrun as (x & s1 & _ & Hf1 & Hrest). exact (IH s1 s' Hf1 Hrest).
Qed.

(** C7. A [def] executed by the application of a function binds in the
    frame of that application only. [apply] creates a new frame [L], none
    of the frames that existed before the call, links it to the frame the
    function captured, and evaluates the body forms in it. When a body form
    is [(def SYM V)], its evaluation copies the value of [V] into a fresh
    cell and binds [SYM] to it in [L]: afterwards lookup of [SYM] from [L]
    yields the copy, while every other frame is the frame it was and lookup
    of any symbol from any older frame, the global frame and the frames of
    the captured chain included, yields what it did before the [def]. No
    existing cell changes. The application then goes on with the forms
    after the [def], or returns the copy when the [def] is the last
    form. *)
Theorem def_in_a_function_body_binds_in_its_frame
  (k : nat) (func : snode) (args : list snode) (e0 : senvironment)
  (s sa s1 : state) (fd pn nd dn symn vn : Node)
  (f0 p n h d sym vexp v : snode) (symnodes : list Node)
  (pre post rest : list snode) (fr : environment) :
  heap s !! func = Some fd -> type fd = T_FN ->
  v_list fd = f0 :: p :: pre ++ n :: post ->
  heap s !! p = Some pn ->
  Forall2 (fun a sn => heap s !! a = Some sn) (v_list pn) symnodes ->
  (length (v_list pn) <= length args)%nat ->
  let L := length (envs s) in
  let s0 := with_envs (envs s ++ [mkEnvironment (bind_all symnodes args ∅)
                                     (outer_env fd)]) s in
  forms_run (eval (S k)) L func fd pre s0 sa ->
  heap sa !! n = Some nd -> type nd = T_LIST ->
  v_list nd = h :: sym :: vexp :: rest ->
  eval k h L sa = Ok (d, sa) ->
  heap sa !! d = Some dn -> type dn = T_SPECIAL ->
  v_builtin dn = Some Fn.special_def ->
  eval k vexp L sa = Ok (v, s1) ->
  heap s1 !! v = Some vn ->
  heap s1 !! n = Some nd ->
  heap s1 !! sym = Some symn ->
  heap s1 !! func = Some fd ->
  envs s1 !! L = Some fr ->
  envs_wf (envs s1) ->
  exists value s',
    eval (S k) n L sa = Ok (value, s')
    /\ (post = [] -> apply (S (S k)) func args e0 s = Ok (value, s'))
    /\ (forall post' b sb, post = post' ++ [b] ->
          forms_run (eval (S k)) L func fd post' s' sb ->
          apply (S (S k)) func args e0 s = eval (S k) b L sb)
    /\ envs s !! L = None
    /\ value = length (heap s1) /\ heap s' = heap s1 ++ [vn]
    /\ (exists fr',
          envs s' !! L = Some fr'
          /\ env fr' !! code symn = Some value
          /\ outer fr' = outer fr
          /\ forall c, c <> code symn -> env fr' !! c = env fr !! c)
    /\ get s' L (code symn) = value
    /\ (forall e, e <> L -> envs s' !! e = envs s1 !! e)
    /\ (forall o c, (o < L)%nat -> get s' o c = get s1 o c)
    /\ (forall a x, heap s1 !! a = Some x -> heap s' !! a = Some x).
Proof.
  intros Hf Ht Hl Hp Hsyms Hlen L s0 Hpre Hn Hnt Hnl Hh Hd Hdt Hdf Hv Hvn
    Hn1 Hsym Hf1 Hfr Hwf.
  destruct (def_in_frame k n L sa s1 nd dn symn vn h d sym vexp v rest fr
              Hn Hnt Hnl Hh Hd Hdt Hdf Hv Hvn Hn1 Hsym Hfr Hwf)
    as (value & s' & Hrun & Hheap & Hval & Hframe & Hothers & Hcells & Hget).
  assert (Hp1 : v_list fd !! 1%nat = Some p) by (rewrite Hl; reflexivity).
  assert (Happ : apply (S (S k)) func args e0 s
                 = run_body (eval (S k)) func L s0)
    by exact (apply_closure (S k) func args e0 s fd pn p symnodes
                Hf Ht Hp1 Hp Hsyms Hlen).
  assert (Hf0 : heap s0 !! func = Some fd) by exact Hf.
  assert (Hfa : heap sa !! func = Some fd)
    by exact (forms_run_keeps _ _ _ _ _ _ _ Hf0 Hpre).
  assert (Hf' : heap s' !! func = Some fd) by (apply Hcells; exact Hf1).
  exists value, s'. split; [exact Hrun |].
  split.
  { intros ->. rewrite Happ.
    rewrite (run_body_forms (eval (S k)) L func f0 p fd pre n s0 sa
               Hf0 Hl Hpre Hfa).
    exact Hrun. }
  split.
  { intros post' b sb -> Hpost. rewrite Happ.
    assert (Hl' : v_list fd = f0 :: p :: (pre ++ n :: post') ++ [b]).
    { rewrite Hl, <- app_assoc. reflexivity. }
    assert (Hall : forms_run (eval (S k)) L func fd (pre ++ n :: post')
                     s0 sb).
    { apply (forms_run_app _ _ _ _ pre (n :: post') s0 sa sb Hpre).
      exists value, s'. split; [exact Hrun |]. split; [exact Hf' |].
      exact Hpost. }
    apply (run_body_forms (eval (S k)) L func f0 p fd _ b s0 sb
             Hf0 Hl' Hall).
    exact (forms_run_keeps _ _ _ _ _ _ _ Hf0 Hall). }
  split; [apply lookup_ge_None_2; unfold L; lia |].
  split; [exact Hval |]. split; [exact Hheap |].
  split; [exact Hframe |].
  split.
  { destruct Hframe as (fr' & Hfr' & Hb & Ho & _).
    assert (Hwf' : envs_wf (envs s')).
    { intros e f o Hef Hout.
      destruct (decide (e = L)) as [-> | Hne].
      - rewrite Hfr' in Hef. injection Hef as <-. rewrite Ho in Hout.
        exact (Hwf L fr o Hfr Hout).
      - rewrite (Hothers e Hne) in Hef. exact (Hwf e f o Hef Hout). }
    rewrite (get_unfold s' L (code symn) Hwf'), Hfr', Hb. reflexivity. }
  split; [exact Hothers |].
  split; [exact Hget | exact Hcells].
Qed.

Lemma def_in_a_function_body_binds_in_its_frame_witness :
  let s :=
    mkState
      (heap sample_state ++
       [Node_list []; mkNode T_SYMBOL 3 "fn" [] None;
        mkNode T_FN 0 EmptyString [15; 14; 12; 9]%nat (Some 1%nat)])
      [mkEnvironment {[0%N := 5%nat; 1%N := 6%nat; 2%N := 11%nat]} None;
       mkEnvironment ∅ (Some 0%nat)]
      (Some 0%nat) (<["fn" := 3%N]> (symcode sample_state))
      (symname sample_state ++ ["fn"]) ∅ EmptyString in
  get s 0%nat 2%N = 11%nat
  /\ heap s !! 11%nat = Some (Node_int 7)
  /\ exists value s',
       apply 3 16%nat [] 0%nat s = Ok (value, s')
       /\ heap s' !! value = Some (Node_int 5)
       /\ get s' 2%nat 2%N = value
       /\ get s' 0%nat 2%N = 11%nat
       /\ get s' 1%nat 2%N = 11%nat
       /\ heap s' !! 11%nat = Some (Node_int 7).
Proof.
  intros s.
  split; [reflexivity |]. split; [reflexivity |].
  set (s0 := with_envs (envs s ++ [mkEnvironment ∅ (Some 1%nat)]) s).
  assert (Hwf : envs_wf (envs s0)).
  { intros e f o Hf Ho.
    destruct e as [| [| [| e]]]; vm_compute in Hf; try discriminate Hf;
      injection Hf as <-; first [discriminate Ho | injection Ho as <-; lia]. }
  destruct (def_in_a_function_body_binds_in_its_frame
              1 16%nat [] 0%nat s s0 s0
              (mkNode T_FN 0 EmptyString [15; 14; 12; 9]%nat (Some 1%nat))
              (Node_list []) (Node_list [7; 9; 10]%nat)
              (with_u (Fn.address Fn.special_def)
                 (with_type T_SPECIAL Node_nil))
              (mkNode T_SYMBOL 2 "x" [] None) (Node_int 5)
              15%nat 14%nat 12%nat 7%nat 5%nat 9%nat 10%nat 10%nat
              [] [] [9%nat] [] (mkEnvironment ∅ (Some 1%nat))
              eq_refl eq_refl eq_refl eq_refl ltac:(constructor)
              ltac:(simpl; lia) eq_refl eq_refl eq_refl eq_refl eq_refl
              eq_refl eq_refl eq_refl eq_refl eq_refl eq_refl eq_refl
              eq_refl eq_refl Hwf)
    as (value & s' & Hrun & _ & Hrest & _ & Hval & Hheap & _ & Hloc & _
        & Hget & Hcells).
  exists value, s'.
  assert (Hx : heap s' !! 9%nat = Some (mkNode T_SYMBOL 2 "x" [] None))
    by (apply Hcells; reflexivity).
  split.
  { rewrite (Hrest [] 9%nat s' eq_refl eq_refl).
    change (eval 2 9%nat 2%nat s' = Ok (value, s')).
    rewrite (eval_symbol 1 s' 9%nat _ 2%nat Hx eq_refl).
    change (code (mkNode T_SYMBOL 2 "x" [] None)) with 2%N.
    f_equal. f_equal. exact Hloc. }
  split.
  { rewrite Hheap, Hval. apply list_lookup_middle. reflexivity. }
  split; [exact Hloc |].
  split; [rewrite (Hget 0%nat 2%N ltac:(simpl; lia)); reflexivity |].
  split; [rewrite (Hget 1%nat 2%N ltac:(simpl; lia)); reflexivity |].
  apply Hcells. reflexivity.
Defined.

Lemma assign_ok (s : state) (a : snode) (n : Node) :
  assign a n s = Ok (tt, with_heap (<[a := n]> (heap s)) s).
Proof. reflexivity. Qed.

(** C9. [(set SYM-OR-PLACE V)] evaluates the first operand, then the
    second, and copies the value of the second into a fresh cell. If the
    first operand is a symbol and its evaluation returned [nil] (the
    object lookup returns for an unbound symbol), the symbol is bound to
    the copy in the current frame. Otherwise the cell the first operand
    evaluated to is overwritten with the value: no frame changes, so no
    binding is created and every binding that refers to that cell now
    finds the new value there. *)
Theorem set_binds_or_overwrites (k : nat) (n : snode) (e : senvironment)
  (s s1 s2 : state) (nd dn a1n vn : Node) (h d a1 a2 var v : snode)
  (rest : list snode) :
  heap s !! n = Some nd -> type nd = T_LIST ->
  v_list nd = h :: a1 :: a2 :: rest ->
  eval k h e s = Ok (d, s) ->
  heap s !! d = Some dn -> type dn = T_SPECIAL ->
  v_builtin dn = Some Fn.special_set ->
  eval k a1 e s = Ok (var, s1) ->
  heap s1 !! n = Some nd ->
  eval k a2 e s1 = Ok (v, s2) ->
  heap s2 !! n = Some nd ->
  heap s2 !! v = Some vn ->
  heap s2 !! a1 = Some a1n ->
  let value := length (heap s2) in
  let s3 := with_heap (heap s2 ++ [vn]) s2 in
  (type a1n = T_SYMBOL -> var = node_nil ->
   forall fr, envs s2 !! e = Some fr ->
     eval (S k) n e s =
       Ok (value,
           with_envs (<[e := mkEnvironment (<[code a1n := value]> (env fr))
                                (outer fr)]> (envs s2)) s3))
  /\ (~ (type a1n = T_SYMBOL /\ var = node_nil) ->
      forall old, heap s2 !! var = Some old ->
        exists s',
          eval (S k) n e s = Ok (var, s')
          /\ heap s' = <[var := vn]> (heap s2 ++ [vn])
          /\ envs s' = envs s2
          /\ heap s' !! var = Some vn
          /\ (forall a, a <> var -> heap s' !! a = (heap s2 ++ [vn]) !! a)
          /\ (forall e' c, get s' e' c = get s2 e' c)
          /\ (forall e' c, get s2 e' c = var ->
                heap s' !! get s' e' c = Some vn)).
Proof.
  intros Hn Ht Hl Hh Hd Hdt Hf Hvar Hn1 Hv Hn2 Hvn Ha1 value s3.
  assert (H1 : v_list nd !! 1%nat = Some a1) by (rewrite Hl; reflexivity).
  assert (H2 : v_list nd !! 2%nat = Some a2) by (rewrite Hl; reflexivity).
  assert (Hn3 : heap s3 !! n = Some nd) by (apply lookup_snoc_old, Hn2).
  assert (Ha3 : heap s3 !! a1 = Some a1n) by (apply lookup_snoc_old, Ha1).
  assert (Hval : heap s3 !! value = Some vn).
  { unfold s3, value. simpl. apply list_lookup_middle. reflexivity. }
  assert (Hrun : eval (S k) n e s =
    (if bool_decide (type a1n = T_SYMBOL) && bool_decide (var = node_nil)
     then set e a1 value
     else vn' <- deref value ;; assign var vn' ;;; ret var) s3).
  { rewrite (eval_special_form k n e s nd dn h d _ _ Hn Ht Hl Hh Hd Hdt Hf).
    simpl. unfold special_set.
    rewrite (bind_ok _ _ _ _ _ (raw_arg_ok _ _ _ _ _ Hn H1)).
    rewrite (bind_ok _ _ _ _ _ Hvar).
    rewrite (bind_ok _ _ _ _ _ (raw_arg_ok _ _ _ _ _ Hn1 H2)).
    rewrite (bind_ok _ _ _ _ _ Hv).
    rewrite (bind_ok _ _ _ _ _ (clone_ok _ _ _ Hvn)).
    fold s3. fold value.
    rewrite (bind_ok _ _ _ _ _ (raw_arg_ok _ _ _ _ _ Hn3 H1)).
    rewrite (bind_ok _ _ _ _ _ (deref_ok _ _ _ Ha3)).
    reflexivity. }
  split.
  - intros Hsym Hnil fr Hfr. rewrite Hrun.
    rewrite !bool_decide_eq_true_2 by assumption. simpl.
    apply (set_ok s3 e a1 value a1n fr Ha3 Hfr).
  - intros Hnot old Hold.
    assert (Hlt : (var < length (heap s2 ++ [vn]))%nat).
    { rewrite length_app. apply lookup_lt_Some in Hold. lia. }
    exists (with_heap (<[var := vn]> (heap s3)) s3). split.
    { rewrite Hrun.
      assert (Hb : bool_decide (type a1n = T_SYMBOL)
                   && bool_decide (var = node_nil) = false).
      { apply andb_false_iff.
        destruct (decide (type a1n = T_SYMBOL)) as [Hy | Hy].
        - right. apply bool_decide_eq_false_2. tauto.
        - left. apply bool_decide_eq_false_2. exact Hy. }
      rewrite Hb.
      rewrite (bind_ok _ _ _ _ _ (deref_ok _ _ _ Hval)).
      rewrite (bind_ok _ _ _ _ _ (assign_ok _ _ _)). reflexivity. }
    split; [reflexivity |]. split; [reflexivity |].
    split; [apply list_lookup_insert_eq; exact Hlt |].
    split; [intros a Ha; apply list_lookup_insert_ne; congruence |].
    split; [reflexivity |].
    intros e' c Hg.
    replace (get (with_heap (<[var:=vn]> (heap s3)) s3) e' c) with var
      by (rewrite <- Hg; reflexivity).
    apply list_lookup_insert_eq. exact Hlt.
Qed.

Lemma set_binds_or_overwrites_witness :
  eval 1 9%nat 1%nat sample_state = Ok (node_nil, sample_state)
  /\ eval 2 13%nat 1%nat sample_state =
       Ok (14%nat,
           with_envs (<[1%nat := mkEnvironment (<[2%N := 14%nat]> ∅)
                                   (Some 0%nat)]> (envs sample_state))
             (with_heap (heap sample_state ++ [Node_int 5]) sample_state)).
Proof.
  split; [reflexivity |].
  exact (proj1 (set_binds_or_overwrites 1 13%nat 1%nat sample_state
                  sample_state sample_state (Node_list [8; 9; 10]%nat)
                  (with_u (Fn.address Fn.special_set)
                     (with_type T_SPECIAL Node_nil))
                  (mkNode T_SYMBOL 2 "x" [] None) (Node_int 5)
                  8%nat 6%nat 9%nat 10%nat node_nil 10%nat []
                  eq_refl eq_refl eq_refl eq_refl eq_refl eq_refl eq_refl
                  eq_refl eq_refl eq_refl eq_refl eq_refl eq_refl)
           eq_refl eq_refl (mkEnvironment ∅ (Some 0%nat)) eq_refl).
Defined.

(** C9, at a symbol that is bound to a value which is nil. [(def x nil)]
    binds [x], in the global frame, to a copy of [nil]: inside a function
    the lookup of [x] yields a value of type nil. That value is not the
    object [nil] itself, which is what [set] compares with, so
    [(set x 5)] in the function body creates no binding in the function's
    frame: it overwrites the cell the global binding refers to, and the
    global [x] is 5 afterwards. Where the symbol is bound in no frame, the
    binding is created in the function's frame and is gone with it. *)
Lemma set_overwrites_a_symbol_bound_to_a_nil_value :
  value_of "(def x nil) ((fn () x))" = Ok Node_nil
  /\ repl_line "(def x nil) ((fn () (type x)))"
       = Ok ("nil : std::string" +:+ newline)
  /\ repl_line "(def x nil) ((fn () (set x 5))) x" = Ok ("5 : int" +:+ newline)
  /\ repl_line "((fn () (set x 5))) x" = Ok (" : nil" +:+ newline).
Proof. vm_compute. repeat split; reflexivity. Qed.

Example set_overwrites_shared_value :
  repl_line "(def xs (list 1 2)) ((fn (l) (set l 5)) xs) xs"
    = Ok ("5 : int" +:+ newline)
  /\ repl_line "(def x 10) ((fn () (set x 5))) x" = Ok ("5 : int" +:+ newline)
  /\ repl_line "((fn () (set y 5))) y" = Ok (" : nil" +:+ newline).
Proof. vm_compute. repeat split; reflexivity. Qed.

(** ** The compile pass *)

Lemma tree_ind (P : tree -> Prop) :
  (forall root kids, Forall P kids -> P (Tree root kids)) ->
  forall t, P t.
Proof.
  intros H. fix IH 1. intros [root kids]. apply H.
  induction kids as [| k kids IHk]; constructor; [apply IH | exact IHk].
Qed.

Lemma denotes_unfold (h : list Node) (a : snode) (t : tree) :
  denotes h a t <->
  exists nd, h !! a = Some nd /\ label nd = t_root t
             /\ Forall2 (denotes h) (v_list nd) (t_kids t).
Proof.
  destruct t as [root kids]. simpl.
  assert (Hall : forall l,
    (fix all (l : list nat) (ks : list tree) {struct ks} : Prop :=
       match l, ks with
       | [], [] => True
       | a' :: l', k :: ks' => denotes h a' k /\ all l' ks'
       | _, _ => False
       end) l kids <-> Forall2 (denotes h) l kids).
  { induction kids as [| k kids IH]; intros [| x l]; split; intros H.
    - constructor.
    - exact I.
    - destruct H.
    - inversion H.
    - destruct H.
    - inversion H.
    - destruct H as [H1 H2]. constructor; [exact H1 | apply IH; exact H2].
    - inversion H; subst. split; [assumption | apply IH; assumption]. }
  split; intros (nd & H1 & H2 & H3); exists nd; repeat split;
    try assumption; apply Hall; exact H3.
Qed.

Lemma label_type (n : Node) : type (label n) = type n.
Proof. reflexivity. Qed.

Lemma label_v_string (n : Node) : v_string (label n) = v_string n.
Proof. reflexivity. Qed.

Lemma denotes_mono (h h' : list Node) :
  h `prefix_of` h' -> forall t a, denotes h a t -> denotes h' a t.
Proof.
  intros Hp t. induction t as [root kids IH] using tree_ind.
  intros a Ha. apply denotes_unfold in Ha as (nd & H1 & H2 & H3).
  apply denotes_unfold. exists nd.
  split; [eapply prefix_lookup_Some; eauto |]. split; [exact H2 |].
  simpl in *. clear H1 H2.
  induction H3 as [| x k l ks Hx _ IHl]; constructor.
  - inversion IH; subst. auto.
  - inversion IH; subst. auto.
Qed.

Lemma Forall2_denotes_mono (h h' : list Node) (l : list snode)
  (ts : list tree) :
  h `prefix_of` h' -> Forall2 (denotes h) l ts -> Forall2 (denotes h') l ts.
Proof.
  intros Hp H. eapply Forall2_impl; [exact H |].
  intros a t. apply denotes_mono. exact Hp.
Qed.

Lemma vars_denote_mono (h h' : list Node) (V : gmap string snode)
  (W : gmap string tree) :
  h `prefix_of` h' -> vars_denote h V W -> vars_denote h' V W.
Proof.
  intros Hp H name. specialize (H name).
  destruct H; constructor. eapply denotes_mono; eauto.
Qed.

Lemma table_denotes_mono (h h' : list Node)
  (table : gmap string (list snode)) (T : gmap string (list tree)) :
  h `prefix_of` h' -> table_denotes h table T -> table_denotes h' table T.
Proof.
  intros Hp H name. specialize (H name).
  destruct H; constructor. eapply Forall2_denotes_mono; eauto.
Qed.

Lemma vars_denote_insert (h : list Node) (V : gmap string snode)
  (W : gmap string tree) (name : string) (a : snode) (t : tree) :
  vars_denote h V W -> denotes h a t ->
  vars_denote h (<[name := a]> V) (<[name := t]> W).
Proof.
  intros H Ha x. destruct (decide (name = x)) as [-> | Hne].
  - rewrite !lookup_insert_eq. constructor. exact Ha.
  - rewrite !lookup_insert_ne by exact Hne. apply H.
Qed.

Lemma denotes_new_list (h : list Node) (l : list snode) (ts : list tree) :
  Forall2 (denotes h) l ts ->
  denotes (h ++ [Node_list l]) (length h) (tree_list ts).
Proof.
  intros H. apply denotes_unfold. exists (Node_list l).
  split; [apply list_lookup_middle; reflexivity |].
  split; [reflexivity |]. simpl.
  eapply Forall2_denotes_mono; [| exact H]. apply prefix_app_r. reflexivity.
Qed.

Lemma view_denotes (depth : nat) (h : list Node) :
  forall a t, view depth h a = Some t -> denotes h a t.
Proof.
  induction depth as [| d IH]; intros a t H; [discriminate H |].
  simpl in H. destruct (h !! a) as [nd |] eqn:Hnd; [| discriminate H].
  destruct (mapO (view d h) (v_list nd)) as [kids |] eqn:Hk;
    [| discriminate H].
  injection H as <-. apply denotes_unfold. exists nd.
  split; [exact Hnd |]. split; [reflexivity |]. simpl.
  clear Hnd. revert kids Hk.
  induction (v_list nd) as [| x l IHl]; intros kids Hk; simpl in Hk.
  - injection Hk as <-. constructor.
  - destruct (view d h x) as [y |] eqn:Hy; [| discriminate Hk].
    destruct (mapO (view d h) l) as [ys |]; [| discriminate Hk].
    injection Hk as <-. constructor; [apply IH; exact Hy | apply IHl; reflexivity].
Qed.

(** Composition of refinements. *)

Lemma refines_bind {A B A' B' : Type} (R : state -> A -> A' -> Prop)
  (R' : state -> B -> B' -> Prop) (m : M A) (r : result A')
  (f : A -> M B) (f' : A' -> result B') (s : state) :
  refines R m r s ->
  (forall a a' s', R s' a a' -> heap s `prefix_of` heap s' ->
     refines R' (f a) (f' a') s') ->
  refines R' (bind m f) (rbind r f') s.
Proof.
  intros Hm Hf. destruct r as [a' | e]; unfold refines in Hm; cbn [rbind].
  - destruct Hm as (a & s' & Hrun & Hp & HR).
    specialize (Hf a a' s' HR Hp). unfold refines in *.
    rewrite (bind_ok _ _ _ _ _ Hrun).
    destruct (f' a') as [b' | e].
    + destruct Hf as (b & s'' & Hrun' & Hp' & HR').
      exists b, s''. split; [exact Hrun' |].
      split; [etrans; eauto | exact HR'].
    + exact Hf.
  - apply bind_crash. exact Hm.
Qed.

Lemma refines_ret {A B : Type} (R : state -> A -> B -> Prop) (a : A)
  (b : B) (s : state) :
  R s a b -> refines R (ret a) (Ok b) s.
Proof. intros H. exists a, s. split; [reflexivity |]. split; [reflexivity | exact H]. Qed.

Lemma refines_step {A B C : Type} (R : state -> B -> C -> Prop) (m : M A)
  (f : A -> M B) (r : result C) (s : state) (a : A) :
  m s = Ok (a, s) -> refines R (f a) r s -> refines R (bind m f) r s.
Proof.
  intros Hm Hf. unfold refines in *. rewrite (bind_ok _ _ _ _ _ Hm). exact Hf.
Qed.

Lemma refines_make_list (table : gmap string (list snode)) (s : state)
  (l : list snode) (ts : list tree) :
  same_trees table s l ts ->
  refines (same_tree table) (make_shared (Node_list l)) (Ok (tree_list ts)) s.
Proof.
  intros [H Hm]. eexists _, _. split; [reflexivity |]. simpl.
  split; [apply prefix_app_r; reflexivity |].
  split; [apply denotes_new_list; exact H | exact Hm].
Qed.

Lemma same_tree_inv (table : gmap string (list snode)) (s : state)
  (a : snode) (t : tree) :
  same_tree table s a t ->
  exists nd, heap s !! a = Some nd
             /\ type nd = type (t_root t)
             /\ v_string nd = v_string (t_root t)
             /\ same_trees table s (v_list nd) (t_kids t).
Proof.
  intros [Hd Hm]. apply denotes_unfold in Hd as (nd & H1 & H2 & H3).
  exists nd. rewrite <- H2. repeat split; assumption.
Qed.

Lemma same_tree_mono (table : gmap string (list snode)) (s s' : state)
  (a : snode) (t : tree) :
  heap s `prefix_of` heap s' -> macros s' = table ->
  same_tree table s a t -> same_tree table s' a t.
Proof.
  intros Hp Hm [H _]. split; [eapply denotes_mono; eauto | exact Hm].
Qed.

Lemma same_trees_mono (table : gmap string (list snode)) (s s' : state)
  (l : list snode) (ts : list tree) :
  heap s `prefix_of` heap s' -> macros s' = table ->
  same_trees table s l ts -> same_trees table s' l ts.
Proof.
  intros Hp Hm [H _]. split; [eapply Forall2_denotes_mono; eauto | exact Hm].
Qed.

Lemma same_vars_mono (table : gmap string (list snode)) (s s' : state)
  (V : gmap string snode) (W : gmap string tree) :
  heap s `prefix_of` heap s' -> macros s' = table ->
  same_vars table s V W -> same_vars table s' V W.
Proof.
  intros Hp Hm [H _]. split; [eapply vars_denote_mono; eauto | exact Hm].
Qed.

Lemma concat_mapM_refines (table : gmap string (list snode))
  (F : snode -> M (list snode)) (F' : tree -> result (list tree))
  (s0 : state) :
  (forall e et s, heap s0 `prefix_of` heap s -> same_tree table s e et ->
     refines (same_trees table) (F e) (F' et) s) ->
  forall l ts s, heap s0 `prefix_of` heap s -> same_trees table s l ts ->
    refines (same_trees table) (concat_mapM F l) (concat_mapR F' ts) s.
Proof.
  intros HF l. induction l as [| x l IH]; intros ts s Hp [Hl Hm].
  - apply Forall2_nil_inv_l in Hl as ->.
    apply refines_ret. split; [constructor | exact Hm].
  - apply Forall2_cons_inv_l in Hl as (t & ts' & Hx & Hrest & ->).
    cbn [concat_mapM concat_mapR].
    eapply refines_bind; [apply HF; [exact Hp | split; assumption] |].
    intros y y' s1 [Hy Hm1] Hp1.
    eapply refines_bind.
    + apply IH; [etrans; eauto |].
      apply (same_trees_mono table s s1); [exact Hp1 | exact Hm1 |].
      split; assumption.
    + intros ys ys' s2 [Hys Hm2] Hp2. apply refines_ret.
      split; [| exact Hm2].
      apply Forall2_app; [| exact Hys].
      eapply Forall2_denotes_mono; eauto.
Qed.

Lemma apply_macro_element_refines (table : gmap string (list snode))
  (recur : snode -> M snode) (recur_t : tree -> result tree)
  (V : gmap string snode) (W : gmap string tree) (s : state) (e : snode)
  (et : tree) :
  refines (same_tree table) (recur e) (recur_t et) s ->
  same_vars table s V W -> same_tree table s e et ->
  refines (same_trees table) (apply_macro_element recur V e)
    (apply_macro_element_t recur_t W et) s.
Proof.
  intros Hrec [HV Hm] He.
  destruct (same_tree_inv _ _ _ _ He) as (en & Hen & _ & Hstr & _).
  unfold apply_macro_element, apply_macro_element_t.
  apply (refines_step _ _ _ _ _ en (deref_ok _ _ _ Hen)).
  rewrite Hstr.
  destruct (String.eqb (v_string (t_root et)) ellipsis).
  - specialize (HV (v_string (t_root et))).
    destruct HV as [vargs w Hw |]; [| reflexivity].
    apply denotes_unfold in Hw as (vn & Hvn & _ & Hk).
    apply (refines_step _ _ _ _ _ vn (deref_ok _ _ _ Hvn)).
    apply refines_ret. split; assumption.
  - eapply refines_bind; [exact Hrec |].
    intros x x' s1 [Hx Hm1] _. apply refines_ret.
    split; [constructor; [exact Hx | constructor] | exact Hm1].
Qed.

Lemma apply_macro_refines (table : gmap string (list snode))
  (V : gmap string snode) (W : gmap string tree) :
  forall fuel body bt s,
    same_tree table s body bt -> same_vars table s V W ->
    refines (same_tree table) (apply_macro fuel body V)
      (apply_macro_t fuel bt W) s.
Proof.
  induction fuel as [| fuel IH]; intros body bt s Hb HV; [reflexivity |].
  destruct (same_tree_inv _ _ _ _ Hb) as (nd & Hnd & Hty & Hstr & Hkids).
  cbn [apply_macro apply_macro_t].
  apply (refines_step _ _ _ _ _ nd (deref_ok _ _ _ Hnd)).
  rewrite Hty, Hstr.
  destruct (decide (type (t_root bt) = T_LIST)) as [Hlist | Hnot].
  - eapply refines_bind.
    + apply (concat_mapM_refines table _ _ s); [| reflexivity | exact Hkids].
      intros e et s1 Hp1 He.
      assert (HV1 : same_vars table s1 V W)
        by (apply (same_vars_mono table s s1);
            [exact Hp1 | apply He | exact HV]).
      apply apply_macro_element_refines; [| exact HV1 | exact He].
      apply IH; assumption.
    + intros r r' s1 Hr _. apply refines_make_list. exact Hr.
  - destruct HV as [HV Hm]. specialize (HV (v_string (t_root bt))).
    destruct HV as [v w Hw |]; apply refines_ret;
      [split; assumption | exact Hb].
Qed.

Lemma Forall2_lookup_both {A B : Type} (R : A -> B -> Prop) (l : list A)
  (k : list B) (i : nat) :
  Forall2 R l k -> option_Forall2 R (l !! i) (k !! i).
Proof.
  intros H. revert i. induction H as [| x y l k Hxy _ IH]; intros i.
  - constructor.
  - destruct i as [| i]; [constructor; exact Hxy | apply IH].
Qed.

Lemma bind_macrovars_refines (table : gmap string (list snode))
  (nList : list snode) (kids : list tree) :
  forall argsyms targs i V W s,
    same_trees table s argsyms targs -> same_trees table s nList kids ->
    same_vars table s V W ->
    refines (same_vars table) (bind_macrovars argsyms i nList V)
      (bind_macrovars_t targs i kids W) s.
Proof.
  induction argsyms as [| a rest IH]; intros targs i V W s [Hargs Hm] HN HV.
  - apply Forall2_nil_inv_l in Hargs as ->. apply refines_ret. exact HV.
  - apply Forall2_cons_inv_l in Hargs as (ta & trest & Ha & Hrest & ->).
    apply denotes_unfold in Ha as (an & Han & Hlabel & _).
    cbn [bind_macrovars bind_macrovars_t].
    apply (refines_step _ _ _ _ _ an (deref_ok _ _ _ Han)).
    rewrite <- Hlabel, label_v_string.
    destruct (String.eqb (v_string an) ellipsis).
    + apply (refines_bind (same_tree table) (same_vars table) _
               (Ok (tree_list (drop (S i) kids))) _
               (fun t2 => Ok (<[v_string an := t2]> W))).
      * apply (refines_make_list table s (drop (S i) nList) (drop (S i) kids)).
        destruct HN as [HN ?]. split; [apply Forall2_drop; exact HN | assumption].
      * intros n2 t2 s1 [Hn2 Hm1] Hp1. apply refines_ret.
        split; [| exact Hm1].
        apply vars_denote_insert; [| exact Hn2].
        eapply vars_denote_mono; [exact Hp1 | apply HV].
    + destruct HN as [HN HmN].
      pose proof (Forall2_lookup_both _ _ _ (S i) HN) as Hlk.
      unfold at_. destruct Hlk as [x tx Hx |].
      * apply (refines_step _ _ _ _ _ x eq_refl).
        apply IH; [split; assumption | split; assumption |].
        destruct HV as [HV ?]. split; [| assumption].
        apply vars_denote_insert; assumption.
      * reflexivity.
Qed.

Lemma table_denotes_lookup (h : list Node)
  (table : gmap string (list snode)) (T : gmap string (list tree))
  (name : string) :
  table_denotes h table T ->
  option_Forall2 (Forall2 (denotes h)) (table !! name) (T !! name).
Proof. intros H. apply H. Qed.

Lemma macroexpand_refines (table : gmap string (list snode))
  (T : gmap string (list tree)) (fuel : nat) (n : snode) (t : tree)
  (s : state) :
  same_tree table s n t -> table_denotes (heap s) table T ->
  refines (same_tree table) (macroexpand fuel n) (macroexpand_t fuel t T) s.
Proof.
  intros Hn HT.
  destruct (same_tree_inv _ _ _ _ Hn) as (nd & Hnd & _ & _ & Hkids).
  unfold macroexpand, macroexpand_t.
  apply (refines_step _ _ _ _ _ nd (deref_ok _ _ _ Hnd)).
  destruct Hkids as [Hkids Hm].
  pose proof (Forall2_lookup_both _ _ _ 0%nat Hkids) as Hh.
  unfold index at 1. destruct Hh as [h th Hh |]; [| reflexivity].
  apply (refines_step _ _ _ _ _ h eq_refl).
  apply denotes_unfold in Hh as (hn & Hhn & Hlabel & _).
  apply (refines_step _ _ _ _ _ hn (deref_ok _ _ _ Hhn)).
  apply (refines_step _ _ _ _ _ (macros s) eq_refl).
  rewrite Hm, <- Hlabel, label_v_string.
  pose proof (table_denotes_lookup _ _ _ (v_string hn) HT) as Hmac.
  destruct Hmac as [macro tmacro Hmacro |]; [| apply refines_ret; exact Hn].
  pose proof (Forall2_lookup_both _ _ _ 0%nat Hmacro) as H0.
  unfold index at 1. destruct H0 as [m0 tm0 Hm0 |]; [| reflexivity].
  apply (refines_step _ _ _ _ _ m0 eq_refl).
  apply denotes_unfold in Hm0 as (m0n & Hm0n & _ & Hparams).
  apply (refines_step _ _ _ _ _ m0n (deref_ok _ _ _ Hm0n)).
  eapply refines_bind.
  - apply (bind_macrovars_refines table (v_list nd) (t_kids t));
      [split; assumption | split; assumption |].
    split; [| exact Hm]. intros name. rewrite !lookup_empty. constructor.
  - intros V W s1 HV Hp1.
    pose proof (Forall2_lookup_both _ _ _ 1%nat Hmacro) as H1.
    unfold index. destruct H1 as [m1 tm1 Hm1 |]; [| reflexivity].
    apply (refines_step _ _ _ _ _ m1 eq_refl).
    apply apply_macro_refines; [| exact HV].
    split; [eapply denotes_mono; eauto | apply HV].
Qed.

Lemma is_symbol_label (name : string) (n : Node) :
  is_symbol name (label n) = is_symbol name n.
Proof. reflexivity. Qed.

Lemma table_denotes_insert (h : list Node)
  (table : gmap string (list snode)) (T : gmap string (list tree))
  (name : string) (l : list snode) (ts : list tree) :
  table_denotes h table T -> Forall2 (denotes h) l ts ->
  table_denotes h (<[name := l]> table) (<[name := ts]> T).
Proof.
  intros H Hl x. destruct (decide (name = x)) as [-> | Hne].
  - rewrite !lookup_insert_eq. constructor. exact Hl.
  - rewrite !lookup_insert_ne by exact Hne. apply H.
Qed.

Lemma define_macro_refines (nilt : tree) (n : snode) (t : tree)
  (T : gmap string (list tree)) (s : state) :
  denotes (heap s) n t -> table_denotes (heap s) (macros s) T ->
  denotes (heap s) node_nil nilt ->
  refines same_compiled (define_macro n) (define_macro_t nilt t T) s.
Proof.
  intros Hn HT Hnil.
  apply denotes_unfold in Hn as (nd & Hnd & _ & Hkids).
  unfold define_macro, define_macro_t.
  apply (refines_step _ _ _ _ _ nd (deref_ok _ _ _ Hnd)).
  pose proof (Forall2_lookup_both _ _ _ 2%nat Hkids) as H2.
  unfold index at 1. destruct H2 as [a2 t2 H2 |]; [| reflexivity].
  apply (refines_step _ _ _ _ _ a2 eq_refl).
  pose proof (Forall2_lookup_both _ _ _ 3%nat Hkids) as H3.
  unfold index at 1. destruct H3 as [a3 t3 H3 |]; [| reflexivity].
  apply (refines_step _ _ _ _ _ a3 eq_refl).
  pose proof (Forall2_lookup_both _ _ _ 1%nat Hkids) as H1.
  unfold index at 1. destruct H1 as [a1 t1 H1 |]; [| reflexivity].
  apply (refines_step _ _ _ _ _ a1 eq_refl).
  apply denotes_unfold in H1 as (n1 & Hn1 & Hlabel & _).
  apply (refines_step _ _ _ _ _ n1 (deref_ok _ _ _ Hn1)).
  rewrite <- Hlabel, label_v_string.
  eexists _, _. split; [reflexivity |]. split; [reflexivity |].
  split; [exact Hnil |]. simpl.
  apply table_denotes_insert; [exact HT |].
  constructor; [exact H2 | constructor; [exact H3 | constructor]].
Qed.

Lemma mapM_compile_refines (nilt : tree) (F : snode -> M snode)
  (F' : tree -> gmap string (list tree)
        -> result (tree * gmap string (list tree))) :
  (forall a t T s,
     denotes (heap s) a t -> table_denotes (heap s) (macros s) T ->
     denotes (heap s) node_nil nilt ->
     refines same_compiled (F a) (F' t T) s) ->
  forall l ts T s,
    Forall2 (denotes (heap s)) l ts ->
    table_denotes (heap s) (macros s) T ->
    denotes (heap s) node_nil nilt ->
    refines same_compiled_list (mapM F l) (mapT F' ts T) s.
Proof.
  intros HF l. induction l as [| x l IH]; intros ts T s Hl HT Hnil.
  - apply Forall2_nil_inv_l in Hl as ->. apply refines_ret.
    split; [constructor | exact HT].
  - apply Forall2_cons_inv_l in Hl as (t & ts' & Hx & Hrest & ->).
    cbn [mapM mapT].
    eapply refines_bind; [apply HF; assumption |].
    intros y y' s1 [Hy HT1] Hp1.
    eapply refines_bind.
    + apply IH; [eapply Forall2_denotes_mono; eauto | exact HT1 |].
      eapply denotes_mono; eauto.
    + intros ys ys' s2 [Hys HT2] Hp2. apply refines_ret.
      split; [| exact HT2]. simpl.
      constructor; [eapply denotes_mono; eauto | exact Hys].
Qed.

(** The compile pass on the heap does what the compile pass on trees
    does. *)
Lemma compile_refines (nilt : tree) :
  forall fuel n t T s,
    denotes (heap s) n t -> table_denotes (heap s) (macros s) T ->
    denotes (heap s) node_nil nilt ->
    refines same_compiled (compile fuel n) (compile_t fuel nilt t T) s.
Proof.
  induction fuel as [| fuel IH]; intros n t T s Hn HT Hnil; [reflexivity |].
  pose proof Hn as Hn'.
  apply denotes_unfold in Hn' as (nd & Hnd & Hlabel & Hkids).
  cbn [compile compile_t].
  apply (refines_step _ _ _ _ _ nd (deref_ok _ _ _ Hnd)).
  rewrite <- Hlabel, label_type.
  destruct (decide (type nd = T_LIST)) as [Hlist | Hnot];
    [| apply refines_ret; split; assumption].
  destruct (v_list nd) as [| h l] eqn:Hvl.
  { apply Forall2_nil_inv_l in Hkids. rewrite Hkids.
    apply refines_ret; split; assumption. }
  apply Forall2_cons_inv_l in Hkids as (th & tl & Hh & Hrest & Htk).
  rewrite Htk.
  eapply refines_bind; [apply IH; assumption |].
  intros func r s1 [Hfunc HT1] Hp1. cbn zeta.
  assert (Hn1 : denotes (heap s1) n t) by (eapply denotes_mono; eauto).
  assert (Hnil1 : denotes (heap s1) node_nil nilt)
    by (eapply denotes_mono; eauto).
  apply denotes_unfold in Hfunc as (fd & Hfd & Hflabel & _).
  apply (refines_step _ _ _ _ _ fd (deref_ok _ _ _ Hfd)).
  rewrite <- Hflabel, !is_symbol_label, label_v_string.
  destruct (is_symbol "defmacro" fd);
    [apply define_macro_refines; assumption |].
  destruct (is_symbol "quote" fd); [apply refines_ret; split; assumption |].
  apply (refines_step _ _ _ _ _ (macros s1) eq_refl).
  pose proof (table_denotes_lookup _ _ _ (v_string fd) HT1) as Hmac.
  destruct Hmac as [macro tmacro Hmacro |].
  - eapply refines_bind.
    + apply (macroexpand_refines (macros s1) (snd r));
        [split; [exact Hn1 | reflexivity] | exact HT1].
    + intros expanded et s2 [Hex Hm2] Hp2.
      apply IH; [exact Hex | rewrite Hm2 | eapply denotes_mono; eauto].
      eapply table_denotes_mono; eauto.
  - assert (Hnd1 : heap s1 !! n = Some nd)
      by (eapply prefix_lookup_Some; eauto).
    apply (refines_step _ _ _ _ _ nd (deref_ok _ _ _ Hnd1)).
    eapply refines_bind.
    + apply (mapM_compile_refines nilt (compile fuel) (compile_t fuel nilt));
        [intros; apply IH; assumption | | exact HT1 | exact Hnil1].
      apply denotes_unfold in Hn1 as (nd' & Hnd' & _ & Hk').
      rewrite Hnd1 in Hnd'. injection Hnd' as <-.
      rewrite Htk in Hk'. exact Hk'.
    + intros rs rs' s2 [Hrs HT2] Hp2.
      eexists _, _. split; [reflexivity |]. simpl.
      split; [apply prefix_app_r; reflexivity |].
      split; [apply denotes_new_list; exact Hrs |]. simpl.
      eapply table_denotes_mono; [| exact HT2].
      apply prefix_app_r. reflexivity.
Qed.

(** *** No occurrence of [defmacro]: the macro table stays as it is *)

Lemma defmacro_free_unfold (t : tree) :
  defmacro_free t =
    negb (is_symbol "defmacro" (t_root t)) && forallb defmacro_free (t_kids t).
Proof. destruct t; reflexivity. Qed.

Lemma defmacro_free_kids (t : tree) :
  defmacro_free t = true -> forallb defmacro_free (t_kids t) = true.
Proof.
  rewrite defmacro_free_unfold. intros H.
  apply andb_true_iff in H. tauto.
Qed.

Lemma defmacro_free_root (t : tree) :
  defmacro_free t = true -> is_symbol "defmacro" (t_root t) = false.
Proof.
  rewrite defmacro_free_unfold. intros H.
  apply andb_true_iff in H as [H _]. apply negb_true_iff. exact H.
Qed.

Lemma defmacro_free_tree_list (kids : list tree) :
  forallb defmacro_free kids = true -> defmacro_free (tree_list kids) = true.
Proof. intros H. simpl. exact H. Qed.

Lemma forallb_lookup {A : Type} (p : A -> bool) (l : list A) (i : nat)
  (x : A) :
  forallb p l = true -> l !! i = Some x -> p x = true.
Proof.
  intros H Hx. rewrite forallb_forall in H. apply H.
  apply list_elem_of_In. eapply list_elem_of_lookup_2. exact Hx.
Qed.

Lemma forallb_drop {A : Type} (p : A -> bool) (l : list A) (n : nat) :
  forallb p l = true -> forallb p (drop n l) = true.
Proof.
  revert n. induction l as [| x l IH]; intros [| n] H; try exact H.
  simpl. apply IH. simpl in H. apply andb_true_iff in H. tauto.
Qed.

Lemma concat_mapR_defmacro_free (F : tree -> result (list tree)) :
  forall l r,
    (forall e y, e ∈ l -> F e = Ok y -> forallb defmacro_free y = true) ->
    concat_mapR F l = Ok r -> forallb defmacro_free r = true.
Proof.
  induction l as [| x l IH]; intros r HF H; simpl in H.
  - injection H as <-. reflexivity.
  - destruct (F x) as [y |] eqn:Hy; [| discriminate H]. simpl in H.
    destruct (concat_mapR F l) as [ys |] eqn:Hys; [| discriminate H].
    injection H as <-. rewrite forallb_app.
    apply andb_true_iff. split.
    + apply (HF x y); [left | exact Hy].
    + apply IH; [| reflexivity]. intros e z He. apply HF. right. exact He.
Qed.

Lemma apply_macro_t_defmacro_free (W : gmap string tree) :
  vars_defmacro_free W ->
  forall fuel body r,
    defmacro_free body = true ->
    apply_macro_t fuel body W = Ok r -> defmacro_free r = true.
Proof.
  intros HW. induction fuel as [| fuel IH]; intros body r Hb H;
    [discriminate H |].
  cbn [apply_macro_t] in H.
  destruct (decide (type (t_root body) = T_LIST)) as [Hlist | Hnot].
  - destruct (concat_mapR _ (t_kids body)) as [l |] eqn:Hl;
      [| discriminate H].
    injection H as <-. apply defmacro_free_tree_list.
    eapply concat_mapR_defmacro_free; [| exact Hl].
    intros e y He Hy. unfold apply_macro_element_t in Hy.
    destruct (String.eqb _ ellipsis).
    + destruct (W !! v_string (t_root e)) as [vargs |] eqn:Hv;
        [| discriminate Hy].
      injection Hy as <-. apply defmacro_free_kids. eapply HW. exact Hv.
    + destruct (apply_macro_t fuel e W) as [x |] eqn:Hx; [| discriminate Hy].
      injection Hy as <-. simpl. rewrite andb_true_r.
      apply (IH e x); [| exact Hx].
      apply list_elem_of_lookup in He as [i Hi].
      eapply forallb_lookup; [apply defmacro_free_kids; exact Hb | exact Hi].
  - destruct (W !! v_string (t_root body)) as [v |] eqn:Hv;
      injection H as <-; [eapply HW; exact Hv | exact Hb].
Qed.

Lemma bind_macrovars_t_defmacro_free (kids : list tree) :
  forallb defmacro_free kids = true ->
  forall argsyms i W W',
    vars_defmacro_free W ->
    bind_macrovars_t argsyms i kids W = Ok W' -> vars_defmacro_free W'.
Proof.
  intros Hk. induction argsyms as [| a rest IH]; intros i W W' HW H;
    cbn [bind_macrovars_t] in H; cbn zeta in H.
  - injection H as <-. exact HW.
  - destruct (String.eqb (v_string (t_root a)) ellipsis).
    + injection H as <-. intros name t Ht.
      destruct (decide (v_string (t_root a) = name)) as [<- | Hne].
      * rewrite lookup_insert_eq in Ht. injection Ht as <-.
        apply defmacro_free_tree_list, forallb_drop, Hk.
      * rewrite lookup_insert_ne in Ht by exact Hne. eapply HW. exact Ht.
    + destruct (kids !! S i) as [x |] eqn:Hx; [| discriminate H].
      apply (IH (S i) (<[v_string (t_root a) := x]> W) W'); [| exact H].
      intros name t Ht.
      destruct (decide (v_string (t_root a) = name)) as [<- | Hne].
      * rewrite lookup_insert_eq in Ht. injection Ht as <-.
        eapply forallb_lookup; eauto.
      * rewrite lookup_insert_ne in Ht by exact Hne. eapply HW. exact Ht.
Qed.

Lemma macroexpand_t_defmacro_free (T : gmap string (list tree))
  (fuel : nat) (t r : tree) :
  table_defmacro_free T -> defmacro_free t = true ->
  macroexpand_t fuel t T = Ok r -> defmacro_free r = true.
Proof.
  intros HT Ht H. unfold macroexpand_t in H.
  destruct (t_kids t !! 0%nat) as [h |]; [| discriminate H].
  destruct (T !! v_string (t_root h)) as [macro |] eqn:Hmac;
    [| injection H as <-; exact Ht].
  destruct (macro !! 0%nat) as [m0 |]; [| discriminate H].
  destruct (bind_macrovars_t (t_kids m0) 0 (t_kids t) ∅) as [W |] eqn:HW;
    [| discriminate H].
  simpl in H. destruct (macro !! 1%nat) as [m1 |] eqn:Hm1; [| discriminate H].
  eapply apply_macro_t_defmacro_free; [| | exact H].
  - eapply bind_macrovars_t_defmacro_free; [| | exact HW].
    + apply defmacro_free_kids. exact Ht.
    + intros name x Hx. rewrite lookup_empty in Hx. discriminate Hx.
  - eapply forallb_lookup; [eapply HT; exact Hmac | exact Hm1].
Qed.

(** *** More fuel does not change a result *)

Lemma apply_macro_t_S (fuel : nat) (body : tree) (W : gmap string tree) :
  apply_macro_t (S fuel) body W =
    if decide (type (t_root body) = T_LIST) then
      rbind (concat_mapR
               (apply_macro_element_t (fun e => apply_macro_t fuel e W) W)
               (t_kids body))
        (fun r => Ok (tree_list r))
    else
      match W !! v_string (t_root body) with
      | Some v => Ok v
      | None => Ok body
      end.
Proof. reflexivity. Qed.

Lemma compile_t_S (fuel : nat) (nilt t : tree)
  (T : gmap string (list tree)) :
  compile_t (S fuel) nilt t T =
    if decide (type (t_root t) = T_LIST) then
      match t_kids t with
      | [] => Ok (t, T)
      | h :: _ =>
          rbind (compile_t fuel nilt h T) (fun r =>
            if is_symbol "defmacro" (t_root (fst r)) then
              define_macro_t nilt t (snd r)
            else if is_symbol "quote" (t_root (fst r)) then Ok (t, snd r)
            else
              match snd r !! v_string (t_root (fst r)) with
              | Some _ =>
                  rbind (macroexpand_t fuel t (snd r)) (fun expanded =>
                    compile_t fuel nilt expanded (snd r))
              | None =>
                  rbind (mapT (compile_t fuel nilt) (t_kids t) (snd r))
                    (fun rs => Ok (tree_list (fst rs), snd rs))
              end)
      end
    else Ok (t, T).
Proof. reflexivity. Qed.

Lemma rbind_ok {A B : Type} (r : result A) (f : A -> result B) (b : B) :
  rbind r f = Ok b -> exists a, r = Ok a /\ f a = Ok b.
Proof. destruct r as [a | e]; simpl; intros H; [eauto | discriminate H]. Qed.

Lemma concat_mapR_mono {A B : Type} (F G : A -> result (list B)) :
  (forall x r, F x = Ok r -> G x = Ok r) ->
  forall l r, concat_mapR F l = Ok r -> concat_mapR G l = Ok r.
Proof.
  intros HFG. induction l as [| x l IH]; intros r H; [exact H |].
  simpl in *.
  apply rbind_ok in H as (y & Hy & H). apply rbind_ok in H as (ys & Hys & H).
  rewrite (HFG _ _ Hy). simpl. rewrite (IH _ Hys). exact H.
Qed.

Lemma mapT_mono {A B S : Type} (F G : A -> S -> result (B * S)) :
  (forall x st r, F x st = Ok r -> G x st = Ok r) ->
  forall l st r, mapT F l st = Ok r -> mapT G l st = Ok r.
Proof.
  intros HFG. induction l as [| x l IH]; intros st r H; [exact H |].
  cbn [mapT] in *.
  apply rbind_ok in H as (y & Hy & H). apply rbind_ok in H as (ys & Hys & H).
  rewrite (HFG _ _ _ Hy). cbn [rbind]. rewrite (IH _ _ Hys). exact H.
Qed.

Lemma apply_macro_t_mono (W : gmap string tree) :
  forall fuel body r,
    apply_macro_t fuel body W = Ok r -> apply_macro_t (S fuel) body W = Ok r.
Proof.
  induction fuel as [| fuel IH]; intros body r H; [discriminate H |].
  rewrite apply_macro_t_S in H. rewrite apply_macro_t_S.
  destruct (decide (type (t_root body) = T_LIST)); [| exact H].
  apply rbind_ok in H as (l & Hl & H).
  erewrite concat_mapR_mono; [exact H | | exact Hl].
  intros x y Hy. unfold apply_macro_element_t in *.
  destruct (String.eqb _ ellipsis); [exact Hy |].
  apply rbind_ok in Hy as (z & Hz & Hy). rewrite (IH _ _ Hz). exact Hy.
Qed.

Lemma macroexpand_t_mono (fuel : nat) (t r : tree)
  (T : gmap string (list tree)) :
  macroexpand_t fuel t T = Ok r -> macroexpand_t (S fuel) t T = Ok r.
Proof.
  unfold macroexpand_t.
  destruct (t_kids t !! 0%nat) as [h |]; [| intros H; exact H].
  destruct (T !! v_string (t_root h)) as [macro |]; [| intros H; exact H].
  destruct (macro !! 0%nat) as [m0 |]; [| intros H; exact H].
  intros H. apply rbind_ok in H as (W & HW & H). rewrite HW. simpl.
  destruct (macro !! 1%nat) as [m1 |]; [| exact H].
  apply apply_macro_t_mono. exact H.
Qed.

Lemma compile_t_mono (nilt : tree) :
  forall fuel t T r,
    compile_t fuel nilt t T = Ok r -> compile_t (S fuel) nilt t T = Ok r.
Proof.
  induction fuel as [| fuel IH]; intros t T r H; [discriminate H |].
  rewrite compile_t_S in H. rewrite compile_t_S.
  destruct (decide (type (t_root t) = T_LIST)); [| exact H].
  destruct (t_kids t) as [| h l]; [exact H |].
  apply rbind_ok in H as (fr & Hfr & H). rewrite (IH _ _ _ Hfr). cbn [rbind].
  destruct (is_symbol "defmacro" (t_root (fst fr))); [exact H |].
  destruct (is_symbol "quote" (t_root (fst fr))); [exact H |].
  destruct (snd fr !! v_string (t_root (fst fr))).
  - apply rbind_ok in H as (ex & Hex & H).
    rewrite (macroexpand_t_mono _ _ _ _ Hex). cbn [rbind]. apply IH. exact H.
  - apply rbind_ok in H as (rs & Hrs & H).
    erewrite mapT_mono; [exact H | | exact Hrs].
    intros x st y. apply IH.
Qed.

(** *** Fixed point on trees *)

Lemma mapT_unchanged {A B S : Type} (F : A -> S -> result (B * S))
  (P : A -> Prop) (Q : B -> Prop) (st : S) :
  (forall x y st', P x -> F x st = Ok (y, st') -> st' = st /\ Q y) ->
  forall l rs st',
    Forall P l -> mapT F l st = Ok (rs, st') ->
    st' = st /\ Forall2 (fun x y => F x st = Ok (y, st)) l rs /\ Forall Q rs.
Proof.
  intros HF. induction l as [| x l IH]; intros rs st' HP H; simpl in H.
  - injection H as <- <-. repeat split; constructor.
  - apply rbind_ok in H as ([y st1] & Hy & H).
    apply rbind_ok in H as ([ys st2] & Hys & H). simpl in *.
    injection H as <- <-.
    inversion HP as [| ? ? Hx Hl]; subst.
    destruct (HF x y st1 Hx Hy) as [-> HQ].
    destruct (IH ys st2 Hl Hys) as (-> & Hall & HQs).
    repeat split; constructor; assumption.
Qed.

Lemma mapT_fixed {A S : Type} (F : A -> S -> result (A * S)) (st : S) :
  forall l, Forall (fun x => F x st = Ok (x, st)) l ->
    mapT F l st = Ok (l, st).
Proof.
  induction l as [| x l IH]; intros H; [reflexivity |].
  inversion H as [| ? ? Hx Hl]; subst. simpl.
  rewrite Hx. simpl. rewrite (IH Hl). reflexivity.
Qed.

Lemma forallb_Forall_true {A : Type} (p : A -> bool) (l : list A) :
  forallb p l = true <-> Forall (fun x => p x = true) l.
Proof.
  rewrite forallb_forall, Forall_forall.
  split; intros H x Hx; apply H; apply list_elem_of_In; exact Hx.
Qed.

(** Compiling a form free of [defmacro] against a table free of it leaves
    the table as it is and gives a form free of it. *)
Lemma compile_t_unchanged (nilt : tree) (T : gmap string (list tree)) :
  table_defmacro_free T ->
  forall fuel t t' T',
    defmacro_free t = true ->
    compile_t fuel nilt t T = Ok (t', T') ->
    T' = T /\ defmacro_free t' = true.
Proof.
  intros HT. induction fuel as [| fuel IH]; intros t t' T' Ht H;
    [discriminate H |].
  rewrite compile_t_S in H.
  destruct (decide (type (t_root t) = T_LIST));
    [| injection H as <- <-; split; [reflexivity | exact Ht]].
  destruct (t_kids t) as [| h l] eqn:Hk;
    [injection H as <- <-; split; [reflexivity | exact Ht] |].
  pose proof (defmacro_free_kids t Ht) as Hkids. rewrite Hk in Hkids.
  apply rbind_ok in H as ([func T1] & Hfunc & H). simpl in H.
  assert (Hh : defmacro_free h = true)
    by (simpl in Hkids; apply andb_true_iff in Hkids; tauto).
  destruct (IH h func T1 Hh Hfunc) as [-> Hfree].
  rewrite (defmacro_free_root func Hfree) in H.
  destruct (is_symbol "quote" (t_root func));
    [injection H as <- <-; split; [reflexivity | exact Ht] |].
  destruct (T !! v_string (t_root func)).
  - apply rbind_ok in H as (ex & Hex & H).
    apply (IH ex t' T'); [| exact H].
    exact (macroexpand_t_defmacro_free T fuel t ex HT Ht Hex).
  - apply rbind_ok in H as ([rs T2] & Hrs & H). simpl in H.
    injection H as <- <-.
    destruct (mapT_unchanged (compile_t fuel nilt)
                (fun x => defmacro_free x = true)
                (fun y => defmacro_free y = true) T
                (fun x y st' Hx Hy => IH x y st' Hx Hy)
                (h :: l) rs T2) as (-> & _ & Hall).
    + apply forallb_Forall_true. exact Hkids.
    + exact Hrs.
    + split; [reflexivity |]. apply defmacro_free_tree_list.
      apply forallb_Forall_true. exact Hall.
Qed.

(** On trees, [compile] is a fixed point on its own output when no
    [defmacro] is involved. *)
Lemma compile_t_fixed_point (nilt : tree) (T : gmap string (list tree)) :
  table_defmacro_free T ->
  forall fuel t t' T',
    defmacro_free t = true ->
    compile_t fuel nilt t T = Ok (t', T') ->
    T' = T /\ compile_t fuel nilt t' T = Ok (t', T).
Proof.
  intros HT. induction fuel as [| fuel IH]; intros t t' T' Ht H;
    [discriminate H |].
  destruct (compile_t_unchanged nilt T HT _ _ _ _ Ht H) as [-> Hfree'].
  split; [reflexivity |].
  pose proof H as H0. rewrite compile_t_S in H.
  destruct (decide (type (t_root t) = T_LIST));
    [| injection H as <-; exact H0].
  destruct (t_kids t) as [| h l] eqn:Hk; [injection H as <-; exact H0 |].
  pose proof (defmacro_free_kids t Ht) as Hkids. rewrite Hk in Hkids.
  assert (Hh : defmacro_free h = true)
    by (simpl in Hkids; apply andb_true_iff in Hkids; tauto).
  apply rbind_ok in H as ([func T1] & Hfunc & H). simpl in H.
  destruct (compile_t_unchanged nilt T HT _ _ _ _ Hh Hfunc) as [-> Hffree].
  destruct (is_symbol "defmacro" (t_root func)) eqn:Hdef;
    [rewrite (defmacro_free_root func Hffree) in Hdef; discriminate Hdef |].
  destruct (is_symbol "quote" (t_root func)) eqn:Hquote;
    [injection H as <-; exact H0 |].
  destruct (T !! v_string (t_root func)) eqn:Hmac.
  - apply rbind_ok in H as (ex & Hex & H).
    apply compile_t_mono. apply (IH ex t' T); [| exact H].
    exact (macroexpand_t_defmacro_free T fuel t ex HT Ht Hex).
  - apply rbind_ok in H as ([rs T2] & Hrs & H). simpl in H.
    injection H as <- ->.
    destruct (mapT_unchanged (compile_t fuel nilt)
                (fun x => defmacro_free x = true)
                (fun y => compile_t fuel nilt y T = Ok (y, T)) T
                (fun x y st' Hx Hy => IH x y st' Hx Hy)
                (h :: l) rs T) as (_ & Hall & Hfix).
    + apply forallb_Forall_true. exact Hkids.
    + exact Hrs.
    + inversion Hall as [| ? r0 ? rs' Hr0 _]; subst.
      assert (r0 = func) by congruence. subst r0.
      inversion Hfix as [| ? ? Hf0 _]; subst.
      rewrite compile_t_S.
      cbn [tree_list t_root t_kids type Node_list].
      destruct (decide (T_LIST = T_LIST)) as [_ | Hne]; [| congruence].
      rewrite Hf0. cbn [rbind fst snd].
      rewrite Hdef, Hquote, Hmac.
      rewrite (mapT_fixed _ _ _ Hfix). reflexivity.
Qed.

(** *** Fixed point on the heap *)

Lemma refines_ok {A B : Type} (R : state -> A -> B -> Prop) (m : M A)
  (r : result B) (s s' : state) (a : A) :
  refines R m r s -> m s = Ok (a, s') ->
  exists b, r = Ok b /\ R s' a b /\ heap s `prefix_of` heap s'.
Proof.
  intros H Hrun. destruct r as [b | e]; simpl in H.
  - destruct H as (a0 & s0 & Hrun0 & Hp & HR).
    rewrite Hrun in Hrun0. injection Hrun0 as <- <-. eauto.
  - rewrite Hrun in H. discriminate H.
Qed.

Lemma mapO_view_denotes (depth : nat) (h : list Node) :
  forall l ts, mapO (view depth h) l = Some ts -> Forall2 (denotes h) l ts.
Proof.
  induction l as [| x l IH]; intros ts H; simpl in H.
  - injection H as <-. constructor.
  - destruct (view depth h x) as [y |] eqn:Hy; [| discriminate H].
    destruct (mapO (view depth h) l) as [ys |]; [| discriminate H].
    injection H as <-.
    constructor; [eapply view_denotes; eauto | apply IH; reflexivity].
Qed.

Lemma view_table_denotes (depth : nat) (h : list Node)
  (table : gmap string (list snode)) :
  map_Forall (fun _ l => is_Some (mapO (view depth h) l)) table ->
  table_denotes h table (view_table depth h table).
Proof.
  intros Hall name. unfold view_table. rewrite lookup_omap.
  destruct (table !! name) as [l |] eqn:Hl; simpl; [| constructor].
  destruct (Hall name l Hl) as [ts Hts]. rewrite Hts. constructor.
  eapply mapO_view_denotes; eauto.
Qed.

Lemma compile_S (fuel : nat) (n : snode) :
  compile (S fuel) n =
    (nd <- deref n ;;
     if decide (type nd = T_LIST) then
       match v_list nd with
       | [] => ret n
       | h :: _ =>
           func <- compile fuel h ;;
           fd <- deref func ;;
           if is_symbol "defmacro" fd then define_macro n
           else if is_symbol "quote" fd then ret n
           else
             table <- gets macros ;;
             match table !! v_string fd with
             | Some _ =>
                 expanded <- macroexpand fuel n ;;
                 compile fuel expanded
             | None =>
                 nd <- deref n ;;
                 r <- mapM (compile fuel) (v_list nd) ;;
                 make_shared (Node_list r)
             end
       end
     else ret n).
Proof. reflexivity. Qed.

Lemma define_macro_ok (s : state) (f name params body : snode)
  (fd nn : Node) :
  heap s !! f = Some fd ->
  v_list fd !! 2%nat = Some params -> v_list fd !! 3%nat = Some body ->
  v_list fd !! 1%nat = Some name -> heap s !! name = Some nn ->
  define_macro f s =
    Ok (node_nil,
        with_macros (<[v_string nn := [params; body]]> (macros s)) s).
Proof.
  intros Hf H2 H3 H1 Hname. unfold define_macro.
  rewrite (bind_ok _ _ _ _ _ (deref_ok _ _ _ Hf)).
  rewrite (bind_ok _ _ _ _ _ (index_ok _ _ _ _ H2)).
  rewrite (bind_ok _ _ _ _ _ (index_ok _ _ _ _ H3)).
  rewrite (bind_ok _ _ _ _ _ (index_ok _ _ _ _ H1)).
  rewrite (bind_ok _ _ _ _ _ (deref_ok _ _ _ Hname)).
  reflexivity.
Qed.

Lemma compile_atom (fuel : nat) (s : state) (n : snode) (nd : Node) :
  heap s !! n = Some nd -> type nd <> T_LIST ->
  compile (S fuel) n s = Ok (n, s).
Proof.
  intros Hn Ht. rewrite compile_S.
  rewrite (bind_ok _ _ _ _ _ (deref_ok _ _ _ Hn)).
  destruct (decide (type nd = T_LIST)) as [Hc | _]; [contradiction |].
  reflexivity.
Qed.

Lemma compile_defmacro_form (k j : nat) (s : state) (f h name params body : snode)
  (rest : list snode) (fd hn nn niln : Node) :
  heap s !! f = Some fd -> type fd = T_LIST ->
  v_list fd = h :: name :: params :: body :: rest ->
  heap s !! h = Some hn -> is_symbol "defmacro" hn = true ->
  heap s !! name = Some nn ->
  heap s !! node_nil = Some niln -> type niln <> T_LIST ->
  let s' := with_macros (<[v_string nn := [params; body]]> (macros s)) s in
  compile (S (S k)) f s = Ok (node_nil, s')
  /\ compile (S j) node_nil s' = Ok (node_nil, s').
Proof.
  intros Hf Ht Hl Hh Hsym Hname Hnil Hnt s'.
  assert (Hht : type hn <> T_LIST).
  { unfold is_symbol in Hsym. apply andb_true_iff in Hsym as [Hs _].
    apply bool_decide_eq_true_1 in Hs. rewrite Hs. discriminate. }
  split.
  - rewrite compile_S.
    rewrite (bind_ok _ _ _ _ _ (deref_ok _ _ _ Hf)).
    destruct (decide (type fd = T_LIST)) as [_ | Hc]; [| contradiction].
    rewrite Hl.
    rewrite (bind_ok _ _ _ _ _ (compile_atom k s h hn Hh Hht)).
    rewrite (bind_ok _ _ _ _ _ (deref_ok _ _ _ Hh)).
    rewrite Hsym.
    apply (define_macro_ok s f name params body fd nn Hf);
      try assumption; rewrite Hl; reflexivity.
  - exact (compile_atom j s' node_nil niln Hnil Hnt).
Qed.

(** C8, as amended. [compile] is a fixed point on its own output for a
    form in which the symbol [defmacro] does not occur, compiled against
    a macro table whose definitions do not contain it either: if
    [compile] returns on the form it returns on its result too, the two
    results denote the same tree, and the macro table denotes the same
    definitions throughout. A [defmacro] form is replaced by [nil] and
    recorded in the macro table, and [nil] compiles to itself. *)
Theorem compile_fixed_point_without_defmacro :
  (forall (k : nat) (s s' : state) (f f' : snode) (t nilt : tree)
          (T : gmap string (list tree)),
     denotes (heap s) f t ->
     table_denotes (heap s) (macros s) T ->
     denotes (heap s) node_nil nilt ->
     defmacro_free t = true ->
     table_defmacro_free T ->
     compile k f s = Ok (f', s') ->
     exists f'' s'' t',
       compile k f' s' = Ok (f'', s'')
       /\ denotes (heap s') f' t'
       /\ denotes (heap s'') f'' t'
       /\ table_denotes (heap s') (macros s') T
       /\ table_denotes (heap s'') (macros s'') T)
  /\ (forall (k j : nat) (s : state) (f h name params body : snode)
             (rest : list snode) (fd hn nn niln : Node),
        heap s !! f = Some fd -> type fd = T_LIST ->
        v_list fd = h :: name :: params :: body :: rest ->
        heap s !! h = Some hn -> is_symbol "defmacro" hn = true ->
        heap s !! name = Some nn ->
        heap s !! node_nil = Some niln -> type niln <> T_LIST ->
        let s' := with_macros (<[v_string nn := [params; body]]> (macros s)) s in
        compile (S (S k)) f s = Ok (node_nil, s')
        /\ compile (S j) node_nil s' = Ok (node_nil, s')).
Proof.
  split; [| exact compile_defmacro_form].
  intros k s s' f f' t nilt T Hf HT Hnil Hfree HTfree Hrun.
  destruct (refines_ok _ _ _ _ _ _ (compile_refines nilt k f t T s Hf HT Hnil)
              Hrun) as ([t' T'] & Hct & [Hf' HT'] & Hp).
  simpl in Hf', HT'.
  destruct (compile_t_fixed_point nilt T HTfree k t t' T' Hfree Hct)
    as [-> Hfix].
  assert (Hnil' : denotes (heap s') node_nil nilt)
    by (eapply denotes_mono; eauto).
  pose proof (compile_refines nilt k f' t' T s' Hf' HT' Hnil') as Href.
  rewrite Hfix in Href.
  destruct Href as (f'' & s'' & Hrun2 & Hp2 & [Hf'' HT'']).
  exists f'', s'', t'. repeat split; assumption.
Qed.

Lemma compile_fixed_point_without_defmacro_witness :
  exists f' s' f'' s'' t',
    compile 10 (snd macro_state) (fst macro_state) = Ok (f', s')
    /\ compile 10 f' s' = Ok (f'', s'')
    /\ denotes (heap s') f' t'
    /\ denotes (heap s'') f'' t'.
Proof.
  set (s := fst macro_state). set (f := snd macro_state).
  destruct (compile 10 f s) as [[f' s'] | e] eqn:Hrun;
    [| vm_compute in Hrun; discriminate Hrun].
  destruct (view 10 (heap s) f) as [t |] eqn:Ht;
    [| vm_compute in Ht; discriminate Ht].
  destruct (view 10 (heap s) node_nil) as [nilt |] eqn:Hnil;
    [| vm_compute in Hnil; discriminate Hnil].
  assert (Hall : map_Forall (fun _ l => is_Some (mapO (view 10 (heap s)) l))
                   (macros s)).
  { apply (bool_decide_eq_true_1
             (map_Forall (fun _ l => is_Some (mapO (view 10 (heap s)) l))
                (macros s))).
    vm_compute. reflexivity. }
  assert (Hfree : defmacro_free t = true).
  { assert (Hb : match view 10 (heap s) f with
                 | Some t0 => defmacro_free t0
                 | None => false
                 end = true) by (vm_compute; reflexivity).
    rewrite Ht in Hb. exact Hb. }
  assert (HTfree : table_defmacro_free (view_table 10 (heap s) (macros s))).
  { apply (bool_decide_eq_true_1
             (map_Forall (fun _ m => forallb defmacro_free m = true)
                (view_table 10 (heap s) (macros s)))).
    vm_compute. reflexivity. }
  destruct (proj1 compile_fixed_point_without_defmacro 10%nat s s' f f' t nilt
              (view_table 10 (heap s) (macros s))
              (view_denotes _ _ _ _ Ht)
              (view_table_denotes _ _ _ Hall)
              (view_denotes _ _ _ _ Hnil)
              Hfree HTfree Hrun)
    as (f'' & s'' & t' & H1 & H2 & H3 & _).
  exists f', s', f'', s'', t'. repeat split; assumption.
Defined.

(** C8, as stated, fails: a macro used in a form before the [defmacro]
    that defines it is left alone by the first compile and expanded by
    the second. *)
Lemma compile_is_not_a_fixed_point :
  exists t1 t2,
    compiled_twice "(begin (foo 1) (defmacro foo (x) x))"
      = Ok (t1, t2, ("(begin (foo 1) )", "(begin 1 )"))
    /\ t1 <> t2.
Proof.
  eexists _, _. split; [vm_compute; reflexivity |]. discriminate.
Qed.

Example compile_expands_and_stays :
  match compile_twice 20 "(begin (unless false 42) (quote (unless 1 2)))"
          (fst macro_state) with
  | Ok (_, _, p, _) => Ok p
  | Crash e => Crash e
  end
  = Ok ("(begin (if false nil 42) (quote (unless 1 2)))",
        "(begin (if false nil 42) (quote (unless 1 2)))").
Proof. vm_compute. reflexivity. Qed.

(** * Further properties *)

(** ** Tokens *)

Lemma emit_nonempty (k : Tokenizer.t) :
  Forall (fun t => t <> EmptyString) (Tokenizer.ret k) ->
  Forall (fun t => t <> EmptyString) (Tokenizer.ret (Tokenizer.emit k)).
Proof.
  intros H. unfold Tokenizer.emit.
  destruct (Tokenizer.acc k) as [| c r] eqn:Hacc; simpl; [exact H |].
  apply Forall_app. split; [exact H |].
  apply Forall_singleton. discriminate.
Qed.

Lemma scan_string_nonempty (s : string) (last : Z) (fuel : nat) :
  forall pos k pos' k',
    Tokenizer.scan_string fuel s last pos k = Ok (pos', k') ->
    Forall (fun t => t <> EmptyString) (Tokenizer.ret k) ->
    Forall (fun t => t <> EmptyString) (Tokenizer.ret k').
Proof.
  induction fuel as [| fuel IH]; intros pos k pos' k' Hrun Hk;
    [discriminate Hrun |].
  cbn [Tokenizer.scan_string] in Hrun.
  destruct (pos <=? last); [| injection Hrun as <- <-; exact Hk].
  destruct (Tokenizer.at_ s pos) as [c |]; [| discriminate Hrun].
  cbn [rbind] in Hrun.
  destruct (c =? dquote)%char; [injection Hrun as <- <-; exact Hk |].
  destruct (c =? "\")%char.
  - destruct (Tokenizer.at_ s (wrap64 (pos + 1))) as [c' |];
      [| discriminate Hrun].
    cbn [rbind] in Hrun. eapply IH; [exact Hrun | exact Hk].
  - eapply IH; [exact Hrun | exact Hk].
Qed.

Lemma loop_nonempty (s : string) (last : Z) (fuel : nat) :
  forall pos k k',
    Tokenizer.loop fuel s last pos k = Ok k' ->
    Forall (fun t => t <> EmptyString) (Tokenizer.ret k) ->
    Forall (fun t => t <> EmptyString) (Tokenizer.ret k').
Proof.
  induction fuel as [| fuel IH]; intros pos k k' Hrun Hk;
    [discriminate Hrun |].
  cbn [Tokenizer.loop] in Hrun.
  destruct (pos <=? last);
    [| injection Hrun as <-; apply emit_nonempty; exact Hk].
  destruct (Tokenizer.at_ s pos) as [c |]; [| discriminate Hrun].
  cbn [rbind] in Hrun.
  destruct (Tokenizer.is_space c).
  { eapply IH; [exact Hrun | apply emit_nonempty; exact Hk]. }
  match type of Hrun with
  | (if ?b then _ else _) = _ => destruct b
  end.
  { destruct (Tokenizer.skip_comment fuel s last pos) as [p |];
      [| discriminate Hrun].
    cbn [rbind] in Hrun.
    eapply IH; [exact Hrun | apply emit_nonempty; exact Hk]. }
  destruct (c =? dquote)%char.
  { match type of Hrun with
    | rbind (Tokenizer.scan_string fuel s last ?p ?k0) _ = _ =>
        destruct (Tokenizer.scan_string fuel s last p k0) as [[p' k1] |] eqn:Hs;
          [| discriminate Hrun]
    end.
    cbn [rbind] in Hrun.
    eapply IH; [exact Hrun |]. apply emit_nonempty.
    eapply scan_string_nonempty; [exact Hs |].
    simpl. apply emit_nonempty. exact Hk. }
  destruct (c =? "(")%char.
  { eapply IH; [exact Hrun |]. apply emit_nonempty. simpl.
    apply emit_nonempty. exact Hk. }
  destruct (c =? ")")%char.
  { eapply IH; [exact Hrun |]. apply emit_nonempty. simpl.
    apply emit_nonempty. exact Hk. }
  eapply IH; [exact Hrun | exact Hk].
Qed.

Lemma run_nonempty (s : string) (k : Tokenizer.t) :
  Tokenizer.run s = Ok k ->
  Forall (fun t => t <> EmptyString) (Tokenizer.ret k).
Proof.
  unfold Tokenizer.run. intros Hk.
  eapply loop_nonempty; [exact Hk |]. simpl. constructor.
Qed.

(** X2. No token is empty: whenever the tokenizer returns, every token of
    the sequence holds at least one character. [emit] pushes the accumulator
    only when it is not empty, a parenthesis is a token of one character,
    and a string literal starts with its opening quote. *)
Theorem tokenize_nonempty_tokens (s : string) (tokens : list string) :
  tokenize s = Ok tokens -> Forall (fun t => t <> EmptyString) tokens.
Proof.
  unfold tokenize. intros H.
  destruct (Tokenizer.run s) as [k |] eqn:Hk; [| discriminate H].
  injection H as <-.
  exact (run_nonempty s k Hk).
Qed.

Lemma tokenize_nonempty_tokens_witness :
  tokenize "(a (b))" = Ok ["("; "a"; "("; "b"; ")"; ")"]
  /\ Forall (fun t => t <> EmptyString) ["("; "a"; "("; "b"; ")"; ")"].
Proof.
  split; [reflexivity |].
  exact (tokenize_nonempty_tokens "(a (b))" _ eq_refl).
Defined.

(** ** The reader only adds *)

Lemma only_adds_refl (s : state) : only_adds s s.
Proof. repeat split; reflexivity. Qed.

Lemma only_adds_trans (s1 s2 s3 : state) :
  only_adds s1 s2 -> only_adds s2 s3 -> only_adds s1 s3.
Proof.
  intros (H1 & H2 & H3 & H4 & H5) (K1 & K2 & K3 & K4 & K5).
  split; [etrans; eassumption |]. split; [etrans; eassumption |].
  repeat split; congruence.
Qed.

Lemma only_adds_make_shared (n : Node) (s : state) :
  only_adds s (with_heap (heap s ++ [n]) s).
Proof.
  split; [apply prefix_app_r; reflexivity |]. repeat split; reflexivity.
Qed.

Lemma only_adds_ToCode (name : string) (s : state) :
  exists c s', ToCode name s = Ok (c, s') /\ only_adds s s'
               /\ macros s' = macros s.
Proof.
  unfold ToCode. destruct (symcode s !! name) as [c |].
  - exists c, s. split; [reflexivity |]. split; [apply only_adds_refl | reflexivity].
  - eexists _, _. split; [reflexivity |]. split; [| reflexivity].
    split; [reflexivity |]. split; [apply prefix_app_r; reflexivity |].
    repeat split; reflexivity.
Qed.

Lemma is_number_returns (tok : string) (c0 : ascii) (s : state) :
  exists b, Parser.is_number tok c0 s = Ok (b, s).
Proof.
  unfold Parser.is_number. destruct (isdigit c0); [eexists; reflexivity |].
  destruct ((c0 =? "-")%char && (2 <=? String.length tok)%nat) eqn:Hc;
    [| eexists; reflexivity].
  apply andb_true_iff in Hc as [_ Hlen]. apply Nat.leb_le in Hlen.
  destruct (string_get_lt tok 1) as [c1 Hc1]; [lia |].
  unfold bind, Parser.char_at. rewrite Hc1. eexists. reflexivity.
Qed.

Lemma parse_steps (tokens : list string) :
  Forall (fun t => t <> EmptyString) tokens ->
  forall fuel pos acc s,
    (length tokens < fuel + pos)%nat -> (1 <= fuel)%nat ->
    exists acc' pos' s',
      Parser.parse fuel tokens pos acc s = Ok ((acc', pos'), s')
      /\ (pos <= pos')%nat
      /\ only_adds s s' /\ macros s' = macros s.
Proof.
  intros Htok fuel.
  induction fuel as [| fuel IH]; intros pos acc s Hfuel Hone; [lia |].
  cbn [Parser.parse].
  destruct (tokens !! pos) as [tok |] eqn:Hpos.
  2:{ exists acc, pos, s. split; [reflexivity |].
      split; [lia |]. split; [apply only_adds_refl | reflexivity]. }
  pose proof (lookup_lt_Some _ _ _ Hpos) as Hlt.
  assert (Hne : tok <> EmptyString)
    by (eapply Forall_lookup_1 in Htok; [exact Htok | exact Hpos]).
  assert (Hstop : exists acc' pos' s',
             ret (acc, pos) s = Ok ((acc', pos'), s')
             /\ (pos <= pos')%nat
             /\ only_adds s s' /\ macros s' = macros s).
  { exists acc, pos, s. split; [reflexivity |].
    split; [lia |]. split; [apply only_adds_refl | reflexivity]. }
  assert (Hnext : forall n,
             exists acc' pos' s',
               (x <- make_shared n ;;
                Parser.parse fuel tokens (S pos) (acc ++ [x])) s
               = Ok ((acc', pos'), s')
               /\ (pos <= pos')%nat
               /\ only_adds s s' /\ macros s' = macros s).
  { intros n. unfold bind, make_shared.
    destruct (IH (S pos) (acc ++ [length (heap s)])
                (with_heap (heap s ++ [n]) s))
      as (acc' & pos' & s' & Hr & H1 & H3 & H4); [lia | lia |].
    exists acc', pos', s'. split; [exact Hr |].
    split; [lia |].
    split; [| rewrite H4; reflexivity].
    eapply only_adds_trans; [apply only_adds_make_shared | exact H3]. }
  destruct (Parser.negative_first tok); [exact Hstop |].
  destruct tok as [| c0 r]; [congruence |].
  unfold bind at 1. cbn [Parser.char_at String.get ret].
  destruct (c0 =? dquote)%char; [apply Hnext |].
  destruct (String.eqb (String c0 r) "(").
  { unfold bind at 1.
    destruct (IH (S pos) [] s) as (a1 & p1 & s1 & Hr & H1 & H3 & H4);
      [lia | lia |].
    rewrite Hr. cbn [fst snd]. unfold bind at 1, make_shared at 1.
    destruct (IH (S p1) (acc ++ [length (heap s1)])
                (with_heap (heap s1 ++ [Node_list a1]) s1))
      as (acc' & pos' & s' & Hr' & K1 & K3 & K4); [lia | lia |].
    exists acc', pos', s'. split; [exact Hr' |].
    split; [lia |].
    split; [| rewrite K4; exact H4].
    eapply only_adds_trans; [exact H3 |].
    eapply only_adds_trans; [apply only_adds_make_shared | exact K3]. }
  destruct (String.eqb (String c0 r) ")"); [exact Hstop |].
  destruct (is_number_returns (String c0 r) c0 s) as [b Hb].
  unfold bind at 1. rewrite Hb.
  destruct b; [apply Hnext |].
  destruct (only_adds_ToCode (String c0 r) s) as (c & s1 & Hc & Hs1 & Hm1).
  unfold bind at 1. rewrite Hc.
  unfold bind at 1, make_shared at 1.
  match goal with
  | |- context [Parser.parse fuel tokens (S pos) ?a ?st] =>
      destruct (IH (S pos) a st)
        as (acc' & pos' & s' & Hr & H1 & H3 & H4); [lia | lia |]
  end.
  exists acc', pos', s'. split; [exact Hr |].
  split; [lia |].
  split; [| rewrite H4; exact Hm1].
  eapply only_adds_trans; [exact Hs1 |].
  eapply only_adds_trans; [apply only_adds_make_shared | exact H3].
Qed.

Lemma run_returns (s : string) :
  s <> EmptyString ->
  Z.of_nat (String.length s) <= 2 ^ 63 ->
  (forall i, String.get i s = Some "\"%char -> (S i < String.length s)%nat) ->
  exists k, Tokenizer.run s = Ok k.
Proof.
  intros Hne Hsize Hesc.
  assert (Hpos : 0 < Z.of_nat (String.length s)).
  { destruct s; [congruence | simpl; lia]. }
  unfold Tokenizer.run. rewrite wrap64_small by lia.
  apply (loop_returns s (Z.of_nat (String.length s) - 1) eq_refl
           ltac:(lia) ltac:(lia) Hesc); lia.
Qed.

(** X3. The reader returns on every buffer the tokenizer returns on,
    whatever the parentheses: it yields a sequence of forms, the state it
    leaves has the old heap and the old symbol names as prefixes (cells are
    allocated and names interned, nothing is overwritten), and the frames,
    the global frame, the macro table and the output are untouched. *)
Theorem parse_returns (s : string) (st : state) :
  s <> EmptyString ->
  Z.of_nat (String.length s) <= 2 ^ 63 ->
  (forall i, String.get i s = Some "\"%char -> (S i < String.length s)%nat) ->
  exists forms st',
    parse s st = Ok (forms, st') /\ only_adds st st' /\ macros st' = macros st.
Proof.
  intros Hne Hsize Hesc.
  destruct (run_returns s Hne Hsize Hesc) as [k Hk].
  assert (Htok : tokenize s = Ok (Tokenizer.ret k))
    by (unfold tokenize; rewrite Hk; reflexivity).
  pose proof (run_nonempty s k Hk) as Hnonempty.
  destruct (parse_steps (Tokenizer.ret k) Hnonempty
              (length (Tokenizer.ret k) + 2) 0 [] st)
    as (forms & pos & st' & Hr & _ & Hadds & Hm); [lia | lia |].
  exists forms, st'. split; [| split; assumption].
  unfold parse, bind, lift. rewrite Htok, Hr. reflexivity.
Qed.

Lemma parse_returns_witness :
  let s := "(pr " +:+ String dquote "a\nb))" in
  s <> EmptyString
  /\ Z.of_nat (String.length s) <= 2 ^ 63
  /\ (forall i, String.get i s = Some "\"%char -> (S i < String.length s)%nat)
  /\ exists forms st',
       parse s start = Ok (forms, st') /\ only_adds start st'
       /\ macros st' = macros start.
Proof.
  intros s.
  assert (H1 : s <> EmptyString) by discriminate.
  assert (H2 : Z.of_nat (String.length s) <= 2 ^ 63)
    by (vm_compute; discriminate).
  assert (H3 : forall i, String.get i s = Some "\"%char ->
                         (S i < String.length s)%nat).
  { intros i H.
    do 11 (destruct i as [| i]; [try discriminate H; simpl; lia |]).
    destruct i; discriminate H. }
  split; [exact H1 |]. split; [exact H2 |]. split; [exact H3 |].
  exact (parse_returns s start H1 H2 H3).
Defined.





(** ** Binding and lookup *)

(** X5. [environment::set] then [environment::get]: after the symbol [k] is
    bound to [v] in the frame [e], a lookup of [k] from [e] yields [v]; the
    lookup of every other symbol from [e], and every lookup from an older
    frame, yields what it did before; the heap is untouched and the frames
    stay linked to older frames. *)
Theorem set_then_get (s : state) (e : senvironment) (k v : snode)
  (kn : Node) (fr : environment) :
  envs_wf (envs s) ->
  heap s !! k = Some kn -> envs s !! e = Some fr ->
  exists s',
    set e k v s = Ok (v, s')
    /\ heap s' = heap s
    /\ envs_wf (envs s')
    /\ get s' e (code kn) = v
    /\ (forall c, c <> code kn -> get s' e c = get s e c)
    /\ (forall o c, (o < e)%nat -> get s' o c = get s o c).
Proof.
  intros Hwf Hk Hfr.
  set (fr' := mkEnvironment (<[code kn := v]> (env fr)) (outer fr)).
  set (s' := with_envs (<[e := fr']> (envs s)) s).
  assert (Hset : set e k v s = Ok (v, s')) by (apply set_ok; assumption).
  assert (Hbind : bind_in e (code kn) v s = Ok (tt, s'))
    by (apply bind_in_ok; exact Hfr).
  pose proof (bind_in_wf e (code kn) v s s' Hwf Hbind) as Hwf'.
  assert (Hlt : (e < length (envs s))%nat) by (eapply lookup_lt_Some; eauto).
  assert (Hfr' : envs s' !! e = Some fr')
    by (apply list_lookup_insert_eq; exact Hlt).
  assert (Hold : forall o c, (o < e)%nat -> get s' o c = get s o c)
    by (intros o c Ho; apply get_older_frame; assumption).
  exists s'. split; [exact Hset |]. split; [reflexivity |].
  split; [exact Hwf' |].
  split.
  { rewrite get_unfold by exact Hwf'. rewrite Hfr'. simpl.
    rewrite lookup_insert_eq. reflexivity. }
  split; [| exact Hold].
  intros c Hc.
  rewrite (get_unfold s') by exact Hwf'. rewrite (get_unfold s) by exact Hwf.
  rewrite Hfr', Hfr. simpl.
  rewrite lookup_insert_ne by congruence.
  destruct (env fr !! c); [reflexivity |].
  destruct (outer fr) as [o |] eqn:Ho; [| reflexivity].
  apply Hold. exact (Hwf e fr o Hfr Ho).
Qed.

Lemma set_then_get_witness :
  envs_wf (envs sample_state)
  /\ exists s',
       set 1%nat 9%nat 10%nat sample_state = Ok (10%nat, s')
       /\ get s' 1%nat 2%N = 10%nat
       /\ get s' 0%nat 2%N = get sample_state 0%nat 2%N.
Proof.
  split; [exact sample_envs_wf |].
  destruct (set_then_get sample_state 1%nat 9%nat 10%nat
              (mkNode T_SYMBOL 2 "x" [] None)
              (mkEnvironment ∅ (Some 0%nat))
              sample_envs_wf eq_refl eq_refl)
    as (s' & Hset & _ & _ & Hget & _ & Hold).
  exists s'. split; [exact Hset |]. split; [exact Hget |].
  apply Hold. lia.
Defined.

(** ** Short-circuit forms *)










(** ** Function application *)

Lemma bind_all_lookup (symnodes : list Node) (args : list snode) :
  NoDup (code <$> symnodes) ->
  forall m i sn a,
    symnodes !! i = Some sn -> args !! i = Some a ->
    bind_all symnodes args m !! code sn = Some a.
Proof.
  unfold bind_all. revert args.
  induction symnodes as [| x r IH]; intros args Hnd m i sn a Hs Ha;
    [discriminate Hs |].
  destruct args as [| y args]; [discriminate Ha |].
  rewrite fmap_cons in Hnd. apply NoDup_cons in Hnd as [Hx Hr].
  simpl. destruct i as [| i]; simpl in Hs, Ha.
  - injection Hs as <-. injection Ha as <-.
    clear IH. 
    assert (Hkeep : forall l : list (Node * snode),
              Forall (fun p => code (fst p) <> code x) l ->
              forall m0, m0 !! code x = Some y ->
                foldl (fun (m1 : gmap N snode) '((sn, a) : Node * snode) =>
                         <[code sn := a]> m1) m0 l
                  !! code x = Some y).
    { induction l as [| [q b] l IHl]; intros Hl m0 Hm0; [exact Hm0 |].
      apply Forall_cons in Hl as [Hq Hl]. simpl. apply IHl; [exact Hl |].
      rewrite lookup_insert_ne by exact Hq. exact Hm0. }
    apply Hkeep; [| apply lookup_insert_eq].
    apply Forall_forall. intros [q b] Hin Heq. simpl in Heq.
    apply Hx. rewrite <- Heq. apply list_elem_of_fmap.
    exists q. split; [reflexivity |].
    apply elem_of_zip_l in Hin. exact Hin.
  - eapply IH; eassumption.
Qed.

(** X8. Applying a closure. A new frame is created whose outer link is the
    frame the closure captured; the frame [apply] is handed is ignored. The
    parameters are bound in the new frame to the argument cells themselves,
    position by position, arguments beyond the parameters are dropped, and
    the body runs in that frame. With distinct parameters each one is bound
    to the argument at its position. *)
Theorem apply_binds_by_reference (k : nat) (func : snode)
  (args : list snode) (e0 : senvironment) (s : state) (fd pn : Node)
  (p : snode) (symnodes : list Node) :
  heap s !! func = Some fd -> type fd = T_FN ->
  v_list fd !! 1%nat = Some p -> heap s !! p = Some pn ->
  Forall2 (fun sym sn => heap s !! sym = Some sn) (v_list pn) symnodes ->
  (length (v_list pn) <= length args)%nat ->
  let local_env := length (envs s) in
  let bound := bind_all symnodes args ∅ in
  apply (S k) func args e0 s =
    run_body (eval k) func local_env
      (with_envs (envs s ++ [mkEnvironment bound (outer_env fd)]) s)
  /\ (NoDup (code <$> symnodes) ->
      forall i sn a, symnodes !! i = Some sn -> args !! i = Some a ->
        bound !! code sn = Some a).
Proof.
  intros Hf Ht Hp Hpn Hsyms Hlen local_env bound.
  split; [| intros Hnd i sn a; apply bind_all_lookup; exact Hnd].
  exact (apply_closure k func args e0 s fd pn p symnodes
           Hf Ht Hp Hpn Hsyms Hlen).
Qed.

Lemma apply_binds_by_reference_witness :
  let s := with_heap (heap start ++
                      [mkNode T_SYMBOL 0 "x" [] None; Node_list [5%nat];
                       mkNode T_FN 0 EmptyString [5; 6; 5]%nat None]) start in
  apply 2 7%nat [2; 3]%nat 99%nat s
  = Ok (2%nat, with_envs [mkEnvironment {[0%N := 2%nat]} None] s).
Proof.
  intros s.
  rewrite (proj1 (apply_binds_by_reference 1 7%nat [2; 3]%nat 99%nat s
                    (mkNode T_FN 0 EmptyString [5; 6; 5]%nat None)
                    (Node_list [5%nat]) 6%nat
                    [mkNode T_SYMBOL 0 "x" [] None]
                    eq_refl eq_refl eq_refl eq_refl
                    ltac:(repeat constructor) ltac:(simpl; lia))).
  reflexivity.
Defined.



(** ** List builtins *)

Lemma with_v_list_same (n : Node) : with_v_list (v_list n) n = n.
Proof. destruct n; reflexivity. Qed.

Lemma with_heap_same (s : state) : with_heap (heap s) s = s.
Proof. destruct s; reflexivity. Qed.

(** X10. [push-back!] appends a copy of the item, in a new cell, to the list
    cell itself and returns the list; [pop-back!] right after it returns
    that copy and leaves the list as it was before the push. *)
Theorem push_back_then_pop_back (s : state) (env : senvironment)
  (l x : snode) (ln xn : Node) :
  heap s !! l = Some ln -> heap s !! x = Some xn ->
  let item := length (heap s) in
  exists s1,
    builtin_push_backd [l; x] env s = Ok (l, s1)
    /\ heap s1 !! l = Some (with_v_list (v_list ln ++ [item]) ln)
    /\ heap s1 !! item = Some xn
    /\ builtin_pop_backd [l] env s1
       = Ok (item, with_heap (heap s ++ [xn]) s).
Proof.
  intros Hl Hx item.
  assert (Hlt : (l < length (heap s))%nat) by (eapply lookup_lt_Some; eauto).
  set (ln1 := with_v_list (v_list ln ++ [item]) ln).
  set (s1 := with_heap (<[l := ln1]> (heap s ++ [xn])) s).
  assert (Hl1 : heap s1 !! l = Some ln1).
  { apply list_lookup_insert_eq. rewrite length_app. lia. }
  exists s1. split.
  { unfold builtin_push_backd.
    rewrite (bind_ok _ _ _ _ _ (index_ok [l; x] 0 l s eq_refl)).
    rewrite (bind_ok _ _ _ _ _ (index_ok [l; x] 1 x s eq_refl)).
    rewrite (bind_ok _ _ _ _ _ (clone_ok _ _ _ Hx)).
    rewrite (bind_ok _ _ _ _ _
               (deref_ok (with_heap (heap s ++ [xn]) s) l ln
                  (lookup_snoc_old _ _ _ _ Hl))).
    reflexivity. }
  split; [exact Hl1 |].
  split.
  { unfold s1. simpl. rewrite list_lookup_insert_ne by (unfold item; lia).
    apply list_lookup_middle. reflexivity. }
  unfold builtin_pop_backd.
  rewrite (bind_ok _ _ _ _ _ (index_ok [l] 0 l s1 eq_refl)).
  rewrite (bind_ok _ _ _ _ _ (deref_ok _ _ _ Hl1)).
  unfold ln1 at 1. simpl. rewrite last_snoc.
  unfold bind, assign, modify, ret. f_equal. f_equal.
  unfold s1, with_heap. simpl. f_equal.
  rewrite list_insert_insert_eq. rewrite removelast_last.
  replace (with_v_list (v_list ln) ln1) with ln
    by (destruct ln; reflexivity).
  apply list_insert_id.
  apply lookup_snoc_old. exact Hl.
Qed.

Lemma push_back_then_pop_back_witness :
  let s := with_heap (heap start ++ [Node_list [2; 3]%nat]) start in
  exists s1,
    builtin_push_backd [5; 3]%nat 0%nat s = Ok (5%nat, s1)
    /\ heap s1 !! 5%nat = Some (Node_list [2; 3; 6]%nat)
    /\ builtin_pop_backd [5%nat] 0%nat s1
       = Ok (6%nat, with_heap (heap s ++ [Node_int 1]) s).
Proof.
  intros s.
  destruct (push_back_then_pop_back s 0%nat 5%nat 3%nat
              (Node_list [2; 3]%nat) (Node_int 1) eq_refl eq_refl)
    as (s1 & Hpush & Hl & _ & Hpop).
  exists s1. split; [exact Hpush |]. split; [exact Hl | exact Hpop].
Defined.

(** X11. [cons] builds a new list cell and leaves its operands as they are:
    the new list has one element more than the old one, its element 0 is the
    cell given as first operand, not a copy, and its element [i + 1] is the
    element [i] of the old list. *)
Theorem cons_shares_cells (s : state) (env : senvironment) (x l : snode)
  (ln : Node) :
  heap s !! l = Some ln ->
  let r := length (heap s) in
  let s1 := with_heap (heap s ++ [Node_list (x :: v_list ln)]) s in
  builtin_cons [x; l] env s = Ok (r, s1)
  /\ heap s1 !! l = Some ln
  /\ builtin_length [r] env s1
     = Ok (S r, with_heap
                  (heap s1 ++
                   [Node_int (wrap32 (Z.of_nat (S (length (v_list ln)))))]) s1)
  /\ (forall ic icn, heap s1 !! ic = Some icn -> to_int icn = 0 ->
        builtin_nth [ic; r] env s1 = Ok (x, s1))
  /\ (forall ic icn i y, heap s1 !! ic = Some icn ->
        to_int icn = Z.of_nat (S i) -> v_list ln !! i = Some y ->
        builtin_nth [ic; r] env s1 = Ok (y, s1)).
Proof.
  intros Hl r s1.
  assert (Hr : heap s1 !! r = Some (Node_list (x :: v_list ln)))
    by (apply list_lookup_middle; reflexivity).
  split.
  { unfold builtin_cons.
    rewrite (bind_ok _ _ _ _ _ (index_ok [x; l] 0 x s eq_refl)).
    rewrite (bind_ok _ _ _ _ _ (index_ok [x; l] 1 l s eq_refl)).
    rewrite (bind_ok _ _ _ _ _ (deref_ok _ _ _ Hl)). reflexivity. }
  split; [apply lookup_snoc_old; exact Hl |].
  split.
  { unfold builtin_length.
    rewrite (bind_ok _ _ _ _ _ (index_ok [r] 0 r s1 eq_refl)).
    rewrite (bind_ok _ _ _ _ _ (deref_ok _ _ _ Hr)).
    unfold make_shared. f_equal. f_equal.
    unfold s1. simpl. rewrite length_app. simpl. unfold r. lia. }
  split.
  - intros ic icn Hic Hz. unfold builtin_nth.
    rewrite (bind_ok _ _ _ _ _ (index_ok [ic; r] 0 ic s1 eq_refl)).
    rewrite (bind_ok _ _ _ _ _ (deref_ok _ _ _ Hic)). rewrite Hz. simpl.
    rewrite (bind_ok _ _ _ _ _ (index_ok [ic; r] 1 r s1 eq_refl)).
    rewrite (bind_ok _ _ _ _ _ (deref_ok _ _ _ Hr)). reflexivity.
  - intros ic icn i y Hic Hz Hy. unfold builtin_nth.
    rewrite (bind_ok _ _ _ _ _ (index_ok [ic; r] 0 ic s1 eq_refl)).
    rewrite (bind_ok _ _ _ _ _ (deref_ok _ _ _ Hic)). rewrite Hz.
    destruct (Z.ltb_spec (Z.of_nat (S i)) 0) as [Hneg | _]; [lia |].
    rewrite (bind_ok _ _ _ _ _ (index_ok [ic; r] 1 r s1 eq_refl)).
    rewrite (bind_ok _ _ _ _ _ (deref_ok _ _ _ Hr)).
    rewrite Nat2Z.id. apply index_ok. exact Hy.
Qed.

Lemma cons_shares_cells_witness :
  let s := with_heap (heap start ++ [Node_list [2; 3]%nat]) start in
  heap s !! 5%nat = Some (Node_list [2; 3]%nat)
  /\ builtin_cons [0; 5]%nat 0%nat s
     = Ok (6%nat, with_heap (heap s ++ [Node_list [0; 2; 3]%nat]) s)
  /\ builtin_nth [2; 6]%nat 0%nat
       (with_heap (heap s ++ [Node_list [0; 2; 3]%nat]) s)
     = Ok (0%nat, with_heap (heap s ++ [Node_list [0; 2; 3]%nat]) s).
Proof.
  intros s.
  destruct (cons_shares_cells s 0%nat 0%nat 5%nat (Node_list [2; 3]%nat)
              eq_refl) as (Hcons & _ & _ & Hnth & _).
  split; [reflexivity |]. split; [exact Hcons |].
  exact (Hnth 2%nat (Node_int 0) eq_refl eq_refl).
Defined.

Lemma mapM_length {A B : Type} (f : A -> M B) (l : list A) :
  forall s ys s', mapM f l s = Ok (ys, s') -> length ys = length l.
Proof.
  induction l as [| x r IH]; intros s ys s' H.
  - injection H as <- _. reflexivity.
  - cbn [mapM] in H. unfold bind at 1 in H.
    destruct (f x s) as [[y s1] |]; [| discriminate H].
    unfold bind at 1 in H.
    destruct (mapM f r s1) as [[ys1 s2] |] eqn:Hr; [| discriminate H].
    injection H as <- _. simpl. f_equal. eapply IH. exact Hr.
Qed.

(** X12. Whenever [std::map] returns, its result is a list cell with as many
    elements as the list operand had when the call started. *)
Theorem map_keeps_length (ap : snode -> list snode -> senvironment -> M snode)
  (args : list snode) (env : senvironment) (s s' : state) (r : snode) :
  builtin_map ap args env s = Ok (r, s') ->
  exists f lst ln acc,
    args !! 0%nat = Some f /\ args !! 1%nat = Some lst
    /\ heap s !! lst = Some ln
    /\ heap s' !! r = Some (Node_list acc)
    /\ length acc = length (v_list ln).
Proof.
  unfold builtin_map. intros H.
  unfold bind at 1, index at 1 in H.
  destruct (args !! 0%nat) as [f |] eqn:Hf; [| discriminate H].
  cbn [ret] in H.
  unfold bind at 1, index at 1 in H.
  destruct (args !! 1%nat) as [lst |] eqn:Hlst; [| discriminate H].
  cbn [ret] in H.
  unfold bind at 1, deref at 1 in H.
  destruct (heap s !! lst) as [ln |] eqn:Hln; [| discriminate H].
  unfold bind at 1 in H.
  match type of H with
  | match ?m with _ => _ end = _ =>
      destruct m as [[acc s1] |] eqn:Hmap; [| discriminate H]
  end.
  unfold make_shared in H. injection H as <- <-.
  exists f, lst, ln, acc.
  split; [first [reflexivity | assumption] |].
  split; [first [reflexivity | assumption] |].
  split; [first [reflexivity | assumption] |].
  split; [apply list_lookup_middle; reflexivity |].
  apply mapM_length in Hmap. rewrite Hmap. apply length_seq.
Qed.

Lemma map_keeps_length_witness :
  let s := with_heap (heap start ++
                      [Node_builtin Fn.builtin_not; Node_list [0; 1]%nat])
             start in
  exists r s' acc,
    builtin_map (apply 3) [5; 6]%nat 0%nat s = Ok (r, s')
    /\ heap s' !! r = Some (Node_list acc) /\ length acc = 2%nat.
Proof.
  intros s.
  destruct (builtin_map (apply 3) [5; 6]%nat 0%nat s) as [[r s'] |] eqn:Hrun;
    [| vm_compute in Hrun; discriminate Hrun].
  destruct (map_keeps_length (apply 3) [5; 6]%nat 0%nat s s' r Hrun)
    as (f & lst & ln & acc & _ & Hlst & Hln & Hr & Hlen).
  exists r, s', acc. split; [reflexivity |]. split; [exact Hr |].
  injection Hlst as <-. vm_compute in Hln. injection Hln as <-.
  exact Hlen.
Defined.

(** X13. [fold] starts from element 0 of the list. On the empty list this
    reads outside the vector; on a list of one element the element itself is
    returned and the function is not called; on a list of two the result is
    the function applied to both. *)
Theorem fold_needs_an_element (gas : nat)
  (ap : snode -> list snode -> senvironment -> M snode)
  (f lst : snode) (env : senvironment) (s : state) (ln : Node) :
  heap s !! lst = Some ln ->
  (v_list ln = [] -> builtin_fold gas ap [f; lst] env s = Crash Undefined)
  /\ (forall x, v_list ln = [x] ->
        builtin_fold (S gas) ap [f; lst] env s = Ok (x, s))
  /\ (forall x y r s', v_list ln = [x; y] ->
        ap f [x; y] env s = Ok (r, s') -> heap s' !! lst = Some ln ->
        builtin_fold (S (S gas)) ap [f; lst] env s = Ok (r, s')).
Proof.
  intros Hl.
  assert (Hstart : forall g,
            builtin_fold g ap [f; lst] env s =
            (acc <- index (v_list ln) 0 ;; fold_loop ap g f lst 1 acc env) s).
  { intros g. unfold builtin_fold.
    rewrite (bind_ok _ _ _ _ _ (index_ok [f; lst] 0 f s eq_refl)).
    rewrite (bind_ok _ _ _ _ _ (index_ok [f; lst] 1 lst s eq_refl)).
    rewrite (bind_ok _ _ _ _ _ (deref_ok _ _ _ Hl)). reflexivity. }
  split; [| split].
  - intros Hnil. rewrite Hstart, Hnil. reflexivity.
  - intros x Hx. rewrite Hstart, Hx. cbn [index lookup list_lookup].
    unfold bind at 1, ret at 1. cbn [fold_loop].
    rewrite (bind_ok _ _ _ _ _ (deref_ok _ _ _ Hl)). rewrite Hx. reflexivity.
  - intros x y r s' Hxy Hap Hl'. rewrite Hstart, Hxy.
    cbn [index lookup list_lookup]. unfold bind at 1, ret at 1.
    cbn [fold_loop].
    rewrite (bind_ok _ _ _ _ _ (deref_ok _ _ _ Hl)). rewrite Hxy.
    cbn [length Nat.ltb Nat.leb].
    rewrite (bind_ok _ _ _ _ _ (at_ok [x; y] 1 y s eq_refl)).
    rewrite (bind_ok _ _ _ _ _ Hap).
    rewrite (bind_ok _ _ _ _ _ (deref_ok _ _ _ Hl')). rewrite Hxy.
    reflexivity.
Qed.

Lemma fold_needs_an_element_witness :
  let s := with_heap (heap start ++
                      [Node_builtin Fn.builtin_plus; Node_list [];
                       Node_list [3%nat]]) start in
  builtin_fold 1 (apply 3) [5; 6]%nat 0%nat s = Crash Undefined
  /\ builtin_fold 1 (apply 3) [5; 7]%nat 0%nat s = Ok (3%nat, s).
Proof.
  intros s. split.
  - exact (proj1 (fold_needs_an_element 1 (apply 3) 5%nat 6%nat 0%nat s
                    (Node_list []) eq_refl) eq_refl).
  - exact (proj1 (proj2 (fold_needs_an_element 0 (apply 3) 5%nat 7%nat 0%nat
                           s (Node_list [3%nat]) eq_refl)) 3%nat eq_refl).
Defined.

(** ** Characters, counters and strings *)

(** X14. [chr] then [char-at]: the character at index 0 of [(chr c)] is [c]
    reduced to a signed byte, that is the number from -128 to 127 congruent
    to [c] modulo 256. When [c] is a multiple of 256 the string is empty and
    index 0 reads its terminator, which is 0 as well. *)
Theorem chr_then_char_at (s : state) (env : senvironment) (a z : snode)
  (an zn : Node) :
  heap s !! a = Some an -> heap s !! z = Some zn -> to_int zn = 0 ->
  let c := to_int an in
  let r := length (heap s) in
  exists text,
    let s1 := with_heap (heap s ++ [Node_string text]) s in
    builtin_chr [a] env s = Ok (r, s1)
    /\ builtin_char_at [r; z] env s1
       = Ok (S r, with_heap
                    (heap s1 ++ [Node_int ((c + 128) mod 256 - 128)]) s1).
Proof.
  intros Ha Hz Hzero c r.
  set (text := if c mod 256 =? 0 then EmptyString
               else String (ascii_of_nat (Z.to_nat (c mod 256))) EmptyString).
  exists text. intros s1.
  assert (Hr : heap s1 !! r = Some (Node_string text))
    by (apply list_lookup_middle; reflexivity).
  assert (Hz1 : heap s1 !! z = Some zn) by (apply lookup_snoc_old; exact Hz).
  split.
  { unfold builtin_chr.
    rewrite (bind_ok _ _ _ _ _ (index_ok [a] 0 a s eq_refl)).
    rewrite (bind_ok _ _ _ _ _ (deref_ok _ _ _ Ha)). reflexivity. }
  unfold builtin_char_at.
  rewrite (bind_ok _ _ _ _ _ (index_ok [r; z] 1 z s1 eq_refl)).
  rewrite (bind_ok _ _ _ _ _ (deref_ok _ _ _ Hz1)). rewrite Hzero. simpl.
  rewrite (bind_ok _ _ _ _ _ (index_ok [r; z] 0 r s1 eq_refl)).
  rewrite (bind_ok _ _ _ _ _ (deref_ok _ _ _ Hr)).
  cbn [v_string Node_string]. unfold text.
  pose proof (Z.mod_pos_bound c 256 ltac:(lia)) as Hm.
  destruct (Z.eqb_spec (c mod 256) 0) as [Hc0 | Hc0].
  - simpl. unfold make_shared. f_equal. f_equal.
    + unfold s1. simpl. rewrite length_app. simpl. unfold r. lia.
    + f_equal. f_equal. f_equal.
      pose proof (Z.div_mod c 256 ltac:(lia)) as Hdm.
      replace ((c + 128) mod 256) with 128
        by (apply (Z.mod_unique (c + 128) 256 (c / 256) 128); lia).
      reflexivity.
  - cbn [String.get]. change (Z.to_nat 0) with 0%nat. cbv iota.
    unfold make_shared. f_equal. f_equal.
    + unfold s1. simpl. rewrite length_app. simpl. unfold r. lia.
    + do 2 f_equal. unfold int_of_char.
      rewrite nat_ascii_embedding by lia. rewrite Z2Nat.id by lia.
      pose proof (Z.div_mod c 256 ltac:(lia)) as Hdm.
      destruct (Z.ltb_spec (c mod 256) 128) as [Hlow | Hhigh].
      * replace ((c + 128) mod 256) with (c mod 256 + 128)
          by (apply (Z.mod_unique (c + 128) 256 (c / 256)); lia).
        replace (c mod 256 + 128 - 128) with (c mod 256) by lia.
        reflexivity.
      * replace ((c + 128) mod 256) with (c mod 256 - 128)
          by (apply (Z.mod_unique (c + 128) 256 (c / 256 + 1)); lia).
        replace (c mod 256 - 128 - 128) with (c mod 256 - 256) by lia.
        reflexivity.
Qed.

Lemma chr_then_char_at_witness :
  let s := with_heap (heap start ++ [Node_int 200]) start in
  exists text,
    builtin_chr [5%nat] 0%nat s
    = Ok (6%nat, with_heap (heap s ++ [Node_string text]) s)
    /\ builtin_char_at [6; 2]%nat 0%nat
         (with_heap (heap s ++ [Node_string text]) s)
       = Ok (7%nat, with_heap
                      ((heap s ++ [Node_string text]) ++ [Node_int (-56)])
                      (with_heap (heap s ++ [Node_string text]) s)).
Proof.
  intros s.
  destruct (chr_then_char_at s 0%nat 5%nat 2%nat (Node_int 200) (Node_int 0)
              eq_refl eq_refl eq_refl) as (text & Hchr & Hat).
  exists text. split; [exact Hchr | exact Hat].
Defined.

Lemma with_u_same (n : Node) : with_u (u n) n = n.
Proof. destruct n; reflexivity. Qed.

Lemma v_int_range (n : Node) : INT_MIN <= v_int n <= INT_MAX.
Proof.
  unfold v_int, wrap32, INT_MIN, INT_MAX.
  pose proof (Z.mod_pos_bound (u n + 2 ^ 31) (2 ^ 32) ltac:(lia)). lia.
Qed.

(** X15. [++] on an [int] cell below [INT_MAX] adds one to the cell in place
    and returns the cell itself, touching no other cell; [--] right after it
    restores the state exactly. *)
Theorem plusplus_then_minusminus (s : state) (env : senvironment)
  (a : snode) (an : Node) :
  heap s !! a = Some an -> type an = T_INT -> v_int an < INT_MAX ->
  exists s1 an1,
    builtin_plusplus [a] env s = Ok (a, s1)
    /\ heap s1 !! a = Some an1 /\ type an1 = T_INT
    /\ v_int an1 = v_int an + 1
    /\ (forall b, b <> a -> heap s1 !! b = heap s !! b)
    /\ builtin_minusminus [a] env s1 = Ok (a, s).
Proof.
  intros Ha Ht Hmax.
  assert (Hlt : (a < length (heap s))%nat) by (eapply lookup_lt_Some; eauto).
  pose proof (v_int_range an) as Hrange.
  set (an1 := set_v_int (wrap32 (v_int an + 1)) an).
  set (s1 := with_heap (<[a := an1]> (heap s)) s).
  assert (Ha1 : heap s1 !! a = Some an1)
    by (apply list_lookup_insert_eq; exact Hlt).
  assert (Hw : wrap32 (v_int an + 1) = v_int an + 1).
  { unfold wrap32, INT_MIN, INT_MAX in *.
    rewrite Z.mod_small by lia. lia. }
  assert (Hv1 : v_int an1 = v_int an + 1).
  { unfold an1, set_v_int, v_int at 1. simpl. rewrite Hw.
    unfold wrap32.
    replace (u an / 2 ^ 32 * 2 ^ 32 + (v_int an + 1) mod 2 ^ 32 + 2 ^ 31)
      with ((v_int an + 1) mod 2 ^ 32 + 2 ^ 31 + (u an / 2 ^ 32) * 2 ^ 32)
      by lia.
    rewrite Z.mod_add by lia.
    rewrite Zplus_mod_idemp_l.
    unfold INT_MIN, INT_MAX in *. rewrite Z.mod_small by lia. lia. }
  exists s1, an1.
  split.
  { unfold builtin_plusplus, step_in_place.
    rewrite (bind_ok _ _ _ _ _ (deref_ok _ _ _ Ha)).
    destruct (decide (type an = T_INT)) as [_ | Hn]; [| contradiction].
    reflexivity. }
  split; [exact Ha1 |]. split; [exact Ht |]. split; [exact Hv1 |].
  split; [intros b Hb; apply list_lookup_insert_ne; congruence |].
  unfold builtin_minusminus, step_in_place.
  rewrite (bind_ok _ _ _ _ _ (deref_ok _ _ _ Ha1)).
  destruct (decide (type an1 = T_INT)) as [_ | Hn]; [| contradiction].
  unfold bind, assign, modify, ret. f_equal. f_equal.
  rewrite Hv1.
  replace (v_int an + 1 + -1) with (v_int an) by lia.
  assert (Hback : set_v_int (wrap32 (v_int an)) an1 = an).
  { unfold set_v_int, an1. simpl.
    replace (wrap32 (v_int an)) with (v_int an)
      by (unfold wrap32, INT_MIN, INT_MAX in *;
          rewrite Z.mod_small by lia; lia).
    rewrite Hw.
    replace ((u an / 2 ^ 32 * 2 ^ 32 + (v_int an + 1) mod 2 ^ 32) / 2 ^ 32)
      with (u an / 2 ^ 32).
    2:{ rewrite Z.add_comm, Z.div_add by lia.
        rewrite (Z.div_small ((v_int an + 1) mod 2 ^ 32))
          by (apply Z.mod_pos_bound; lia).
        reflexivity. }
    replace (v_int an mod 2 ^ 32) with (u an mod 2 ^ 32).
    2:{ unfold v_int, wrap32.
        rewrite <- Zminus_mod_idemp_l. rewrite Z.mod_mod by lia.
        rewrite Zminus_mod_idemp_l.
        replace (u an + 2 ^ 31 - 2 ^ 31) with (u an) by lia. reflexivity. }
    replace (u an / 2 ^ 32 * 2 ^ 32 + u an mod 2 ^ 32) with (u an)
      by (pose proof (Z.div_mod (u an) (2 ^ 32) ltac:(lia)); lia).
    destruct an; reflexivity. }
  rewrite Hback. unfold s1, with_heap. simpl.
  rewrite list_insert_insert_eq, list_insert_id by exact Ha.
  destruct s; reflexivity.
Qed.

Lemma plusplus_then_minusminus_witness :
  let s := with_heap (heap start ++ [Node_int (-7)]) start in
  exists s1 an1,
    builtin_plusplus [5%nat] 0%nat s = Ok (5%nat, s1)
    /\ heap s1 !! 5%nat = Some an1 /\ v_int an1 = -6
    /\ builtin_minusminus [5%nat] 0%nat s1 = Ok (5%nat, s).
Proof.
  intros s.
  destruct (plusplus_then_minusminus s 0%nat 5%nat (Node_int (-7))
              eq_refl eq_refl ltac:(vm_compute; reflexivity))
    as (s1 & an1 & Hpp & Ha1 & _ & Hv & _ & Hmm).
  exists s1, an1. split; [exact Hpp |]. split; [exact Ha1 |].
  split; [exact Hv | exact Hmm].
Defined.

Lemma string_append_assoc (a b c : string) : (a +:+ b) +:+ c = a +:+ (b +:+ c).
Proof.
  induction a as [| x a IH]; [reflexivity |].
  change (String x ((a +:+ b) +:+ c) = String x (a +:+ (b +:+ c))).
  f_equal. exact IH.
Qed.

Lemma string_append_empty_r (a : string) : a +:+ EmptyString = a.
Proof.
  induction a as [| x a IH]; [reflexivity |].
  change (String x (a +:+ EmptyString) = String x a). f_equal. exact IH.
Qed.

Lemma string_of_ok (gas : nat) (s : state) (a : snode) (t : string) :
  renders gas s a t -> string_of gas a s = Ok (t, s).
Proof.
  intros (an & Ha & _ & Ht). unfold string_of.
  rewrite (bind_ok _ _ _ _ _ (deref_ok _ _ _ Ha)).
  unfold bind, gets, lift. rewrite Ht. reflexivity.
Qed.

Lemma mapM_string_of (gas : nat) (s : state) (args : list snode)
  (texts : list string) :
  Forall2 (renders gas s) args texts ->
  mapM (string_of gas) args s = Ok (texts, s).
Proof.
  induction 1 as [| a t args texts Ha _ IH]; [reflexivity |].
  cbn [mapM]. rewrite (bind_ok _ _ _ _ _ (string_of_ok _ _ _ _ Ha)).
  rewrite (bind_ok _ _ _ _ _ IH). reflexivity.
Qed.

(** X16. The builtin bound to [string] and [std::string] returns the empty
    string when it is given at most one operand, whatever the operand is.
    Given two or more operands that are [nil], ints, [bool] cells, strings,
    symbols, or lists of such cells, it returns the concatenation of their
    renderings. (Doubles and builtins, which [to_string] hands to [%.16g]
    and [%p] of the C library, are left out.) *)
Theorem string_needs_two_operands (gas : nat) (args : list snode)
  (env : senvironment) (s : state) :
  ((length args <= 1)%nat ->
   builtin_string gas args env s
   = Ok (length (heap s),
         with_heap (heap s ++ [Node_string EmptyString]) s))
  /\ (forall texts, (2 <= length args)%nat ->
        Forall2 (renders gas s) args texts ->
        builtin_string gas args env s
        = Ok (length (heap s),
              with_heap (heap s ++
                         [Node_string (join_with EmptyString texts)]) s)).
Proof.
  split.
  - intros Hlen. unfold builtin_string.
    destruct (Nat.leb_spec (length args) 1) as [_ | Hgt]; [reflexivity | lia].
  - intros texts Hlen Hargs. unfold builtin_string.
    destruct (Nat.leb_spec (length args) 1) as [Hle | _]; [lia |].
    rewrite (bind_ok _ _ _ _ _ (mapM_string_of gas s args texts Hargs)).
    reflexivity.
Qed.

Lemma string_needs_two_operands_witness :
  let s := with_heap (heap start ++ [Node_string "ab"; Node_int 7]) start in
  builtin_string 3 [5%nat] 0%nat s
  = Ok (7%nat, with_heap (heap s ++ [Node_string EmptyString]) s)
  /\ builtin_string 3 [5; 6]%nat 0%nat s
     = Ok (7%nat, with_heap (heap s ++ [Node_string "ab7"]) s).
Proof.
  intros s.
  pose proof (string_needs_two_operands 3 [5%nat] 0%nat s) as [H1 _].
  pose proof (string_needs_two_operands 3 [5; 6]%nat 0%nat s) as [_ H2].
  split; [apply H1; simpl; lia |].
  apply (H2 ["ab"; "7"]); [simpl; lia |].
  repeat constructor.
  - exists (Node_string "ab"). repeat split; reflexivity.
  - exists (Node_int 7). repeat split; reflexivity.
Defined.










(** ** The compile pass only adds *)

Lemma adds_ret {A : Type} (a : A) : adds (ret a).
Proof. intros s x s' H. injection H as _ <-. apply only_adds_refl. Qed.

Lemma adds_crash {A : Type} (e : error) : adds (@crash A e).
Proof. intros s x s' H. discriminate H. Qed.

Lemma adds_bind {A B : Type} (m : M A) (k : A -> M B) :
  adds m -> (forall a, adds (k a)) -> adds (bind m k).
Proof.
  intros Hm Hk s b s' H. unfold bind in H.
  destruct (m s) as [[a s1] |] eqn:Hms; [| discriminate H].
  eapply only_adds_trans; [eapply Hm; exact Hms | eapply Hk; exact H].
Qed.

Lemma adds_deref (a : snode) : adds (deref a).
Proof.
  intros s x s' H. unfold deref in H.
  destruct (heap s !! a); [| discriminate H].
  injection H as _ <-. apply only_adds_refl.
Qed.

Lemma adds_index {A : Type} (v : list A) (i : nat) : adds (index v i).
Proof.
  unfold index. destruct (v !! i); [apply adds_ret | apply adds_crash].
Qed.

Lemma adds_at {A : Type} (v : list A) (i : nat) : adds (at_ v i).
Proof.
  unfold at_. destruct (v !! i); [apply adds_ret | apply adds_crash].
Qed.

Lemma adds_gets {A : Type} (f : state -> A) : adds (gets f).
Proof. intros s x s' H. injection H as _ <-. apply only_adds_refl. Qed.

Lemma adds_make_shared (n : Node) : adds (make_shared n).
Proof.
  intros s x s' H. injection H as _ <-. apply only_adds_make_shared.
Qed.

Lemma adds_with_macros (f : state -> gmap string (list snode)) :
  adds (modify (fun s => with_macros (f s) s)).
Proof.
  intros s x s' H. injection H as _ <-. repeat split; reflexivity.
Qed.

Lemma adds_mapM {A B : Type} (f : A -> M B) (l : list A) :
  (forall x, adds (f x)) -> adds (mapM f l).
Proof.
  intros Hf. induction l as [| x r IH]; [apply adds_ret |].
  cbn [mapM]. apply adds_bind; [apply Hf | intros y].
  apply adds_bind; [exact IH | intros ys; apply adds_ret].
Qed.

Lemma adds_concat_mapM {A B : Type} (f : A -> M (list B)) (l : list A) :
  (forall x, adds (f x)) -> adds (concat_mapM f l).
Proof.
  intros Hf. induction l as [| x r IH]; [apply adds_ret |].
  cbn [concat_mapM]. apply adds_bind; [apply Hf | intros y].
  apply adds_bind; [exact IH | intros ys; apply adds_ret].
Qed.

Lemma adds_apply_macro (vars : gmap string snode) (fuel : nat) :
  forall body, adds (apply_macro fuel body vars).
Proof.
  induction fuel as [| fuel IH]; intros body; [apply adds_crash |].
  cbn [apply_macro]. apply adds_bind; [apply adds_deref | intros b].
  destruct (decide (type b = T_LIST)) as [Hlist | Hnot].
  - apply adds_bind; [| intros r; apply adds_make_shared].
    apply adds_concat_mapM. intros e. unfold apply_macro_element.
    apply adds_bind; [apply adds_deref | intros en].
    destruct (String.eqb (v_string en) ellipsis).
    + destruct (vars !! v_string en); [| apply adds_crash].
      apply adds_bind; [apply adds_deref | intros vn; apply adds_ret].
    + apply adds_bind; [apply IH | intros x; apply adds_ret].
  - destruct (vars !! v_string b); apply adds_ret.
Qed.

Lemma adds_bind_macrovars (nList : list snode) (argsyms : list snode) :
  forall i macrovars, adds (bind_macrovars argsyms i nList macrovars).
Proof.
  induction argsyms as [| a rest IH]; intros i macrovars; [apply adds_ret |].
  cbn [bind_macrovars]. apply adds_bind; [apply adds_deref | intros an].
  destruct (String.eqb (v_string an) ellipsis).
  - apply adds_bind; [apply adds_make_shared | intros n2; apply adds_ret].
  - apply adds_bind; [apply adds_at | intros x; apply IH].
Qed.

Lemma adds_macroexpand (fuel : nat) (n : snode) : adds (macroexpand fuel n).
Proof.
  unfold macroexpand. apply adds_bind; [apply adds_deref | intros nd].
  apply adds_bind; [apply adds_index | intros h].
  apply adds_bind; [apply adds_deref | intros hn].
  apply adds_bind; [apply adds_gets | intros table].
  destruct (table !! v_string hn) as [macro |]; [| apply adds_ret].
  apply adds_bind; [apply adds_index | intros m0].
  apply adds_bind; [apply adds_deref | intros m0n].
  apply adds_bind; [apply adds_bind_macrovars | intros macrovars].
  apply adds_bind; [apply adds_index | intros m1].
  apply adds_apply_macro.
Qed.

Lemma adds_define_macro (n : snode) : adds (define_macro n).
Proof.
  unfold define_macro. apply adds_bind; [apply adds_deref | intros nd].
  apply adds_bind; [apply adds_index | intros a2].
  apply adds_bind; [apply adds_index | intros a3].
  apply adds_bind; [apply adds_index | intros a1].
  apply adds_bind; [apply adds_deref | intros n1].
  apply adds_bind; [| intros _; apply adds_ret].
  apply (adds_with_macros
           (fun s => <[v_string n1 := [a2; a3]]> (macros s))).
Qed.

Lemma adds_compile (fuel : nat) : forall n, adds (compile fuel n).
Proof.
  induction fuel as [| fuel IH]; intros n; [apply adds_crash |].
  cbn [compile]. apply adds_bind; [apply adds_deref | intros nd].
  destruct (decide (type nd = T_LIST)) as [Hlist | Hnot]; [| apply adds_ret].
  destruct (v_list nd) as [| h rest]; [apply adds_ret |].
  apply adds_bind; [apply IH | intros func].
  apply adds_bind; [apply adds_deref | intros fd].
  destruct (is_symbol "defmacro" fd); [apply adds_define_macro |].
  destruct (is_symbol "quote" fd); [apply adds_ret |].
  apply adds_bind; [apply adds_gets | intros table].
  destruct (table !! v_string fd).
  - apply adds_bind; [apply adds_macroexpand | intros expanded; apply IH].
  - apply adds_bind; [apply adds_deref | intros nd'].
    apply adds_bind; [| intros r; apply adds_make_shared].
    apply adds_mapM. exact IH.
Qed.

(** X19. The compile pass never writes into an existing cell: whenever
    [compile_all] returns, every cell of the heap holds what it held before,
    the heap and the symbol names have only grown, and the frames, the
    global frame and the output are untouched. Only the macro table may
    differ, through [defmacro]. *)
Theorem compile_only_adds (fuel : nat) (lst compiled : list snode)
  (s s' : state) :
  compile_all fuel lst s = Ok (compiled, s') ->
  only_adds s s'
  /\ (forall a n, heap s !! a = Some n -> heap s' !! a = Some n).
Proof.
  intros H.
  assert (Hadds : only_adds s s').
  { eapply (adds_mapM (compile fuel) lst (adds_compile fuel)). exact H. }
  split; [exact Hadds |].
  intros a n Ha. destruct Hadds as [[tl ->] _].
  apply lookup_app_l_Some. exact Ha.
Qed.

Lemma compile_only_adds_witness :
  exists forms s1 compiled s2,
    parse "(defmacro twice (x) (+ x x)) (twice 4)" start = Ok (forms, s1)
    /\ compile_all 10 forms s1 = Ok (compiled, s2)
    /\ only_adds s1 s2.
Proof.
  destruct (parse "(defmacro twice (x) (+ x x)) (twice 4)" start)
    as [[forms s1] |] eqn:Hparse; [| vm_compute in Hparse; discriminate].
  destruct (compile_all 10 forms s1) as [[compiled s2] |] eqn:Hc.
  2:{ vm_compute in Hparse. injection Hparse as <- <-.
      vm_compute in Hc. discriminate. }
  exists forms, s1, compiled, s2.
  split; [reflexivity |]. split; [exact Hc |].
  exact (proj1 (compile_only_adds 10 forms compiled s1 s2 Hc)).
Defined.

(** ** Frames *)

Lemma keeps_ret {A : Type} (E : list senvironment) (a : A) :
  keeps E (ret a) no_frames.
Proof.
  intros s x s' Hok HE H. injection H as _ <-.
  split; [exact Hok |]. split; [lia | constructor].
Qed.

Lemma keeps_crash {A : Type} (E : list senvironment) (e : error)
  (F : A -> list senvironment) : keeps E (crash e) F.
Proof. intros s x s' Hok HE H. discriminate H. Qed.

Lemma keeps_bind {A B : Type} (E : list senvironment) (m : M A)
  (k : A -> M B) (F : A -> list senvironment) (G : B -> list senvironment) :
  keeps E m F -> (forall a, keeps (F a ++ E) (k a) G) -> keeps E (bind m k) G.
Proof.
  intros Hm Hk s b s' Hok HE H. unfold bind in H.
  destruct (m s) as [[a s1] |] eqn:Hms; [| discriminate H].
  destruct (Hm s a s1 Hok HE Hms) as (Hok1 & Hlen1 & HF).
  assert (HE1 : Forall (fun e => (e < length (envs s1))%nat) (F a ++ E)).
  { apply Forall_app. split; [exact HF |].
    eapply Forall_impl; [exact HE |]. intros e He. simpl in He. lia. }
  destruct (Hk a s1 b s' Hok1 HE1 H) as (Hok2 & Hlen2 & HG).
  split; [exact Hok2 |]. split; [lia | exact HG].
Qed.

Lemma keeps_sub {A : Type} (E E' : list senvironment) (m : M A)
  (F : A -> list senvironment) :
  keeps E m F -> (forall e, e ∈ E -> e ∈ E') -> keeps E' m no_frames.
Proof.
  intros Hm Hsub s a s' Hok HE H.
  assert (HE0 : Forall (fun e => (e < length (envs s))%nat) E).
  { apply Forall_forall. intros e He.
    rewrite Forall_forall in HE. apply HE, Hsub, He. }
  destruct (Hm s a s' Hok HE0 H) as (Hok' & Hlen & _).
  split; [exact Hok' |]. split; [exact Hlen | constructor].
Qed.

Lemma keeps_same {A : Type} (E : list senvironment) (f : state -> result (A * state)) :
  (forall s a s', f s = Ok (a, s') ->
     heap s' = heap s /\ envs s' = envs s /\ global_env s' = global_env s) ->
  keeps E f no_frames.
Proof.
  intros Hf s a s' (Hwf & Hnodes & Hglobal) HE H.
  destruct (Hf s a s' H) as (Hh & He & Hg).
  split; [| split; [rewrite He; lia | constructor]].
  split; [rewrite He; exact Hwf |].
  split.
  - intros x nd o Hx Ho. rewrite Hh in Hx. rewrite He. eauto.
  - intros g Hgs. rewrite Hg in Hgs. rewrite He. eauto.
Qed.

Lemma keeps_gets {A : Type} (E : list senvironment) (f : state -> A) :
  keeps E (gets f) no_frames.
Proof.
  apply keeps_same. intros s a s' H. injection H as _ <-. repeat split; reflexivity.
Qed.

Lemma keeps_lift {A : Type} (E : list senvironment) (r : result A) :
  keeps E (lift r) no_frames.
Proof.
  apply keeps_same. intros s a s' H. unfold lift in H.
  destruct r; [| discriminate H]. injection H as _ <-. repeat split; reflexivity.
Qed.

Lemma keeps_index {A : Type} (E : list senvironment) (v : list A) (i : nat) :
  keeps E (index v i) no_frames.
Proof.
  unfold index. destruct (v !! i); [apply keeps_ret | apply keeps_crash].
Qed.

Lemma keeps_at {A : Type} (E : list senvironment) (v : list A) (i : nat) :
  keeps E (at_ v i) no_frames.
Proof.
  unfold at_. destruct (v !! i); [apply keeps_ret | apply keeps_crash].
Qed.

Lemma keeps_printf (E : list senvironment) (text : string) :
  keeps E (printf text) no_frames.
Proof.
  apply keeps_same. intros s a s' H. injection H as _ <-. repeat split; reflexivity.
Qed.

Lemma keeps_ToCode (E : list senvironment) (name : string) :
  keeps E (ToCode name) no_frames.
Proof.
  apply keeps_same. intros s a s' H. unfold ToCode in H.
  destruct (symcode s !! name); injection H as _ <-; repeat split; reflexivity.
Qed.

Lemma keeps_deref (E : list senvironment) (a : snode) :
  keeps E (deref a) (fun nd => option_list (outer_env nd)).
Proof.
  intros s nd s' Hok HE H. unfold deref in H.
  destruct (heap s !! a) as [n |] eqn:Ha; [| discriminate H].
  injection H as <- <-.
  split; [exact Hok |]. split; [lia |].
  destruct (outer_env n) as [o |] eqn:Ho; [| constructor].
  apply Forall_singleton. destruct Hok as (_ & Hnodes & _). eauto.
Qed.

Lemma keeps_gets_global (E : list senvironment) :
  keeps E (gets global_env) (fun g => option_list g).
Proof.
  intros s g s' Hok HE H. injection H as <- <-.
  split; [exact Hok |]. split; [lia |].
  destruct (global_env s) as [g |] eqn:Hg; [| constructor].
  apply Forall_singleton. destruct Hok as (_ & _ & Hglobal). eauto.
Qed.

Lemma frames_ok_new_cell (s : state) (n : Node) :
  frames_ok s ->
  (forall o, outer_env n = Some o -> (o < length (envs s))%nat) ->
  frames_ok (with_heap (heap s ++ [n]) s).
Proof.
  intros (Hwf & Hnodes & Hglobal) Hn. split; [exact Hwf |].
  split; [| exact Hglobal].
  intros a nd o Ha Ho. simpl in Ha |- *.
  apply lookup_app_Some in Ha as [Ha | [_ Ha]]; [eauto |].
  apply list_lookup_singleton_Some in Ha as [_ <-]. eauto.
Qed.

Lemma frames_ok_assign (s : state) (a : snode) (n : Node) :
  frames_ok s ->
  (forall o, outer_env n = Some o -> (o < length (envs s))%nat) ->
  frames_ok (with_heap (<[a := n]> (heap s)) s).
Proof.
  intros (Hwf & Hnodes & Hglobal) Hn. split; [exact Hwf |].
  split; [| exact Hglobal].
  intros b nd o Hb Ho. simpl in Hb |- *.
  apply list_lookup_insert_Some in Hb as [(_ & <- & _) | [_ Hb]]; eauto.
Qed.

Lemma keeps_make_shared (E : list senvironment) (n : Node) :
  (forall o, outer_env n = Some o -> o ∈ E) ->
  keeps E (make_shared n) no_frames.
Proof.
  intros Hn s a s' Hok HE H. injection H as _ <-.
  split; [| split; [simpl; lia | constructor]].
  apply frames_ok_new_cell; [exact Hok |].
  intros o Ho. rewrite Forall_forall in HE. apply HE, Hn, Ho.
Qed.

Lemma keeps_assign (E : list senvironment) (a : snode) (n : Node) :
  (forall o, outer_env n = Some o -> o ∈ E) ->
  keeps E (assign a n) no_frames.
Proof.
  intros Hn s x s' Hok HE H. injection H as _ <-.
  split; [| split; [simpl; lia | constructor]].
  apply frames_ok_assign; [exact Hok |].
  intros o Ho. rewrite Forall_forall in HE. apply HE, Hn, Ho.
Qed.

Lemma keeps_new_environment (E : list senvironment)
  (o : option senvironment) :
  (forall o', o = Some o' -> o' ∈ E) ->
  keeps E (new_environment o) (fun e => [e]).
Proof.
  intros Ho s e s' (Hwf & Hnodes & Hglobal) HE H.
  assert (Hvalid : forall o', o = Some o' -> (o' < length (envs s))%nat).
  { intros o' Heq. rewrite Forall_forall in HE. apply HE, Ho, Heq. }
  destruct (new_environment_wf o s Hwf Hvalid) as (e0 & s0 & Hrun & -> & Hwf').
  rewrite Hrun in H. injection H as <- <-.
  injection Hrun as <-.
  split; [| split].
  - split; [exact Hwf' |]. split.
    + intros a nd o' Ha Ho'. simpl in Ha |- *.
      rewrite length_app. simpl. pose proof (Hnodes a nd o' Ha Ho'). lia.
    + intros g Hg. simpl in Hg |- *. rewrite length_app.
      pose proof (Hglobal g Hg). lia.
  - simpl. rewrite length_app. lia.
  - apply Forall_singleton. simpl. rewrite length_app. simpl. lia.
Qed.

Lemma keeps_bind_in (E : list senvironment) (e : senvironment) (c : N)
  (v : snode) : keeps E (bind_in e c v) no_frames.
Proof.
  intros s x s' (Hwf & Hnodes & Hglobal) HE H.
  assert (Hlen : length (envs s') = length (envs s)).
  { unfold bind_in in H. destruct (envs s !! e); [| discriminate H].
    injection H as _ <-. simpl. apply length_insert. }
  assert (Hheap : heap s' = heap s).
  { unfold bind_in in H. destruct (envs s !! e); [| discriminate H].
    injection H as _ <-. reflexivity. }
  assert (Hg : global_env s' = global_env s).
  { unfold bind_in in H. destruct (envs s !! e); [| discriminate H].
    injection H as _ <-. reflexivity. }
  destruct x.
  split; [| split; [lia | constructor]].
  split; [exact (bind_in_wf e c v s s' Hwf H) |].
  split.
  - intros a nd o Ha Ho. rewrite Hheap in Ha. rewrite Hlen. eauto.
  - intros g Hgs. rewrite Hg in Hgs. rewrite Hlen. eauto.
Qed.

Lemma keeps_set_global (E : list senvironment) (g : senvironment) :
  g ∈ E ->
  keeps E (modify (fun s => mkState (heap s) (envs s) (Some g) (symcode s)
                              (symname s) (macros s) (stdout s))) no_frames.
Proof.
  intros Hg s x s' (Hwf & Hnodes & Hglobal) HE H. injection H as _ <-.
  split; [| split; [simpl; lia | constructor]].
  split; [exact Hwf |]. split; [exact Hnodes |].
  intros g' Heq. simpl in Heq |- *. injection Heq as <-.
  rewrite Forall_forall in HE. apply HE, Hg.
Qed.

Lemma keeps_with_macros (E : list senvironment)
  (f : state -> gmap string (list snode)) :
  keeps E (modify (fun s => with_macros (f s) s)) no_frames.
Proof.
  apply keeps_same. intros s a s' H. injection H as _ <-. repeat split; reflexivity.
Qed.

Lemma keeps_mapM {A B : Type} (E : list senvironment) (f : A -> M B)
  (l : list A) (F : B -> list senvironment) :
  (forall x, keeps E (f x) F) -> keeps E (mapM f l) no_frames.
Proof.
  intros Hf. induction l as [| x r IH]; [apply keeps_ret |].
  cbn [mapM]. eapply keeps_bind; [apply Hf | intros y].
  eapply keeps_bind; [| intros ys; apply keeps_ret].
  eapply keeps_sub; [exact IH |]. intros e He. apply elem_of_app. right. exact He.
Qed.

Lemma keeps_iterM {A : Type} (E : list senvironment) (f : A -> M unit)
  (l : list A) (F : unit -> list senvironment) :
  (forall x, keeps E (f x) F) -> keeps E (iterM f l) no_frames.
Proof.
  intros Hf. induction l as [| x r IH]; [apply keeps_ret |].
  cbn [iterM]. eapply keeps_bind; [apply Hf | intros y].
  eapply keeps_sub; [exact IH |]. intros e He. apply elem_of_app. right. exact He.
Qed.

Lemma keeps_concat_mapM {A B : Type} (E : list senvironment)
  (f : A -> M (list B)) (l : list A) (F : list B -> list senvironment) :
  (forall x, keeps E (f x) F) -> keeps E (concat_mapM f l) no_frames.
Proof.
  intros Hf. induction l as [| x r IH]; [apply keeps_ret |].
  cbn [concat_mapM]. eapply keeps_bind; [apply Hf | intros y].
  eapply keeps_bind; [| intros ys; apply keeps_ret].
  eapply keeps_sub; [exact IH |]. intros e He. apply elem_of_app. right. exact He.
Qed.

Ltac keeps_mem :=
  repeat first [rewrite elem_of_app | rewrite elem_of_cons];
  solve [intuition congruence].

Ltac keeps_side :=
  let o := fresh "o" in
  let Ho := fresh "Ho" in
  intros o Ho; cbn in Ho;
  repeat match type of Ho with
         | context [if ?b then _ else _] => destruct b; cbn in Ho
         end;
  first [ discriminate Ho
        | injection Ho as <-; cbn; keeps_mem
        | rewrite Ho; cbn; keeps_mem
        | cbn; keeps_mem ].

Ltac keeps_leaf_with known :=
  first
    [ apply keeps_ret | apply keeps_crash | apply keeps_deref
    | apply keeps_index | apply keeps_at | apply keeps_gets_global
    | apply keeps_gets
    | apply keeps_lift | apply keeps_printf | apply keeps_ToCode
    | apply keeps_bind_in | apply keeps_with_macros
    | apply keeps_make_shared; keeps_side
    | apply keeps_assign; keeps_side
    | apply keeps_new_environment; keeps_side
    | known
    | match goal with
      | H : _ |- _ => apply H; cbn; keeps_mem
      end ].

Ltac keeps_step_with known :=
  cbn beta; cbn [app];
  lazymatch goal with
  | |- keeps _ (bind (if ?b then _ else _) _) _ => destruct b
  | |- keeps _ (bind (match ?x with _ => _ end) _) _ => destruct x
  | |- keeps _ (bind _ _) _ =>
      eapply keeps_bind; [keeps_leaf_with known | intros]
  | |- keeps _ (match ?x with _ => _ end) _ => destruct x
  | |- keeps _ (if ?b then _ else _) _ => destruct b
  | |- _ => keeps_leaf_with known
  end.

Ltac keeps_basic := repeat keeps_step_with ltac:(fail).

Lemma keeps_set (E : list senvironment) (e : senvironment) (k v : snode) :
  keeps E (set e k v) no_frames.
Proof. unfold set. keeps_basic. Qed.

Lemma keeps_char_at (E : list senvironment) (tok : string) (i : nat) :
  keeps E (Parser.char_at tok i) no_frames.
Proof. unfold Parser.char_at. keeps_basic. Qed.

Lemma keeps_is_number (E : list senvironment) (tok : string) (c0 : ascii) :
  keeps E (Parser.is_number tok c0) no_frames.
Proof.
  unfold Parser.is_number. pose proof keeps_char_at as Hc. keeps_basic.
Qed.

Lemma keeps_parser (tokens : list string) (fuel : nat) :
  forall (E : list senvironment) pos acc,
    keeps E (Parser.parse fuel tokens pos acc) no_frames.
Proof.
  induction fuel as [| fuel IH]; intros E pos acc; [apply keeps_crash |].
  cbn [Parser.parse].
  pose proof keeps_is_number as Hnum. pose proof keeps_char_at as Hc.
  keeps_basic.
Qed.

Lemma keeps_parse (E : list senvironment) (text : string) :
  keeps E (parse text) no_frames.
Proof.
  unfold parse. pose proof keeps_parser as Hp. keeps_basic.
Qed.

Lemma keeps_raw_arg (E : list senvironment) (n : snode) (i : nat) :
  keeps E (raw_arg n i) no_frames.
Proof. unfold raw_arg. keeps_basic. Qed.

Lemma keeps_raw_size (E : list senvironment) (n : snode) :
  keeps E (raw_size n) no_frames.
Proof. unfold raw_size. keeps_basic. Qed.

Lemma keeps_clone (E : list senvironment) (p : snode) :
  keeps E (clone p) no_frames.
Proof. unfold clone. keeps_basic. Qed.

Lemma keeps_string_of (E : list senvironment) (gas : nat) (a : snode) :
  keeps E (string_of gas a) no_frames.
Proof. unfold string_of. keeps_basic. Qed.

Ltac keeps_known :=
  first [ apply keeps_raw_arg | apply keeps_raw_size | apply keeps_clone
        | apply keeps_string_of | apply keeps_set | apply keeps_parse ].

Ltac keeps_step := keeps_step_with keeps_known.

Ltac keeps_all := repeat keeps_step.

Section KeepsKernel.

Variable gas : nat.
Variable ev : snode -> senvironment -> M snode.
Variable ap : snode -> list snode -> senvironment -> M snode.
Hypothesis Hev : forall E n env, env ∈ E -> keeps E (ev n env) no_frames.
Hypothesis Hap : forall E f args env, env ∈ E -> keeps E (ap f args env) no_frames.

Lemma keeps_special_def (E : list senvironment) (n : snode) (env : senvironment) :
  env ∈ E -> keeps E (special_def ev n env) no_frames.
Proof. intros Henv. unfold special_def. keeps_all. Qed.

Lemma keeps_special_if (E : list senvironment) (n : snode) (env : senvironment) :
  env ∈ E -> keeps E (special_if ev n env) no_frames.
Proof. intros Henv. unfold special_if. keeps_all. Qed.

Lemma keeps_special_set (E : list senvironment) (n : snode) (env : senvironment) :
  env ∈ E -> keeps E (special_set ev n env) no_frames.
Proof. intros Henv. unfold special_set. keeps_all. Qed.

Lemma keeps_special_fn (E : list senvironment) (n : snode) (env : senvironment) :
  env ∈ E -> keeps E (special_fn n env) no_frames.
Proof. intros Henv. unfold special_fn. keeps_all. Qed.

Lemma keeps_special_quote (E : list senvironment) (n : snode) (env : senvironment) :
  env ∈ E -> keeps E (special_quote n env) no_frames.
Proof. intros Henv. unfold special_quote. keeps_all. Qed.

Lemma keeps_special_begin_loop (E : list senvironment) (n : snode)
  (env : senvironment) (l : list nat) :
  env ∈ E ->
  keeps E (iterM (fun i => a <- raw_arg n i ;; ev a env ;;; ret tt) l) no_frames.
Proof.
  intros Henv. eapply keeps_iterM. intros i. keeps_all.
Qed.

Lemma keeps_special_begin (E : list senvironment) (n : snode)
  (env : senvironment) :
  env ∈ E -> keeps E (special_begin ev n env) no_frames.
Proof.
  intros Henv. unfold special_begin.
  pose proof keeps_special_begin_loop as Hloop. keeps_all.
Qed.

Lemma keeps_while_loop (n : snode) (len : nat) (env : senvironment)
  (k : nat) :
  forall E : list senvironment,
    env ∈ E -> keeps E (while_loop ev k n len env) no_frames.
Proof.
  induction k as [| k IH]; intros E Henv; [apply keeps_crash |].
  cbn [while_loop]. pose proof keeps_special_begin_loop as Hloop.
  keeps_all.
Qed.

Lemma keeps_special_while (E : list senvironment) (n : snode)
  (env : senvironment) :
  env ∈ E -> keeps E (special_while gas ev n env) no_frames.
Proof.
  intros Henv. unfold special_while. pose proof keeps_while_loop as Hw.
  keeps_all.
Qed.

Lemma keeps_andand_loop (env : senvironment) (l : list snode) :
  forall E : list senvironment,
    env ∈ E -> keeps E (andand_loop ev l env) no_frames.
Proof.
  induction l as [| a r IH]; intros E Henv; cbn [andand_loop]; keeps_all.
Qed.

Lemma keeps_oror_loop (env : senvironment) (l : list snode) :
  forall E : list senvironment,
    env ∈ E -> keeps E (oror_loop ev l env) no_frames.
Proof.
  induction l as [| a r IH]; intros E Henv; cbn [oror_loop]; keeps_all.
Qed.

Lemma keeps_special_andand (E : list senvironment) (n : snode)
  (env : senvironment) :
  env ∈ E -> keeps E (special_andand ev n env) no_frames.
Proof.
  intros Henv. unfold special_andand. pose proof keeps_andand_loop as Hl.
  keeps_all.
Qed.

Lemma keeps_special_oror (E : list senvironment) (n : snode)
  (env : senvironment) :
  env ∈ E -> keeps E (special_oror ev n env) no_frames.
Proof.
  intros Henv. unfold special_oror. pose proof keeps_oror_loop as Hl.
  keeps_all.
Qed.

Lemma keeps_fold_int (op : Z -> Z -> result Z) (l : list snode) :
  forall (E : list senvironment) sum, keeps E (fold_int op sum l) no_frames.
Proof.
  induction l as [| a r IH]; intros E sum; cbn [fold_int]; keeps_all.
Qed.

Lemma keeps_fold_double (op : double -> double -> double)
  (l : list snode) :
  forall (E : list senvironment) sum, keeps E (fold_double op sum l) no_frames.
Proof.
  induction l as [| a r IH]; intros E sum; cbn [fold_double]; keeps_all.
Qed.

Lemma keeps_arith (E : list senvironment) (identity : snode)
  (iop : Z -> Z -> result Z) (dop : double -> double -> double)
  (args : list snode) : keeps E (arith identity iop dop args) no_frames.
Proof.
  unfold arith. pose proof keeps_fold_int as Hi.
  pose proof keeps_fold_double as Hd. keeps_all.
Qed.

Lemma keeps_all_equal {A : Type} (conv : Node -> A)
  (neq : A -> A -> bool) (firstv : A) (l : list snode) :
  forall E : list senvironment, keeps E (all_equal conv neq firstv l) no_frames.
Proof.
  induction l as [| a r IH]; intros E; cbn [all_equal]; keeps_all.
Qed.

Lemma keeps_step_in_place (E : list senvironment) (d : Z)
  (args : list snode) : keeps E (step_in_place d args) no_frames.
Proof. unfold step_in_place. keeps_all. Qed.

Lemma keeps_builtin_lt (E : list senvironment) (args : list snode)
  (env : senvironment) : keeps E (builtin_lt args env) no_frames.
Proof. unfold builtin_lt. keeps_all. Qed.

Lemma keeps_builtin_percent (E : list senvironment) (args : list snode)
  (env : senvironment) : keeps E (builtin_percent args env) no_frames.
Proof. unfold builtin_percent. keeps_all. Qed.

Lemma keeps_builtin_sqrt (E : list senvironment) (args : list snode)
  (env : senvironment) : keeps E (builtin_sqrt args env) no_frames.
Proof. unfold builtin_sqrt. keeps_all. Qed.

Lemma keeps_builtin_floor (E : list senvironment) (args : list snode)
  (env : senvironment) : keeps E (builtin_floor args env) no_frames.
Proof. unfold builtin_floor. keeps_all. Qed.

Lemma keeps_builtin_ceil (E : list senvironment) (args : list snode)
  (env : senvironment) : keeps E (builtin_ceil args env) no_frames.
Proof. unfold builtin_ceil. keeps_all. Qed.

Lemma keeps_builtin_not (E : list senvironment) (args : list snode)
  (env : senvironment) : keeps E (builtin_not args env) no_frames.
Proof. unfold builtin_not. keeps_all. Qed.

Lemma keeps_builtin_strlen (E : list senvironment) (args : list snode)
  (env : senvironment) : keeps E (builtin_strlen args env) no_frames.
Proof. unfold builtin_strlen. keeps_all. Qed.

Lemma keeps_builtin_char_at (E : list senvironment) (args : list snode)
  (env : senvironment) : keeps E (builtin_char_at args env) no_frames.
Proof. unfold builtin_char_at. keeps_all. Qed.

Lemma keeps_builtin_chr (E : list senvironment) (args : list snode)
  (env : senvironment) : keeps E (builtin_chr args env) no_frames.
Proof. unfold builtin_chr. keeps_all. Qed.

Lemma keeps_builtin_double (E : list senvironment) (args : list snode)
  (env : senvironment) : keeps E (builtin_double args env) no_frames.
Proof. unfold builtin_double. keeps_all. Qed.

Lemma keeps_builtin_int (E : list senvironment) (args : list snode)
  (env : senvironment) : keeps E (builtin_int args env) no_frames.
Proof. unfold builtin_int. keeps_all. Qed.

Lemma keeps_builtin_type (E : list senvironment) (args : list snode)
  (env : senvironment) : keeps E (builtin_type args env) no_frames.
Proof. unfold builtin_type. keeps_all. Qed.

Lemma keeps_builtin_list (E : list senvironment) (args : list snode)
  (env : senvironment) : keeps E (builtin_list args env) no_frames.
Proof. unfold builtin_list. keeps_all. Qed.

Lemma keeps_builtin_push_backd (E : list senvironment) (args : list snode)
  (env : senvironment) : keeps E (builtin_push_backd args env) no_frames.
Proof. unfold builtin_push_backd. keeps_all. Qed.

Lemma keeps_builtin_pop_backd (E : list senvironment) (args : list snode)
  (env : senvironment) : keeps E (builtin_pop_backd args env) no_frames.
Proof. unfold builtin_pop_backd. keeps_all. Qed.

Lemma keeps_builtin_nth (E : list senvironment) (args : list snode)
  (env : senvironment) : keeps E (builtin_nth args env) no_frames.
Proof. unfold builtin_nth. keeps_all. Qed.

Lemma keeps_builtin_length (E : list senvironment) (args : list snode)
  (env : senvironment) : keeps E (builtin_length args env) no_frames.
Proof. unfold builtin_length. keeps_all. Qed.

Lemma keeps_builtin_cons (E : list senvironment) (args : list snode)
  (env : senvironment) : keeps E (builtin_cons args env) no_frames.
Proof. unfold builtin_cons. keeps_all. Qed.

Lemma keeps_builtin_eqeq (E : list senvironment) (args : list snode)
  (env : senvironment) : keeps E (builtin_eqeq args env) no_frames.
Proof.
  unfold builtin_eqeq.
  pose proof (@keeps_all_equal Z) as Hi.
  pose proof (@keeps_all_equal double) as Hd.
  keeps_all.
Qed.

Lemma keeps_builtin_string (E : list senvironment) (args : list snode)
  (env : senvironment) : keeps E (builtin_string gas args env) no_frames.
Proof.
  unfold builtin_string.
  assert (Hm : forall E, keeps E (mapM (string_of gas) args) no_frames).
  { intros E0. eapply keeps_mapM. intros a. apply keeps_string_of. }
  keeps_all.
Qed.

Lemma keeps_builtin_read_string (E : list senvironment) (args : list snode)
  (env : senvironment) : keeps E (builtin_read_string gas args env) no_frames.
Proof. unfold builtin_read_string. keeps_all. Qed.

Lemma keeps_builtin_eval (E : list senvironment) (args : list snode)
  (env : senvironment) : env ∈ E -> keeps E (builtin_eval ev args env) no_frames.
Proof. intros Henv. unfold builtin_eval. keeps_all. Qed.

Lemma keeps_builtin_apply (E : list senvironment) (args : list snode)
  (env : senvironment) : env ∈ E -> keeps E (builtin_apply ap args env) no_frames.
Proof. intros Henv. unfold builtin_apply. keeps_all. Qed.

Lemma keeps_fold_loop (f lst : snode) (env : senvironment) (k : nat) :
  forall (E : list senvironment) i acc,
    env ∈ E -> keeps E (fold_loop ap k f lst i acc env) no_frames.
Proof.
  induction k as [| k IH]; intros E i acc Henv; [apply keeps_crash |].
  cbn [fold_loop]. keeps_all.
Qed.

Lemma keeps_builtin_fold (E : list senvironment) (args : list snode)
  (env : senvironment) :
  env ∈ E -> keeps E (builtin_fold gas ap args env) no_frames.
Proof.
  intros Henv. unfold builtin_fold. pose proof keeps_fold_loop as Hl.
  keeps_all.
Qed.

Lemma keeps_builtin_map (E : list senvironment) (args : list snode)
  (env : senvironment) : env ∈ E -> keeps E (builtin_map ap args env) no_frames.
Proof.
  intros Henv. unfold builtin_map.
  keeps_step. keeps_step. keeps_step.
  eapply keeps_bind; [| intros; keeps_all].
  eapply keeps_mapM. intros i. keeps_all.
Qed.

Lemma keeps_filter_loop (f lst : snode) (env : senvironment) (k : nat) :
  forall (E : list senvironment) i acc,
    env ∈ E -> keeps E (filter_loop ap k f lst i acc env) no_frames.
Proof.
  induction k as [| k IH]; intros E i acc Henv; [apply keeps_crash |].
  cbn [filter_loop]. keeps_all.
Qed.

Lemma keeps_builtin_filter (E : list senvironment) (args : list snode)
  (env : senvironment) :
  env ∈ E -> keeps E (builtin_filter gas ap args env) no_frames.
Proof.
  intros Henv. unfold builtin_filter. pose proof keeps_filter_loop as Hl.
  keeps_all.
Qed.

Lemma keeps_builtin_pr (E : list senvironment) (args : list snode)
  (env : senvironment) : keeps E (builtin_pr gas args env) no_frames.
Proof.
  unfold builtin_pr. eapply keeps_bind; [| intros; keeps_all].
  eapply keeps_iterM. intros [i a]. keeps_all.
Qed.

Lemma keeps_builtin_prn (E : list senvironment) (args : list snode)
  (env : senvironment) : keeps E (builtin_prn gas args env) no_frames.
Proof.
  unfold builtin_prn. pose proof keeps_builtin_pr as Hpr. keeps_all.
Qed.

Lemma keeps_call_builtin (E : list senvironment) (f : builtin)
  (args : list snode) (env : senvironment) :
  env ∈ E -> keeps E (call_builtin gas ev ap f args env) no_frames.
Proof.
  intros Henv. unfold call_builtin.
  destruct f;
    first
      [ apply keeps_crash
      | apply keeps_arith
      | apply keeps_step_in_place
      | apply keeps_builtin_eval; exact Henv
      | apply keeps_builtin_apply; exact Henv
      | apply keeps_builtin_fold; exact Henv
      | apply keeps_builtin_map; exact Henv
      | apply keeps_builtin_filter; exact Henv
      | apply keeps_builtin_lt | apply keeps_builtin_percent
      | apply keeps_builtin_sqrt | apply keeps_builtin_floor
      | apply keeps_builtin_ceil | apply keeps_builtin_eqeq
      | apply keeps_builtin_not | apply keeps_builtin_strlen
      | apply keeps_builtin_char_at | apply keeps_builtin_chr
      | apply keeps_builtin_int | apply keeps_builtin_double
      | apply keeps_builtin_string | apply keeps_builtin_read_string
      | apply keeps_builtin_type | apply keeps_builtin_list
      | apply keeps_builtin_push_backd | apply keeps_builtin_pop_backd
      | apply keeps_builtin_nth | apply keeps_builtin_length
      | apply keeps_builtin_pr | apply keeps_builtin_prn
      | apply keeps_builtin_cons ].
Qed.

Lemma keeps_call_special (E : list senvironment) (f : builtin) (n : snode)
  (env : senvironment) :
  env ∈ E -> keeps E (call_special gas ev ap f n env) no_frames.
Proof.
  intros Henv. unfold call_special.
  pose proof keeps_call_builtin as Hcall.
  destruct f;
    first
      [ apply keeps_crash
      | apply keeps_special_def; exact Henv
      | apply keeps_special_set; exact Henv
      | apply keeps_special_if; exact Henv
      | apply keeps_special_fn; exact Henv
      | apply keeps_special_begin; exact Henv
      | apply keeps_special_while; exact Henv
      | apply keeps_special_quote; exact Henv
      | apply keeps_special_andand; exact Henv
      | apply keeps_special_oror; exact Henv
      | keeps_all ].
Qed.

Lemma keeps_eval_body (E : list senvironment) (n : snode)
  (env : senvironment) :
  env ∈ E -> keeps E (eval_body gas ev ap n env) no_frames.
Proof.
  intros Henv. unfold eval_body.
  pose proof keeps_call_special as Hcall.
  assert (Hargs : forall E l, env ∈ E ->
            keeps E (mapM (fun a => ev a env) l) no_frames).
  { intros E0 l H0. eapply keeps_mapM. intros a. apply Hev. exact H0. }
  keeps_all.
Qed.

Lemma keeps_bind_parameters (E : list senvironment)
  (arg_syms args : list snode) (local_env : senvironment) :
  keeps E (bind_parameters arg_syms args local_env) no_frames.
Proof.
  unfold bind_parameters. eapply keeps_iterM. intros [i k]. keeps_all.
Qed.

Lemma keeps_run_body (E : list senvironment) (func : snode)
  (local_env : senvironment) :
  local_env ∈ E -> keeps E (run_body ev func local_env) no_frames.
Proof.
  intros Henv. unfold run_body.
  assert (Hloop : forall E l, local_env ∈ E ->
            keeps E (iterM (fun i =>
                              fd <- deref func ;;
                              b <- at_ (v_list fd) i ;;
                              ev b local_env ;;;
                              ret tt) l) no_frames).
  { intros E0 l H0. eapply keeps_iterM. intros i. keeps_all. }
  keeps_all.
Qed.

Lemma keeps_apply_body (E : list senvironment) (func : snode)
  (args : list snode) (env : senvironment) :
  env ∈ E -> keeps E (apply_body gas ev ap func args env) no_frames.
Proof.
  intros Henv. unfold apply_body.
  pose proof keeps_call_builtin as Hcall.
  pose proof keeps_bind_parameters as Hbind.
  pose proof keeps_run_body as Hrun.
  keeps_all.
Qed.

End KeepsKernel.

Lemma keeps_eval_apply (k : nat) :
  (forall E n env, env ∈ E -> keeps E (eval k n env) no_frames)
  /\ (forall E f args env, env ∈ E -> keeps E (apply k f args env) no_frames).
Proof.
  induction k as [| k [IHe IHa]].
  - split; intros; apply keeps_crash.
  - split.
    + intros E n env Henv. cbn [eval].
      apply (keeps_eval_body k (eval k) (apply k) IHe IHa E n env Henv).
    + intros E f args env Henv. cbn [apply].
      apply (keeps_apply_body k (eval k) (apply k) IHe IHa E f args env Henv).
Qed.

Lemma keeps_apply_macro (vars : gmap string snode) (fuel : nat) :
  forall (E : list senvironment) body,
    keeps E (apply_macro fuel body vars) no_frames.
Proof.
  induction fuel as [| fuel IH]; intros E body; [apply keeps_crash |].
  cbn [apply_macro].
  eapply keeps_bind; [apply keeps_deref | intros b].
  destruct (decide (type b = T_LIST)) as [Hlist | Hnot]; [| keeps_all].
  eapply keeps_bind; [| intros r; keeps_all].
  eapply keeps_concat_mapM. intros e. unfold apply_macro_element. keeps_all.
Qed.

Lemma keeps_bind_macrovars (nList : list snode) (argsyms : list snode) :
  forall (E : list senvironment) i macrovars,
    keeps E (bind_macrovars argsyms i nList macrovars) no_frames.
Proof.
  induction argsyms as [| a rest IH]; intros E i macrovars;
    cbn [bind_macrovars]; keeps_all.
Qed.

Lemma keeps_macroexpand (E : list senvironment) (fuel : nat) (n : snode) :
  keeps E (macroexpand fuel n) no_frames.
Proof.
  unfold macroexpand. pose proof keeps_bind_macrovars as Hb.
  pose proof keeps_apply_macro as Ha. keeps_all.
Qed.

Lemma keeps_define_macro (E : list senvironment) (n : snode) :
  keeps E (define_macro n) no_frames.
Proof.
  unfold define_macro.
  eapply keeps_bind; [apply keeps_deref | intros nd].
  eapply keeps_bind; [apply keeps_index | intros a2].
  eapply keeps_bind; [apply keeps_index | intros a3].
  eapply keeps_bind; [apply keeps_index | intros a1].
  eapply keeps_bind; [apply keeps_deref | intros n1].
  eapply keeps_bind; [| intros; apply keeps_ret].
  apply (keeps_with_macros _ (fun s => <[v_string n1 := [a2; a3]]> (macros s))).
Qed.

Lemma keeps_compile (fuel : nat) :
  forall (E : list senvironment) n, keeps E (compile fuel n) no_frames.
Proof.
  induction fuel as [| fuel IH]; intros E n; [apply keeps_crash |].
  cbn [compile]. pose proof keeps_define_macro as Hd.
  pose proof keeps_macroexpand as Hm.
  assert (Hall : forall E l, keeps E (mapM (compile fuel) l) no_frames).
  { intros E0 l. eapply keeps_mapM. intros x. apply IH. }
  keeps_all.
Qed.

Lemma keeps_eval_all (E : list senvironment) (fuel : nat)
  (lst : list snode) : keeps E (eval_all fuel lst) no_frames.
Proof.
  unfold eval_all.
  assert (Hloop : forall E l g, g ∈ E ->
            keeps E (iterM (fun a => eval fuel a g ;;; ret tt) l) no_frames).
  { intros E0 l g H0. eapply keeps_iterM. intros a.
    eapply keeps_bind; [apply (proj1 (keeps_eval_apply fuel)); exact H0 |].
    intros; apply keeps_ret. }
  pose proof (proj1 (keeps_eval_apply fuel)) as Hev.
  keeps_all.
Qed.

Lemma keeps_eval_string (E : list senvironment) (fuel : nat)
  (text : string) : keeps E (eval_string fuel text) no_frames.
Proof.
  unfold eval_string, compile_all.
  pose proof keeps_parse as Hp. pose proof keeps_eval_all as He.
  assert (Hall : forall E l, keeps E (mapM (compile fuel) l) no_frames).
  { intros E0 l. eapply keeps_mapM. intros x. apply keeps_compile. }
  keeps_all.
Qed.

Lemma keeps_iterM_Forall {A : Type} (f : A -> M unit) (l : list A) :
  Forall (fun x => forall E : list senvironment, keeps E (f x) no_frames) l ->
  forall E : list senvironment, keeps E (iterM f l) no_frames.
Proof.
  induction 1 as [| x r Hx _ IH]; intros E; [apply keeps_ret |].
  cbn [iterM]. eapply keeps_bind; [apply Hx | intros u; apply IH].
Qed.

Lemma keeps_predefined :
  Forall (fun p => forall E : list senvironment,
            keeps E (let '(name, value) := p in define name value) no_frames)
    predefined.
Proof.
  unfold predefined.
  repeat (apply Forall_cons; split;
          [intros E; unfold define, make_special; keeps_all |]).
  apply Forall_nil. exact I.
Qed.

Lemma keeps_init (E : list senvironment) (fuel : nat)
  (library : option string) : keeps E (init fuel library) no_frames.
Proof.
  unfold init.
  eapply keeps_bind; [apply keeps_new_environment; discriminate |].
  intros genv. cbn beta.
  eapply keeps_bind;
    [apply keeps_set_global; apply list_elem_of_here | intros u].
  eapply keeps_bind;
    [apply (keeps_iterM_Forall _ _ keeps_predefined) | intros u'].
  pose proof keeps_eval_string as Hes. keeps_all.
Qed.

Lemma frames_ok_start : frames_ok start.
Proof.
  split; [intros e f o Hf; destruct e; discriminate Hf |].
  split; [| intros g Hg; discriminate Hg].
  intros a nd o Ha Ho.
  do 5 (destruct a as [| a]; [injection Ha as <-; discriminate Ho |]).
  discriminate Ha.
Qed.

Lemma kernel_frames_ok : frames_ok kernel_state.
Proof.
  unfold kernel_state, kernel.
  destruct (init 100 None start) as [[u s0] | e] eqn:Hinit;
    [| exact frames_ok_start].
  destruct (keeps_init [] 100 None start u s0 frames_ok_start
              ltac:(constructor) Hinit) as (H & _).
  destruct s0. exact H.
Qed.

(** X20. Evaluation keeps the frames well-formed. From a state in which
    every outer link points to an older frame, and in which the frame
    captured by every function cell and the global frame exist,
    [eval_string], [eval] and [apply] lead, whenever they return, to a state
    of which the same holds, and in which no frame has been removed. The
    chain a lookup walks is therefore always finite. *)
Theorem frames_stay_well_formed (k : nat) (s s' : state) :
  frames_ok s ->
  (forall text r, eval_string k text s = Ok (r, s') -> frames_ok s')
  /\ (forall n env r, (env < length (envs s))%nat ->
        eval k n env s = Ok (r, s') ->
        frames_ok s' /\ (length (envs s) <= length (envs s'))%nat)
  /\ (forall f args env r, (env < length (envs s))%nat ->
        apply k f args env s = Ok (r, s') ->
        frames_ok s' /\ (length (envs s) <= length (envs s'))%nat).
Proof.
  intros Hok. split; [| split].
  - intros text r H.
    exact (proj1 (keeps_eval_string [] k text s r s' Hok
                    ltac:(constructor) H)).
  - intros n env r Henv H.
    destruct (proj1 (keeps_eval_apply k) [env] n env
                ltac:(apply list_elem_of_here) s r s' Hok
                ltac:(apply Forall_singleton; exact Henv) H)
      as (H1 & H2 & _).
    split; assumption.
  - intros f args env r Henv H.
    destruct (proj2 (keeps_eval_apply k) [env] f args env
                ltac:(apply list_elem_of_here) s r s' Hok
                ltac:(apply Forall_singleton; exact Henv) H)
      as (H1 & H2 & _).
    split; assumption.
Qed.

Lemma frames_stay_well_formed_witness :
  exists r s',
    eval_string 100 "(def twice (fn (f) (fn (x) (f (f x))))) ((twice ++) 1)"
      kernel_state = Ok (r, s')
    /\ frames_ok s'.
Proof.
  destruct (eval_string 100
              "(def twice (fn (f) (fn (x) (f (f x))))) ((twice ++) 1)"
              kernel_state) as [[r s'] | e] eqn:H;
    [| vm_compute in H; discriminate H].
  exists r, s'. split; [reflexivity |].
  exact (proj1 (frames_stay_well_formed 100 kernel_state s'
                  kernel_frames_ok) _ r H).
Defined.

(** X21. [init] establishes the well-formedness of the frames: whenever it
    returns, with or without a prelude, every outer link points to an older
    frame, and the frame of every function cell and the global frame exist. *)
Theorem init_frames_well_formed (k : nat) (library : option string)
  (u : unit) (s' : state) :
  init k library start = Ok (u, s') -> frames_ok s'.
Proof.
  intros H.
  exact (proj1 (keeps_init [] k library start u s' frames_ok_start
                  ltac:(constructor) H)).
Qed.

Lemma init_frames_well_formed_witness :
  exists u s', init 100 None start = Ok (u, s') /\ frames_ok s'.
Proof.
  destruct (init 100 None start) as [[u s'] | e] eqn:H;
    [| vm_compute in H; discriminate H].
  exists u, s'. split; [reflexivity |].
  exact (init_frames_well_formed 100 None u s' H).
Defined.

(** ** Reading back an [int] *)

Lemma number_char_plain (c : ascii) :
  number_char c = true ->
  Tokenizer.is_space c = false /\ isspace c = false
  /\ (c =? ";")%char = false /\ (c =? "#")%char = false
  /\ (c =? dquote)%char = false /\ (c =? "(")%char = false
  /\ (c =? ")")%char = false /\ (c =? "+")%char = false
  /\ ("." =? c)%char = false /\ ("e" =? c)%char = false
  /\ (128 <=? nat_of_ascii c)%nat = false.
Proof.
  destruct c as [[] [] [] [] [] [] [] []]; intros H;
    first [discriminate H | repeat split; reflexivity].
Qed.

Lemma pretty_N_char_digit (d : N) :
  (d < 10)%N ->
  isdigit (pretty_N_char d) = true
  /\ digit_value (pretty_N_char d) = Z.of_N d
  /\ (pretty_N_char d =? "-")%char = false.
Proof.
  intros H.
  assert (H' : (d = 0 \/ d = 1 \/ d = 2 \/ d = 3 \/ d = 4 \/ d = 5 \/ d = 6
                \/ d = 7 \/ d = 8 \/ d = 9)%N) by lia.
  repeat (destruct H' as [-> | H']; [repeat split; reflexivity |]).
  subst d. repeat split; reflexivity.
Qed.

Lemma string_length_append (a b : string) :
  String.length (a +:+ b) = (String.length a + String.length b)%nat.
Proof.
  induction a as [| x a IH]; [reflexivity |].
  change (S (String.length (a +:+ b)) = S (String.length a + String.length b)).
  rewrite IH. reflexivity.
Qed.

(** *** The digits [pretty] writes *)

Lemma pretty_N_go_chars (x : N) :
  forall s, number_chars s = true -> number_chars (pretty_N_go x s) = true.
Proof.
  induction (N.lt_wf_0 x) as [x _ IH]. intros s Hs.
  destruct (N.eq_dec x 0%N) as [-> | Hx]; [rewrite pretty_N_go_0; exact Hs |].
  rewrite pretty_N_go_step by lia.
  apply IH; [apply N.div_lt; lia |].
  cbn [number_chars]. rewrite Hs. unfold number_char.
  rewrite (proj1 (pretty_N_char_digit (x mod 10)%N ltac:(apply N.mod_lt; lia))).
  reflexivity.
Qed.

Lemma pretty_N_go_length (x : N) :
  forall s,
    (String.length (pretty_N_go x s) <= String.length s + N.to_nat x)%nat.
Proof.
  induction (N.lt_wf_0 x) as [x _ IH]. intros s.
  destruct (N.eq_dec x 0%N) as [-> | Hx]; [rewrite pretty_N_go_0; lia |].
  rewrite pretty_N_go_step by lia.
  pose proof (IH (x / 10)%N ltac:(apply N.div_lt; lia)
                (String (pretty_N_char (x mod 10)) s)) as H.
  cbn [String.length] in H.
  assert (x / 10 < x)%N by (apply N.div_lt; lia). lia.
Qed.

Lemma pretty_N_go_head (x : N) :
  forall s, (0 < x)%N ->
    exists c r, pretty_N_go x s = String c r /\ isdigit c = true.
Proof.
  induction (N.lt_wf_0 x) as [x _ IH]. intros s Hx.
  rewrite pretty_N_go_step by lia.
  destruct (N.eq_dec (x / 10)%N 0%N) as [H0 | H0].
  - rewrite H0, pretty_N_go_0. eexists _, _. split; [reflexivity |].
    apply pretty_N_char_digit. apply N.mod_lt. lia.
  - apply IH; [apply N.div_lt; lia | apply N.neq_0_lt_0; exact H0].
Qed.

Lemma read_digits_pretty (x : N) :
  forall s acc count,
    exists k, 0 <= k
      /\ read_digits (pretty_N_go x s) acc count
         = read_digits s (acc * 10 ^ k + Z.of_N x) (count + k).
Proof.
  induction (N.lt_wf_0 x) as [x _ IH]. intros s acc count.
  destruct (N.eq_dec x 0%N) as [-> | Hx].
  { exists 0. rewrite pretty_N_go_0. split; [lia |]. f_equal; simpl; lia. }
  rewrite pretty_N_go_step by lia.
  destruct (IH (x / 10)%N ltac:(apply N.div_lt; lia)
              (String (pretty_N_char (x mod 10)) s) acc count)
    as (k & Hk & ->).
  destruct (pretty_N_char_digit (x mod 10)%N ltac:(apply N.mod_lt; lia))
    as (Hd & Hv & _).
  exists (k + 1). split; [lia |].
  cbn [read_digits]. rewrite Hd, Hv. f_equal; [| lia].
  rewrite Z.pow_add_r by lia.
  pose proof (N.div_mod x 10%N ltac:(lia)) as Hdm.
  assert (Z.of_N x = 10 * Z.of_N (x / 10) + Z.of_N (x mod 10)) by lia.
  lia.
Qed.

Lemma strtol_pretty_N (x : N) :
  (0 < x)%N -> Z.of_N x < 2 ^ 63 ->
  strtol (pretty_N_go x EmptyString) = Z.of_N x
  /\ strtol ("-" +:+ pretty_N_go x EmptyString) = - Z.of_N x.
Proof.
  intros Hx Hlt.
  destruct (pretty_N_go_head x EmptyString Hx) as (c & r & Heq & Hc).
  destruct (read_digits_pretty x EmptyString 0 0) as (k & Hk & Hread).
  assert (Hplain := number_char_plain c
                      ltac:(unfold number_char; rewrite Hc; reflexivity)).
  destruct Hplain as (_ & Hsp & _ & _ & _ & _ & _ & Hplus & _).
  assert (Hminus : (c =? "-")%char = false).
  { destruct (c =? "-")%char eqn:E; [| reflexivity].
    apply Ascii.eqb_eq in E. subst c. discriminate Hc. }
  split.
  - unfold strtol. rewrite Heq. cbn [skip_spaces]. rewrite Hsp.
    unfold read_sign. rewrite Hminus, Hplus. rewrite <- Heq, Hread.
    cbn [read_digits]. lia.
  - unfold strtol.
    change ("-" +:+ pretty_N_go x EmptyString)
      with (String "-" (pretty_N_go x EmptyString)).
    cbn [skip_spaces]. change (isspace "-") with false. cbv iota.
    unfold read_sign. change ("-" =? "-")%char with true. cbv iota.
    rewrite Hread. cbn [read_digits]. lia.
Qed.

Lemma wrap32_small (z : Z) : INT_MIN <= z <= INT_MAX -> wrap32 z = z.
Proof.
  unfold INT_MIN, INT_MAX, wrap32. intros H.
  rewrite Z.mod_small by lia. lia.
Qed.

(** [atoi] reads back what [%d] writes. *)
Lemma atoi_pretty (z : Z) : INT_MIN <= z <= INT_MAX -> atoi (pretty z) = z.
Proof.
  intros H. unfold atoi.
  assert (Hr : INT_MIN = - 2 ^ 31 /\ INT_MAX = 2 ^ 31 - 1) by (split; reflexivity).
  destruct z as [| p | p].
  - reflexivity.
  - change (pretty (Z.pos p)) with (pretty (N.pos p)).
    unfold pretty, pretty_N. destruct (decide (N.pos p = 0%N)); [discriminate |].
    rewrite (proj1 (strtol_pretty_N (N.pos p) ltac:(lia) ltac:(lia))).
    apply wrap32_small. lia.
  - change (pretty (Z.neg p)) with ("-" +:+ pretty (N.pos p)).
    unfold pretty at 1, pretty_N.
    destruct (decide (N.pos p = 0%N)); [discriminate |].
    rewrite (proj2 (strtol_pretty_N (N.pos p) ltac:(lia) ltac:(lia))).
    apply wrap32_small. lia.
Qed.

(** The shape of the rendering: digits, after a sign for a negative
    number. *)
Lemma pretty_Z_shape (z : Z) :
  INT_MIN <= z <= INT_MAX ->
  number_chars (pretty z) = true
  /\ Z.of_nat (String.length (pretty z)) <= 2 ^ 31 + 1
  /\ exists c r, pretty z = String c r
       /\ (isdigit c = true
           \/ c = "-"%char /\ exists c1 r1, r = String c1 r1
                                 /\ isdigit c1 = true).
Proof.
  intros H.
  assert (Hr : INT_MIN = - 2 ^ 31 /\ INT_MAX = 2 ^ 31 - 1) by (split; reflexivity).
  destruct z as [| p | p].
  - split; [reflexivity |]. split.
    + change (String.length (pretty 0)) with 1%nat. lia.
    + exists "0"%char, EmptyString. split; [reflexivity | left; reflexivity].
  - change (pretty (Z.pos p)) with (pretty (N.pos p)).
    unfold pretty, pretty_N. destruct (decide (N.pos p = 0%N)); [discriminate |].
    split; [apply pretty_N_go_chars; reflexivity |]. split.
    + pose proof (pretty_N_go_length (N.pos p) EmptyString) as Hl.
      cbn [String.length] in Hl. lia.
    + destruct (pretty_N_go_head (N.pos p) EmptyString ltac:(lia))
        as (c & r & Heq & Hc).
      exists c, r. split; [exact Heq | left; exact Hc].
  - change (pretty (Z.neg p)) with (String "-" (pretty (N.pos p))).
    unfold pretty, pretty_N. destruct (decide (N.pos p = 0%N)); [discriminate |].
    split; [cbn [number_chars]; rewrite pretty_N_go_chars; reflexivity |].
    split.
    + pose proof (pretty_N_go_length (N.pos p) EmptyString) as Hl.
      cbn [String.length] in Hl |- *. lia.
    + destruct (pretty_N_go_head (N.pos p) EmptyString ltac:(lia))
        as (c & r & Heq & Hc).
      exists "-"%char, (pretty_N_go (N.pos p) EmptyString).
      split; [reflexivity |]. right. split; [reflexivity |].
      exists c, r. split; assumption.
Qed.

Lemma number_chars_contains (c : ascii) (t : string) :
  (forall x, number_char x = true -> (c =? x)%char = false) ->
  number_chars t = true -> Parser.contains c t = false.
Proof.
  intros Hc. induction t as [| x r IH]; intros H; [reflexivity |].
  cbn [number_chars] in H. apply andb_prop in H as [Hx Hr].
  cbn [Parser.contains]. rewrite (Hc x Hx), (IH Hr). reflexivity.
Qed.

(** The tokenizer on characters that are neither white space nor
    delimiters: they are accumulated, and emitted at the end. *)
Lemma loop_number (s : string) (last : Z) :
  last = Z.of_nat (String.length s) - 1 -> 0 <= last -> last < 2 ^ 63 ->
  forall post pre k fuel,
    s = pre +:+ post -> number_chars post = true ->
    (String.length post < fuel)%nat ->
    Tokenizer.loop fuel s last (Z.of_nat (String.length pre)) k
    = Ok (Tokenizer.emit
            (Tokenizer.mk (Tokenizer.ret k) (Tokenizer.acc k +:+ post)
               (Tokenizer.unclosed k))).
Proof.
  intros Hlast Hne Hsize post.
  induction post as [| c r IH]; intros pre k fuel Hs Hchars Hfuel.
  - destruct fuel as [| fuel]; [simpl in Hfuel; lia |].
    cbn [Tokenizer.loop].
    assert (Hlen : String.length s = String.length pre).
    { rewrite Hs, string_append_empty_r. reflexivity. }
    destruct (Z.leb_spec (Z.of_nat (String.length pre)) last); [lia |].
    rewrite string_append_empty_r. destruct k; reflexivity.
  - destruct fuel as [| fuel]; [simpl in Hfuel; lia |].
    cbn [number_chars] in Hchars. apply andb_prop in Hchars as [Hc Hr].
    assert (Hlen : String.length s
                   = (String.length pre + S (String.length r))%nat).
    { rewrite Hs, string_length_append. reflexivity. }
    cbn [Tokenizer.loop].
    destruct (Z.leb_spec (Z.of_nat (String.length pre)) last); [| lia].
    unfold Tokenizer.at_. rewrite Nat2Z.id.
    assert (Hget : String.get (String.length pre) s = Some c).
    { rewrite Hs.
      exact (eq_sym (append_correct2 pre (String c r) 0)). }
    rewrite Hget. cbn [rbind].
    destruct (number_char_plain c Hc)
      as (H1 & _ & H2 & H3 & H4 & H5 & H6 & _).
    rewrite H1, H2, H3, H4, H5, H6.
    rewrite andb_false_r. cbn [orb].
    rewrite wrap64_small by lia.
    replace (Z.of_nat (String.length pre) + 1)
      with (Z.of_nat (String.length (pre +:+ String c EmptyString)))
      by (rewrite string_length_append; simpl; lia).
    rewrite (IH (pre +:+ String c EmptyString) (Tokenizer.push c k) fuel);
      [| rewrite string_append_assoc; exact Hs | exact Hr
       | simpl in Hfuel; lia].
    unfold Tokenizer.push. cbn [Tokenizer.ret Tokenizer.acc Tokenizer.unclosed].
    rewrite string_append_assoc. reflexivity.
Qed.

Lemma tokenize_number (t : string) :
  t <> EmptyString -> number_chars t = true ->
  Z.of_nat (String.length t) <= 2 ^ 63 ->
  tokenize t = Ok [t].
Proof.
  intros Hne Hchars Hsize.
  assert (Hpos : 0 < Z.of_nat (String.length t)).
  { destruct t; [congruence | simpl; lia]. }
  unfold tokenize, Tokenizer.run. rewrite wrap64_small by lia.
  pose proof (loop_number t _ eq_refl ltac:(lia) ltac:(lia) t EmptyString
                {| Tokenizer.ret := []; Tokenizer.acc := EmptyString;
                   Tokenizer.unclosed := 0 |}
                (String.length t + 2) eq_refl Hchars ltac:(lia)) as Hloop.
  change (Z.of_nat (String.length EmptyString)) with 0 in Hloop.
  cbn [Tokenizer.ret Tokenizer.acc Tokenizer.unclosed] in Hloop.
  change (EmptyString +:+ t) with t in Hloop.
  rewrite Hloop. cbn [rbind].
  unfold Tokenizer.emit. cbn [Tokenizer.acc].
  destruct (Z.ltb_spec 0 (Z.of_nat (String.length t))); [| lia].
  reflexivity.
Qed.

(** The reader on the rendering of an [int]: one form, a new [int] cell
    of the same value. *)
Lemma parse_number_step (fuel : nat) (tokens : list string) (pos : nat)
  (acc : list snode) (z : Z) (st : state) :
  INT_MIN <= z <= INT_MAX ->
  tokens !! pos = Some (pretty z) ->
  Parser.parse (S fuel) tokens pos acc st
  = Parser.parse fuel tokens (S pos) (acc ++ [length (heap st)])
      (with_heap (heap st ++ [Node_int z]) st).
Proof.
  intros Hz Htok.
  destruct (pretty_Z_shape z Hz) as (Hchars & Hlen & c & r & Heq & Hhead).
  assert (Hc : number_char c = true).
  { rewrite Heq in Hchars. cbn [number_chars] in Hchars.
    apply andb_prop in Hchars as [H _]. exact H. }
  destruct (number_char_plain c Hc)
    as (_ & _ & _ & _ & Hq & Hopen & Hclose & _ & _ & _ & Hneg).
  assert (Hnum : Parser.is_number (pretty z) c st = Ok (true, st)).
  { unfold Parser.is_number.
    destruct Hhead as [Hd | (-> & c1 & r1 & -> & Hd)].
    - rewrite Hd. reflexivity.
    - rewrite Heq. change (isdigit "-") with false. cbv iota.
      change ("-" =? "-")%char with true.
      cbn [andb String.length Nat.leb]. unfold Parser.char_at.
      cbn [String.get]. unfold bind, ret. rewrite Hd. reflexivity. }
  assert (Hdot : Parser.contains "." (pretty z) = false).
  { apply number_chars_contains; [| exact Hchars].
    intros x Hx. apply (number_char_plain x Hx). }
  assert (He : Parser.contains "e" (pretty z) = false).
  { apply number_chars_contains; [| exact Hchars].
    intros x Hx. apply (number_char_plain x Hx). }
  assert (Hnf : Parser.negative_first (pretty z) = false).
  { rewrite Heq. exact Hneg. }
  assert (Hat : Parser.char_at (pretty z) 0 st = Ok (c, st)).
  { unfold Parser.char_at. rewrite Heq. reflexivity. }
  assert (Ho : String.eqb (pretty z) "(" = false).
  { rewrite Heq. cbn [String.eqb]. rewrite Hopen. reflexivity. }
  assert (Hcl : String.eqb (pretty z) ")" = false).
  { rewrite Heq. cbn [String.eqb]. rewrite Hclose. reflexivity. }
  cbn [Parser.parse]. rewrite Htok, Hnf.
  rewrite (bind_ok _ _ _ _ _ Hat). rewrite Hq, Ho, Hcl.
  rewrite (bind_ok _ _ _ _ _ Hnum).
  rewrite Hdot, He. cbn [orb].
  rewrite (atoi_pretty z Hz).
  reflexivity.
Qed.

Lemma parse_pretty (z : Z) (st : state) :
  INT_MIN <= z <= INT_MAX ->
  parse (pretty z) st
  = Ok ([length (heap st)], with_heap (heap st ++ [Node_int z]) st).
Proof.
  intros Hz.
  destruct (pretty_Z_shape z Hz) as (Hchars & Hlen & c & r & Heq & _).
  assert (Htok : tokenize (pretty z) = Ok [pretty z]).
  { apply tokenize_number; [rewrite Heq; discriminate | exact Hchars | lia]. }
  unfold parse. rewrite Htok. unfold lift at 1, bind at 1.
  change (length [pretty z] + 2)%nat with 3%nat.
  unfold bind at 1.
  rewrite (parse_number_step 2 [pretty z] 0 [] z st Hz eq_refl).
  reflexivity.
Qed.

(** X22. [read-string] reads back what [to_string] writes for an [int]:
    applied to an [int] cell it returns a new [int] cell of the same value,
    and changes nothing else. The rendering [%d] consists of digits after
    an optional sign, the tokenizer makes one token of it, the reader takes
    it for a number without fraction or exponent, and [atoi] gives the
    value back, [INT_MIN] included. *)
Theorem read_string_of_an_int (gas : nat) (a : snode) (an : Node)
  (env : senvironment) (s : state) :
  heap s !! a = Some an -> type an = T_INT ->
  builtin_read_string (S gas) [a] env s
  = Ok (length (heap s), with_heap (heap s ++ [Node_int (v_int an)]) s)
  /\ v_int (Node_int (v_int an)) = v_int an.
Proof.
  intros Ha Ht. split.
  - unfold builtin_read_string.
    rewrite (bind_ok _ _ _ _ _ (index_ok [a] 0 a s eq_refl)).
    assert (Hs : string_of (S gas) a s = Ok (pretty (v_int an), s)).
    { unfold string_of. rewrite (bind_ok _ _ _ _ _ (deref_ok s a an Ha)).
      unfold bind, gets, lift. cbn [to_string]. rewrite Ht. reflexivity. }
    rewrite (bind_ok _ _ _ _ _ Hs).
    rewrite (bind_ok _ _ _ _ _ (parse_pretty (v_int an) s (v_int_range an))).
    reflexivity.
  - unfold Node_int, v_int at 1. cbn [u].
    pose proof (v_int_range an) as H. unfold INT_MIN, INT_MAX in H.
    unfold wrap32.
    rewrite <- (Z.add_mod_idemp_l (v_int an mod 2 ^ 32)) by lia.
    rewrite Z.mod_mod by lia.
    rewrite Z.add_mod_idemp_l by lia.
    rewrite Z.mod_small by lia. lia.
Qed.

Lemma read_string_of_an_int_witness :
  let s := with_heap (heap start ++ [Node_int (-2147483648)]) start in
  builtin_read_string 1 [5%nat] 0%nat s
  = Ok (6%nat, with_heap (heap s ++ [Node_int (-2147483648)]) s).
Proof.
  intros s.
  exact (proj1 (read_string_of_an_int 0 5%nat (Node_int (-2147483648))
                  0%nat s eq_refl eq_refl)).
Defined.

(** ** Quotient and remainder *)

(** X23. Integer division. With an [int] as first operand, [/] and [%] on
    a zero divisor, or on [INT_MIN] and -1, are undefined (the division
    traps). Otherwise they return the quotient truncated toward zero and
    the remainder that goes with it: the dividend is quotient times divisor
    plus remainder, the remainder is smaller than the divisor in absolute
    value and has the sign of the dividend, and the quotient is an [int]. *)
Theorem quotient_and_remainder (s : state) (env : senvironment)
  (a b : snode) (an bn : Node) :
  heap s !! a = Some an -> heap s !! b = Some bn -> type an = T_INT ->
  let x := v_int an in
  let y := to_int bn in
  let r := length (heap s) in
  (y = 0 \/ (x = INT_MIN /\ y = -1) ->
   builtin_div [a; b] env s = Crash DivisionByZero
   /\ builtin_percent [a; b] env s = Crash DivisionByZero)
  /\ (y <> 0 -> ~ (x = INT_MIN /\ y = -1) ->
      exists q m,
        builtin_div [a; b] env s
        = Ok (r, with_heap (heap s ++ [Node_int q]) s)
        /\ builtin_percent [a; b] env s
           = Ok (r, with_heap (heap s ++ [Node_int m]) s)
        /\ x = q * y + m
        /\ Z.abs m < Z.abs y
        /\ 0 <= m * x
        /\ INT_MIN <= q <= INT_MAX).
Proof.
  intros Ha Hb Ht x y r.
  assert (Hdiv : builtin_div [a; b] env s
                 = match int_div x y with
                   | Ok z => Ok (r, with_heap (heap s ++ [Node_int z]) s)
                   | Crash e => Crash e
                   end).
  { unfold builtin_div.
    rewrite (arith_computes node_1 int_div ddiv s a [b] an [bn] Ha
               ltac:(repeat constructor; exact Hb)).
    destruct (decide (type an = T_INT)) as [_ | Hne]; [| contradiction].
    cbn [int_sum]. fold x y. destruct (int_div x y); reflexivity. }
  assert (Hrem : builtin_percent [a; b] env s
                 = match int_rem x y with
                   | Ok z => Ok (r, with_heap (heap s ++ [Node_int z]) s)
                   | Crash e => Crash e
                   end).
  { unfold builtin_percent.
    rewrite (bind_ok _ _ _ _ _ (index_ok [a; b] 0 a s eq_refl)).
    rewrite (bind_ok _ _ _ _ _ (deref_ok s a an Ha)).
    rewrite (bind_ok _ _ _ _ _ (index_ok [a; b] 1 b s eq_refl)).
    rewrite (bind_ok _ _ _ _ _ (deref_ok s b bn Hb)).
    replace (to_int an) with x by (unfold to_int; rewrite Ht; reflexivity).
    fold y. unfold bind at 1, lift.
    destruct (int_rem x y); reflexivity. }
  pose proof (v_int_range an) as Hx. fold x in Hx.
  unfold INT_MIN, INT_MAX in *.
  split.
  - intros Hbad. rewrite Hdiv, Hrem. unfold int_div, int_rem, INT_MIN.
    assert (Hc : (y =? 0) || ((x =? - 2 ^ 31) && (y =? -1)) = true).
    { destruct Hbad as [Hy0 | [Hx0 Hy1]];
        [rewrite Hy0 | rewrite Hx0, Hy1]; reflexivity. }
    rewrite Hc. split; reflexivity.
  - intros Hy Hov. rewrite Hdiv, Hrem. unfold int_div, int_rem, INT_MIN.
    assert (Hc : (y =? 0) || ((x =? - 2 ^ 31) && (y =? -1)) = false).
    { apply orb_false_iff. split; [apply Z.eqb_neq; exact Hy |].
      apply andb_false_iff.
      destruct (Z.eq_dec x (- 2 ^ 31)) as [Hx1 | Hx1];
        [right | left]; apply Z.eqb_neq; [| exact Hx1].
      intros Hy1. apply Hov. split; assumption. }
    rewrite Hc. exists (Z.quot x y), (Z.rem x y).
    split; [reflexivity |]. split; [reflexivity |].
    pose proof (Z.quot_rem' x y) as Hqr.
    pose proof (Z.rem_bound_abs x y Hy) as Hbound.
    pose proof (Z.rem_sign_mul x y Hy) as Hsign.
    split; [lia |]. split; [lia |]. split; [lia |].
    assert (Habs : Z.abs (Z.quot x y) <= Z.abs x).
    { nia. }
    destruct (Z.eq_dec x (- 2 ^ 31)) as [Hx1 | Hx1]; [| lia].
    assert (Hy1 : y <> -1) by (intros E; apply Hov; split; assumption).
    assert (Hq : Z.quot x y <> 2 ^ 31).
    { intros Hq. rewrite Hq in Hqr. nia. }
    lia.
Qed.

Lemma quotient_and_remainder_witness :
  let s := with_heap (heap start ++ [Node_int (-7); Node_int 2]) start in
  builtin_div [5; 2]%nat 0%nat s = Crash DivisionByZero
  /\ exists q m,
       builtin_div [5; 6]%nat 0%nat s
       = Ok (7%nat, with_heap (heap s ++ [Node_int q]) s)
       /\ builtin_percent [5; 6]%nat 0%nat s
          = Ok (7%nat, with_heap (heap s ++ [Node_int m]) s)
       /\ -7 = q * 2 + m /\ Z.abs m < 2 /\ 0 <= m * -7.
Proof.
  intros s. split.
  - exact (proj1 (proj1 (quotient_and_remainder s 0%nat 5%nat 2%nat
                           (Node_int (-7)) (Node_int 0)
                           eq_refl eq_refl eq_refl)
                    (or_introl eq_refl))).
  - destruct (proj2 (quotient_and_remainder s 0%nat 5%nat 6%nat
                       (Node_int (-7)) (Node_int 2)
                       eq_refl eq_refl eq_refl)
                ltac:(discriminate) ltac:(intros [H _]; discriminate H))
      as (q & m & Hd & Hp & H1 & H2 & H3 & _).
    exists q, m. repeat split; assumption.
Defined.
